(** * HydraKV: the sharded hash table, its expiration manager and its
      append-only log, embedded from the Go sources.

    Go values are modelled as follows.
    - [uint64], [int64] and [uint32] are [Z] with the wrap-around written
      out ([u64], [i64], [u32]); [float64] is Stdlib's [spec_float].
    - A Go [string] is a byte sequence: Rocq's [string], one [ascii] a byte.
    - A basket's collision chain ([Items] and the [Next] pointers) is the
      list of its entries, head first.
    - Go maps are [gmap]s and [gset]s. A panic (an index out of range) is
      [None]; the properties show that none occurs.
    - The operations run one after the other: the locks are not modelled.
      The wall clock is an argument of the operations that read it. The
      other goroutines (the resize checker, the sweeper, the log writer)
      appear as steps that a run may take between two operations.
    - The log writer's channel is a list that is not bounded; file and
      allocation failures are not modelled. *)

From Stdlib Require Import ZArith Lia List Ascii String Permutation.
From Stdlib Require Import Floats.SpecFloat.
From stdpp Require Import base option list gmap strings fin_maps sorting.

Local Open Scope string_scope.
Local Open Scope list_scope.
Local Open Scope Z_scope.

(** ** Machine integers *)

Module Int.

Definition u64 (z : Z) : Z := z mod 2 ^ 64.
Definition u32 (z : Z) : Z := z mod 2 ^ 32.
(** Two's complement reading of the low 64 bits. *)
Definition i64 (z : Z) : Z := (z + 2 ^ 63) mod 2 ^ 64 - 2 ^ 63.

Definition MinInt64 : Z := - 2 ^ 63.
Definition MaxInt64 : Z := 2 ^ 63 - 1.
Definition MaxInt32 : Z := 2 ^ 31 - 1.

Definition is_int64 (z : Z) : Prop := MinInt64 <= z <= MaxInt64.
Definition is_uint64 (z : Z) : Prop := 0 <= z < 2 ^ 64.

(** [bits.Len64]: the number of bits needed to represent [x]. *)
Definition Len64 (x : Z) : Z := if x <=? 0 then 0 else Z.log2 x + 1.

End Int.
Export Int.

(** ** Bytes *)

Definition byte_val (c : ascii) : Z := Z.of_N (N_of_ascii c).
Definition byte_of (z : Z) : ascii := ascii_of_N (Z.to_N (z mod 256)).
Definition len (s : string) : Z := Z.of_nat (String.length s).

(** ** strconv *)

Module Strconv.

Definition is_digit (c : ascii) : bool :=
  (48 <=? byte_val c) && (byte_val c <=? 57).

(** The digit loop of [strconv.ParseUint] in base 10. The running value is
    kept exact; the range test is done by the caller, which accepts the same
    strings as Go's overflow test inside the loop: every failure is an error. *)
Fixpoint parse_digits (acc : Z) (s : string) : option Z :=
  match s with
  | EmptyString => Some acc
  | String c s' =>
      if is_digit c then parse_digits (acc * 10 + (byte_val c - 48)) s'
      else None
  end.

(** [strconv.ParseUint(s, 10, 64)], [None] for any error. *)
Definition ParseUint (s : string) : option Z :=
  match s with
  | EmptyString => None
  | _ => match parse_digits 0 s with
         | Some un => if un <? 2 ^ 64 then Some un else None
         | None => None
         end
  end.

(** [strconv.ParseInt(s, 10, 64)], [None] for any error. *)
Definition ParseInt (s : string) : option Z :=
  match s with
  | EmptyString => None
  | String c rest =>
      let '(neg, s1) :=
        if Ascii.eqb c "+"%char then (false, rest)
        else if Ascii.eqb c "-"%char then (true, rest)
        else (false, s) in
      match ParseUint s1 with
      | None => None
      | Some un =>
          if negb neg && (2 ^ 63 <=? un) then None
          else if neg && (2 ^ 63 <? un) then None
          else Some (if neg then - un else un)
      end
  end.

Definition digit_char (d : Z) : ascii := byte_of (48 + d).

(** The digits of [n >= 0], most significant first, prepended to [acc]. *)
Fixpoint fmt_digits (fuel : nat) (n : Z) (acc : string) : string :=
  match fuel with
  | O => acc
  | S fuel' =>
      let acc' := String (digit_char (n mod 10)) acc in
      if n / 10 =? 0 then acc' else fmt_digits fuel' (n / 10) acc'
  end.

(** [strconv.FormatInt(i, 10)] for an [int64]: at most 19 digits. *)
Definition FormatInt (i : Z) : string :=
  if i <? 0 then String "-"%char (fmt_digits 20 (- i) "") else fmt_digits 20 i "".

End Strconv.

(** ** xxhash64 (the scalar baseline of the C implementation) *)

Module XXHash64.

Definition XXH_PRIME64_1 : Z := 11400714785074694791.
Definition XXH_PRIME64_2 : Z := 14029467366897019727.
Definition XXH_PRIME64_3 : Z := 1609587929392839161.
Definition XXH_PRIME64_4 : Z := 9650029242287828579.
Definition XXH_PRIME64_5 : Z := 2870177450012600261.

Definition xxh_rotl64 (v r : Z) : Z :=
  u64 (Z.lor (Z.shiftl v r) (Z.shiftr v (64 - r))).

Definition xxh_round (acc input : Z) : Z :=
  let acc := u64 (acc + input * XXH_PRIME64_2) in
  let acc := xxh_rotl64 acc 31 in
  u64 (acc * XXH_PRIME64_1).

Definition xxh_merge_round (acc val : Z) : Z :=
  let val := xxh_round 0 val in
  let acc := Z.lxor acc val in
  u64 (acc * XXH_PRIME64_1 + XXH_PRIME64_4).

(** Little-endian read of the bytes of [p] ([memcpy] into an integer). *)
Fixpoint read_le (p : list Z) : Z :=
  match p with
  | [] => 0
  | b :: p' => b + 256 * read_le p'
  end.

Definition xxh_read64 (p : list Z) : Z := read_le (firstn 8 p).
Definition xxh_read32 (p : list Z) : Z := read_le (firstn 4 p).

(** First loop of [xxh_finalize]: whole 8-byte words. *)
Fixpoint finalize8 (fuel : nat) (h : Z) (p : list Z) : Z * list Z :=
  match fuel with
  | O => (h, p)
  | S fuel' =>
      if (8 <=? length p)%nat then
        let k1 := xxh_read64 p in
        let k1 := u64 (k1 * XXH_PRIME64_2) in
        let k1 := xxh_rotl64 k1 31 in
        let k1 := u64 (k1 * XXH_PRIME64_1) in
        let h := Z.lxor h k1 in
        let h := u64 (xxh_rotl64 h 27 * XXH_PRIME64_1 + XXH_PRIME64_4) in
        finalize8 fuel' h (skipn 8 p)
      else (h, p)
  end.

Definition finalize4 (h : Z) (p : list Z) : Z * list Z :=
  if (4 <=? length p)%nat then
    let k1_32 := xxh_read32 p in
    let h := Z.lxor h (u64 (k1_32 * XXH_PRIME64_1)) in
    let h := u64 (xxh_rotl64 h 23 * XXH_PRIME64_2 + XXH_PRIME64_3) in
    (h, skipn 4 p)
  else (h, p).

Fixpoint finalize1 (h : Z) (p : list Z) : Z :=
  match p with
  | [] => h
  | b :: p' =>
      let h := Z.lxor h (u64 (b * XXH_PRIME64_5)) in
      let h := u64 (xxh_rotl64 h 11 * XXH_PRIME64_1) in
      finalize1 h p'
  end.

Definition xxh_finalize (h : Z) (p : list Z) : Z :=
  let '(h, p) := finalize8 (length p) h p in
  let '(h, p) := finalize4 h p in
  let h := finalize1 h p in
  let h := Z.lxor h (Z.shiftr h 33) in
  let h := u64 (h * XXH_PRIME64_2) in
  let h := Z.lxor h (Z.shiftr h 29) in
  let h := u64 (h * XXH_PRIME64_3) in
  Z.lxor h (Z.shiftr h 32).

(** The do-while over 32-byte stripes; it is entered with 32 bytes available
    and repeats while 32 more remain. *)
Fixpoint stripes (fuel : nat) (v : Z * Z * Z * Z) (p : list Z)
  : Z * Z * Z * Z * list Z :=
  match fuel with
  | O => (v, p)
  | S fuel' =>
      let '(v1, v2, v3, v4) := v in
      let s1 := xxh_read64 p in
      let s2 := xxh_read64 (skipn 8 p) in
      let s3 := xxh_read64 (skipn 16 p) in
      let s4 := xxh_read64 (skipn 24 p) in
      let v' := (xxh_round v1 s1, xxh_round v2 s2,
                 xxh_round v3 s3, xxh_round v4 s4) in
      let p' := skipn 32 p in
      if (32 <=? length p')%nat then stripes fuel' v' p' else (v', p')
  end.

Definition xxhash64_scalar_seed (input : list Z) (seed : Z) : Z :=
  let n := Z.of_nat (length input) in
  let '(h, p) :=
    if 32 <=? n then
      let v1 := u64 (seed + XXH_PRIME64_1 + XXH_PRIME64_2) in
      let v2 := u64 (seed + XXH_PRIME64_2) in
      let v3 := u64 (seed + 0) in
      let v4 := u64 (seed - XXH_PRIME64_1) in
      let '(v1, v2, v3, v4, p) := stripes (length input) (v1, v2, v3, v4) input in
      let h := u64 (xxh_rotl64 v1 1 + xxh_rotl64 v2 7
                    + xxh_rotl64 v3 12 + xxh_rotl64 v4 18) in
      let h := xxh_merge_round h v1 in
      let h := xxh_merge_round h v2 in
      let h := xxh_merge_round h v3 in
      let h := xxh_merge_round h v4 in
      (h, p)
    else (u64 (seed + XXH_PRIME64_5), input) in
  let h := u64 (h + n) in
  xxh_finalize h p.

Definition bytes_of_string (s : string) : list Z :=
  map byte_val (list_ascii_of_string s).

(** [XXHash64.HashString] with the configured seed. *)
Definition HashString (seed : Z) (s : string) : Z :=
  if len s =? 0 then 0 else xxhash64_scalar_seed (bytes_of_string s) seed.

End XXHash64.

(** ** Table entries *)

(** [Entry]: the [Next] pointer is the tail of the chain the entry is in. *)
Record Entry := mkEntry {
  Hash : Z;
  Key : string;
  Value : string;
  Ttl : Z
}.

Definition NewEntry (ttl : Z) (key value : string) (hash : Z) : Entry :=
  {| Hash := hash; Key := key; Value := value; Ttl := ttl |}.

Definition set_Value (e : Entry) (v : string) : Entry :=
  {| Hash := Hash e; Key := Key e; Value := v; Ttl := Ttl e |}.
Definition set_Ttl (e : Entry) (t : Z) : Entry :=
  {| Hash := Hash e; Key := Key e; Value := Value e; Ttl := t |}.

(** ** The expiration manager *)

Module TTL.

(** A shard ([TTLEntryManager.list]) maps a unix second to the entries that
    expire then. The inner Go map is keyed by the entry's key and holds a
    pointer to the entry; that pointer is only ever read for its [Key], which
    is the map key and is never reassigned, so the inner map is its key set. *)
Record TTLManager := mkTTLManager {
  List : list (gmap Z (gset string));
  lastDeleted : Z;
  numShards : Z
}.

Definition LowerPowerOfTwo (shards : Z) : Z :=
  if shards <=? 2 then 2 else u64 (Z.shiftl 1 (Len64 (shards - 1))).

(** [NewTTLManager]; [now] is [time.Now().Unix()], [ncpu] is
    [runtime.NumCPU()] and [mult] the configured CPU multiplier. *)
Definition NewTTLManager (now ncpu mult : Z) : TTLManager :=
  let n := i64 (LowerPowerOfTwo (u64 (ncpu * mult))) in
  {| List := replicate (Z.to_nat n) ∅; lastDeleted := now; numShards := n |}.

Definition shard_index (t : TTLManager) (e : Entry) : nat :=
  Z.to_nat (Z.land (Hash e) (u64 (numShards t - 1))).

Definition set_List (t : TTLManager) (l : list (gmap Z (gset string))) :=
  {| List := l; lastDeleted := lastDeleted t; numShards := numShards t |}.
Definition set_lastDeleted (t : TTLManager) (s : Z) :=
  {| List := List t; lastDeleted := s; numShards := numShards t |}.

(** [addEntry]; [None] is the index panic of [ttlm.List[...]]. *)
Definition addEntry (t : TTLManager) (now : Z) (entry : Entry)
  : option TTLManager :=
  if Ttl entry <=? 0 then Some t
  else
    let i := shard_index t entry in
    em ← List t !! i;
    let future := i64 (now + Ttl entry) in
    if future <=? lastDeleted t then Some t
    else
      let values :=
        match em !! future with
        | Some values => {[Key entry]} ∪ values
        | None => {[Key entry]}
        end in
      Some (set_List t (<[i := <[future := values]> em]> (List t))).

(** [delEntry]. *)
Definition delEntry (t : TTLManager) (entry : Entry) (ttl : Z)
  : option TTLManager :=
  let i := shard_index t entry in
  em ← List t !! i;
  match em !! ttl with
  | Some bucket =>
      let bucket' := bucket ∖ {[Key entry]} in
      let em' := if decide (size bucket' = 0%nat) then delete ttl em
                 else <[ttl := bucket']> em in
      Some (set_List t (<[i := em']> (List t)))
  | None => Some t
  end.

End TTL.
Export TTL.

(** ** The append-only log *)

Module AOF.

Record Data := mkData {
  Action : string;
  Key : string;
  Value : string;
  Ttl : Z
}.

(** The log writer's view: [com] is the channel of pending records (oldest
    first), [file] the bytes written so far, [compressing] the number of
    compaction signals received. *)
Record AOF := mkAOF {
  com : list Data;
  file : list ascii;
  compressing : nat
}.

Definition NewAOF : AOF := {| com := []; file := []; compressing := 0 |}.

(** [binary.BigEndian]: the [n] low bytes of [z], most significant first. *)
Fixpoint be_bytes (n : nat) (z : Z) : list ascii :=
  match n with
  | O => []
  | S n' => be_bytes n' (z / 256) ++ [byte_of z]
  end.

Fixpoint be_value (acc : Z) (bs : list ascii) : Z :=
  match bs with
  | [] => acc
  | b :: bs' => be_value (acc * 256 + byte_val b) bs'
  end.

Definition write_string (s : string) : list ascii :=
  be_bytes 4 (u32 (len s)) ++ list_ascii_of_string s.

(** [writeFrame]: the bytes appended to the buffered file. *)
Definition writeFrame (data : Data) : list ascii :=
  write_string (Action data) ++ write_string (Key data)
  ++ write_string (Value data) ++ be_bytes 8 (u64 (Ttl data)).

Inductive error := EOF | ErrUnexpectedEOF.

(** [io.ReadFull] of [n] bytes from the bytes [r] that remain: the bytes read
    and the rest, or [EOF] when nothing was left and [ErrUnexpectedEOF] when
    the input ended early. *)
Definition ReadFull (n : nat) (r : list ascii)
  : list ascii * list ascii + error :=
  if (n =? 0)%nat then inl ([], r)
  else if (n <=? length r)%nat then inl (firstn n r, skipn n r)
  else match r with
       | [] => inr EOF
       | _ => inr ErrUnexpectedEOF
       end.

Definition read_string (r : list ascii) : string * list ascii + error :=
  match ReadFull 4 r with
  | inr e => inr e
  | inl (sizeBuf, r1) =>
      let size := be_value 0 sizeBuf in
      if 0 <? size then
        match ReadFull (Z.to_nat size) r1 with
        | inr e => inr e
        | inl (buf, r2) => inl (string_of_list_ascii buf, r2)
        end
      else inl ("", r1)
  end.

(** [readFrame]: the record and the bytes left, or the error. *)
Definition readFrame (r : list ascii) : Data * list ascii + error :=
  match read_string r with
  | inr e => inr e
  | inl (action, r1) =>
  match read_string r1 with
  | inr e => inr e
  | inl (key, r2) =>
  match read_string r2 with
  | inr e => inr e
  | inl (value, r3) =>
  match ReadFull 8 r3 with
  | inr e => inr e
  | inl (bs, r4) =>
      inl ({| Action := action; Key := key; Value := value;
              Ttl := i64 (be_value 0 bs) |}, r4)
  end end end end.

(** [Loop] on a closed channel: the pending records are written in order. *)
Definition Loop (a : AOF) : AOF :=
  {| com := []; file := file a ++ flat_map writeFrame (com a);
     compressing := compressing a |}.

Definition enqueue (a : AOF) (d : Data) : AOF :=
  {| com := com a ++ [d]; file := file a; compressing := compressing a |}.

Definition signal_compress (a : AOF) : AOF :=
  {| com := com a; file := file a; compressing := S (compressing a) |}.

End AOF.

(** ** float64, as far as [CheckResize] uses it *)

Module Float64.

Definition prec : Z := 53.
Definition emax : Z := 1024.

(** Conversion of an integer to [float64] (round to nearest even). *)
Definition of_int (z : Z) : spec_float := binary_normalize prec emax z 0 false.
Definition div (x y : spec_float) : spec_float := SFdiv prec emax x y.
Definition gt (x y : spec_float) : bool := SFltb y x.
(** The constant [0.75], which is exact in binary. *)
Definition c0_75 : spec_float := binary_normalize prec emax 3 (-2) false.

End Float64.

(** ** The sharded hash table *)

Module HM.

Definition DefaultBasketSize : Z := 2048.

(** [HashMap]. [table] holds each basket's chain; [seed] is the seed of the
    [xxhash] instance; [resizeCheck] counts the probes pending in the
    channel, whose capacity is 1001. The locks are not modelled: operations
    run one after the other. *)
Record HashMap := mkHashMap {
  table : list (list Entry);
  seed : Z;
  Entries : Z;
  Aof : AOF.AOF;
  reset : bool;
  resizeCheck : nat;
  deletedEntries : Z;
  TTlManager : TTLManager;
  basketNum : Z
}.

Definition set_table (hm : HashMap) (t : list (list Entry)) (n : Z) : HashMap :=
  mkHashMap t (seed hm) (Entries hm) (Aof hm) (reset hm) (resizeCheck hm)
            (deletedEntries hm) (TTlManager hm) n.
Definition set_bucket (hm : HashMap) (i : nat) (b : list Entry) : HashMap :=
  set_table hm (<[i := b]> (table hm)) (basketNum hm).
Definition set_Entries (hm : HashMap) (n : Z) : HashMap :=
  mkHashMap (table hm) (seed hm) n (Aof hm) (reset hm) (resizeCheck hm)
            (deletedEntries hm) (TTlManager hm) (basketNum hm).
Definition set_Aof (hm : HashMap) (a : AOF.AOF) : HashMap :=
  mkHashMap (table hm) (seed hm) (Entries hm) a (reset hm) (resizeCheck hm)
            (deletedEntries hm) (TTlManager hm) (basketNum hm).
Definition set_reset (hm : HashMap) (b : bool) : HashMap :=
  mkHashMap (table hm) (seed hm) (Entries hm) (Aof hm) b (resizeCheck hm)
            (deletedEntries hm) (TTlManager hm) (basketNum hm).
Definition set_resizeCheck (hm : HashMap) (n : nat) : HashMap :=
  mkHashMap (table hm) (seed hm) (Entries hm) (Aof hm) (reset hm) n
            (deletedEntries hm) (TTlManager hm) (basketNum hm).
Definition set_deletedEntries (hm : HashMap) (n : Z) : HashMap :=
  mkHashMap (table hm) (seed hm) (Entries hm) (Aof hm) (reset hm)
            (resizeCheck hm) n (TTlManager hm) (basketNum hm).
Definition set_TTlManager (hm : HashMap) (t : TTLManager) : HashMap :=
  mkHashMap (table hm) (seed hm) (Entries hm) (Aof hm) (reset hm)
            (resizeCheck hm) (deletedEntries hm) t (basketNum hm).

(** [hm.Aof.com <- d], done only outside replay. *)
Definition log_record (hm : HashMap) (d : AOF.Data) : HashMap :=
  if reset hm then hm else set_Aof hm (AOF.enqueue (Aof hm) d).

(** The non-blocking send on [resizeCheck]. *)
Definition probe (hm : HashMap) : HashMap :=
  if (resizeCheck hm <? 1001)%nat then set_resizeCheck hm (S (resizeCheck hm))
  else hm.

Definition getIndex (hm : HashMap) (key : string) : Z * Z :=
  let h := XXHash64.HashString (seed hm) key in
  (Z.land h (u64 (basketNum hm - 1)), h).

(** The walk [for item := basket.Items; item != nil; item = item.Next] up to
    the first entry whose key is [key]: its position and the entry. *)
Fixpoint find_item (key : string) (items : list Entry) : option (nat * Entry) :=
  match items with
  | [] => None
  | item :: rest =>
      if String.eqb (Key item) key then Some (O, item)
      else match find_item key rest with
           | Some (i, x) => Some (S i, x)
           | None => None
           end
  end.

(** The tail shared by [Set] and [Incr] on an entry that exists: drop the old
    expiration membership, install the new TTL. *)
Definition retime (t : TTLManager) (now : Z) (item : Entry) (ttl : Z)
  : option (TTLManager * Entry) :=
  t1 ← (if Ttl item =? 0 then Some t else delEntry t item (Ttl item));
  let item' := set_Ttl item ttl in
  t2 ← addEntry t1 now item';
  Some (t2, item').

(** [Set]; [now] is the wall clock read by [addEntry]. [None] is a panic. *)
Definition Set_ (hm : HashMap) (now ttl : Z) (key value : string)
  : option (HashMap * bool) :=
  let hm := log_record hm (AOF.mkData "set" key value ttl) in
  let hm := probe hm in
  let '(index, hash) := getIndex hm key in
  basket ← table hm !! Z.to_nat index;
  match find_item key basket with
  | Some (pos, item) =>
      '(t, item') ← retime (TTlManager hm) now (set_Value item value) ttl;
      Some (set_TTlManager
              (set_bucket hm (Z.to_nat index) (<[pos := item']> basket)) t,
            true)
  | None =>
      let e := NewEntry ttl key value hash in
      t ← addEntry (TTlManager hm) now e;
      Some (set_Entries
              (set_TTlManager (set_bucket hm (Z.to_nat index) (e :: basket)) t)
              (u64 (Entries hm + 1)),
            true)
  end.

(** [Get]. *)
Definition Get (hm : HashMap) (key : string) : option (bool * string) :=
  let '(index, hash) := getIndex hm key in
  basket ← table hm !! Z.to_nat index;
  match find_item key basket with
  | Some (_, item) => Some (true, Value item)
  | None => Some (false, "")
  end.

(** [checkIsNumber]. *)
Definition checkIsNumber (s : string) : Z * bool :=
  match Strconv.ParseInt s with
  | Some i => (i, true)
  | None => (0, false)
  end.

(** [Incr]. The record sent to the log leaves [Ttl] at its zero value. *)
Definition Incr (hm : HashMap) (now ttl : Z) (key amount : string)
  : option (HashMap * bool) :=
  let hm := log_record hm (AOF.mkData "incr" key amount 0) in
  let '(index, hash) := getIndex hm key in
  basket ← table hm !! Z.to_nat index;
  match find_item key basket with
  | Some (pos, item) =>
      let '(val, ok) := checkIsNumber (Value item) in
      if negb ok then Some (hm, false)
      else
        let '(add, ok) := checkIsNumber amount in
        if negb ok then Some (hm, false)
        else
          let item1 := set_Value item (Strconv.FormatInt (i64 (val + add))) in
          '(t, item') ← retime (TTlManager hm) now item1 ttl;
          Some (set_TTlManager
                  (set_bucket hm (Z.to_nat index) (<[pos := item']> basket)) t,
                true)
  | None =>
      let e := NewEntry ttl key amount hash in
      t ← addEntry (TTlManager hm) now e;
      Some (set_Entries
              (set_TTlManager (set_bucket hm (Z.to_nat index) (e :: basket)) t)
              (u64 (Entries hm + 1)),
            true)
  end.

(** [Del]. *)
Definition Del (hm : HashMap) (key : string) : option (HashMap * bool) :=
  let hm := log_record hm (AOF.mkData "del" key "" 0) in
  let '(index, hash) := getIndex hm key in
  basket ← table hm !! Z.to_nat index;
  match find_item key basket with
  | Some (pos, item) =>
      t ← delEntry (TTlManager hm) item (Ttl item);
      Some (set_deletedEntries
              (set_Entries
                 (set_TTlManager
                    (set_bucket hm (Z.to_nat index) (delete pos basket)) t)
                 (u64 (Entries hm + (2 ^ 64 - 1))))
              (i64 (deletedEntries hm + 1)),
            true)
  | None => Some (hm, false)
  end.

(** One step of the relinking loop of [checkNewBasket]: [item] becomes the
    head of its new basket. *)
Definition relink (newSize : Z) (newTable : list (list Entry)) (item : Entry)
  : option (list (list Entry)) :=
  let newIndex := Z.to_nat (Z.land (Hash item) (u64 (newSize - 1))) in
  items ← newTable !! newIndex;
  Some (<[newIndex := item :: items]> newTable).

Fixpoint relink_all (newSize : Z) (newTable : list (list Entry))
  (items : list Entry) : option (list (list Entry)) :=
  match items with
  | [] => Some newTable
  | item :: rest =>
      newTable' ← relink newSize newTable item;
      relink_all newSize newTable' rest
  end.

(** [checkNewBasket]: the old baskets are walked in order, each chain from
    its head. *)
Definition checkNewBasket (hm : HashMap) : option HashMap :=
  let newSize := Z.of_nat (length (table hm)) * 2 in
  let newTable := replicate (Z.to_nat newSize) [] in
  newTable' ← relink_all newSize newTable (concat (table hm));
  Some (set_table hm newTable' newSize).

(** [float64(entries)/float64(buckets) > 0.75]. *)
Definition load_gt (entries buckets : Z) : bool :=
  Float64.gt (Float64.div (Float64.of_int entries) (Float64.of_int buckets))
             Float64.c0_75.

Definition load_exceeded (hm : HashMap) : bool :=
  load_gt (Entries hm) (Z.of_nat (length (table hm))).

(** [CheckResize]. *)
Definition CheckResize (hm : HashMap) : option HashMap :=
  if load_exceeded hm then checkNewBasket hm else Some hm.

(** [AOFEntry], what the compaction writes for a live entry. *)
Record AOFEntry := mkAOFEntry {
  ae_Key : string;
  ae_Value : string;
  ae_Ttl : Z
}.

(** [GetAllEntriesAndCompress]: the baskets in order, each chain from its
    head. *)
Definition GetAllEntriesAndCompress (hm : HashMap) : list AOFEntry :=
  map (λ item, mkAOFEntry (Key item) (Value item) (Ttl item))
      (concat (table hm)).

Definition GetBasketNum (hm : HashMap) : Z := Z.of_nat (length (table hm)).
Definition GetEntries (hm : HashMap) : Z := i64 (Entries hm).

(** ** Replay and construction *)

(** What happens around the replay loop while record number [i] is applied:
    the reading of the wall clock, and whether the [ResizeChecker] goroutine,
    which is already running, gets to call [CheckResize] just before. *)
Record sched := mkSched {
  clock : nat → Z;
  resize_at : nat → bool
}.

(** The [switch d.Action] of [ReplayAOF]. *)
Definition apply_record (hm : HashMap) (now : Z) (d : AOF.Data)
  : option HashMap :=
  if String.eqb (AOF.Action d) "set" then
    fst <$> Set_ hm now (AOF.Ttl d) (AOF.Key d) (AOF.Value d)
  else if String.eqb (AOF.Action d) "del" then
    fst <$> Del hm (AOF.Key d)
  else if String.eqb (AOF.Action d) "incr" then
    fst <$> Incr hm now (AOF.Ttl d) (AOF.Key d) (AOF.Value d)
  else Some hm.

(** The [for] loop of [ReplayAOF] over the bytes [r] left in the reader. Both
    errors of an in-memory reader, [EOF] and [ErrUnexpectedEOF], end it.
    Every frame takes at least 20 bytes, so [S (length r)] iterations are
    enough ([replay_loop_fuel]). *)
Fixpoint replay_loop (fuel : nat) (sc : sched) (i : nat) (r : list ascii)
  (hm : HashMap) : option HashMap :=
  match fuel with
  | O => None
  | S fuel' =>
      match AOF.readFrame r with
      | inr _ => Some hm
      | inl (d, r') =>
          hm1 ← (if resize_at sc i then CheckResize hm else Some hm);
          hm2 ← apply_record hm1 (clock sc i) d;
          replay_loop fuel' sc (S i) r' hm2
      end
  end.

(** [ReplayAOF]; [disk] is the content of the [.bin] file, if it exists. *)
Definition ReplayAOF (hm : HashMap) (sc : sched) (disk : option (list ascii))
  : option HashMap :=
  match disk with
  | None => Some hm
  | Some r => replay_loop (S (length r)) sc O r hm
  end.

(** The table [NewHashMap] builds before it replays the log: the baskets are
    empty and [reset] is set. [now] is the clock at construction, [ncpu] and
    [mult] give the shard count, [seed_] seeds the hash. *)
Definition initial (now ncpu mult seed_ : Z) : HashMap :=
  {| table := replicate (Z.to_nat DefaultBasketSize) [];
     seed := seed_;
     Entries := 0;
     Aof := AOF.NewAOF;
     reset := true;
     resizeCheck := 0;
     deletedEntries := 0;
     TTlManager := NewTTLManager now ncpu mult;
     basketNum := DefaultBasketSize |}.

(** [NewHashMap]. After the replay the log is opened for appending behind
    what the file holds. *)
Definition NewHashMap (now ncpu mult seed_ : Z) (sc : sched)
  (disk : option (list ascii)) : option HashMap :=
  hm' ← ReplayAOF (initial now ncpu mult seed_) sc disk;
  Some (set_Aof (set_reset hm' false)
          (AOF.mkAOF [] (default [] disk) 0)).

(** [Close], as far as the log goes: the channel is closed and [Loop] drains
    it into the file. The result is the file left on disk. *)
Definition Close (hm : HashMap) : list ascii := AOF.file (AOF.Loop (Aof hm)).

(** ** The expiration sweep *)

(** [delEntriesFromHashMap]: the callback is [hm.Del]. Go ranges over the map
    in an unspecified order; [elements] fixes one. *)
Fixpoint delEntriesFromHashMap (hm : HashMap) (keys : list string)
  : option HashMap :=
  match keys with
  | [] => Some hm
  | k :: rest =>
      '(hm', _) ← Del hm k;
      delEntriesFromHashMap hm' rest
  end.

(** The body of the inner loop of [delEntries] for second [i], shard [j]. *)
Definition sweep_shard (i : Z) (hm : option HashMap) (j : nat)
  : option HashMap :=
  hm ← hm;
  em ← List (TTlManager hm) !! j;
  match em !! i with
  | Some entries =>
      let t := set_List (TTlManager hm)
                 (<[j := delete i em]> (List (TTlManager hm))) in
      delEntriesFromHashMap (set_TTlManager hm t) (elements entries)
  | None => Some hm
  end.

Definition sweep_second (hm : option HashMap) (i : Z) : option HashMap :=
  hm0 ← hm;
  fold_left (sweep_shard i) (seq 0 (length (List (TTlManager hm0)))) hm.

(** [delEntries]. *)
Definition delEntries (hm : HashMap) (now : Z) : option HashMap :=
  let last := lastDeleted (TTlManager hm) in
  let seconds :=
    map (λ n, last + 1 + Z.of_nat n) (seq 0 (Z.to_nat (now - last))) in
  hm' ← fold_left sweep_second seconds (Some hm);
  Some (set_TTlManager hm' (set_lastDeleted (TTlManager hm') now)).

(** ** The background scheduler *)

Inductive event :=
| Probe      (* a value arrives on [resizeCheck] *)
| Tick       (* the 60 second ticker fires *)
| Done.      (* [done] is closed *)

(** The compaction test of the ticker branch. [entries] is a [uint64],
    [deleted] an [int64]; Go's [/] truncates. *)
Definition compaction_due (entries deleted : Z) : bool :=
  ((2 <? entries) || (2 <? deleted)) && (Z.quot (i64 entries) 2 <=? deleted).

(** One turn of the [select] of [ResizeChecker] on the event that fired;
    [inputs] is the loop's local counter. The result tells whether the loop
    goes on. *)
Definition ResizeChecker_step (st : Z * HashMap) (ev : event)
  : option (Z * HashMap * bool) :=
  let '(inputs, hm) := st in
  match ev with
  | Probe =>
      let hm := set_resizeCheck hm (Nat.pred (resizeCheck hm)) in
      let inputs := inputs + 1 in
      if Z.rem inputs 1000 =? 0 then
        hm' ← CheckResize hm;
        Some (0, hm', true)
      else Some (inputs, hm, true)
  | Tick =>
      let entries := Entries hm in
      let deleted := deletedEntries hm in
      if compaction_due entries deleted then
        Some (inputs,
              set_deletedEntries
                (set_Aof hm (AOF.signal_compress (Aof hm))) 0,
              true)
      else Some (inputs, hm, true)
  | Done => Some (inputs, hm, false)
  end.

End HM.
Import HM.

(** ** The registry and the engine operations of the wire surfaces *)

Module Server.
Section WithToUpper.

(** [strings.ToUpper] of the Go library. *)
Variable ToUpper : string → string.

(** [dbs] is the registry; [MAX_ENTRIES] the configured cap per database. *)
Record Server := mkServer {
  dbs : gmap string HashMap;
  MAX_ENTRIES : Z
}.

Definition put (s : Server) (db : string) (hm : HashMap) : Server :=
  {| dbs := <[ToUpper db := hm]> (dbs s); MAX_ENTRIES := MAX_ENTRIES s |}.

(** [CheckEntries]. *)
Definition CheckEntries (s : Server) (name : string) : bool :=
  match dbs s !! ToUpper name with
  | Some hm => GetEntries hm <? i64 (MAX_ENTRIES s)
  | None => false
  end.

(** [Server.Set]. *)
Definition Set_ (s : Server) (now : Z) (db key value : string) (ttl : Z)
  : option (Server * bool) :=
  if negb (CheckEntries s db) then Some (s, false)
  else match dbs s !! ToUpper db with
       | Some hm =>
           '(hm', ok) ← HM.Set_ hm now ttl key value;
           Some (put s db hm', ok)
       | None => Some (s, false)
       end.

(** [Server.Incr]: the TTL handed to the table is always 0. *)
Definition Incr (s : Server) (now : Z) (db key amount : string)
  : option (Server * bool) :=
  match dbs s !! ToUpper db with
  | Some hm =>
      '(hm', ok) ← HM.Incr hm now 0 key amount;
      Some (put s db hm', ok)
  | None => Some (s, false)
  end.

(** [Server.Del]. *)
Definition Del (s : Server) (db key : string) : option (Server * bool) :=
  match dbs s !! ToUpper db with
  | Some hm =>
      '(hm', ok) ← HM.Del hm key;
      Some (put s db hm', ok)
  | None => Some (s, false)
  end.

(** [Server.Get]. *)
Definition Get (s : Server) (db key : string) : option (bool * string) :=
  match dbs s !! ToUpper db with
  | Some hm => HM.Get hm key
  | None => Some (false, "")
  end.

(** [Server.SetNX]. *)
Definition SetNX (s : Server) (now : Z) (db key value : string) (ttl : Z)
  : option (Server * bool) :=
  if negb (CheckEntries s db) then Some (s, false)
  else match dbs s !! ToUpper db with
       | Some hm =>
           '(exists_, _) ← HM.Get hm key;
           if exists_ : bool then Some (s, false)
           else
             '(hm', ok) ← HM.Set_ hm now ttl key value;
             Some (put s db hm', ok)
       | None => Some (s, false)
       end.




End WithToUpper.
End Server.

(** ** Compaction of the log *)

Module Compaction.

(** The bytes [createCompressedAOF] writes to the temporary file for one
    live entry: the action ["set"], the key, the value, each behind its
    length on four bytes, then the TTL on eight. *)
Definition compressed_entry (e : AOFEntry) : list ascii :=
  AOF.be_bytes 4 (u32 (len "set")) ++ list_ascii_of_string "set"
  ++ AOF.be_bytes 4 (u32 (len (ae_Key e))) ++ list_ascii_of_string (ae_Key e)
  ++ AOF.be_bytes 4 (u32 (len (ae_Value e)))
  ++ list_ascii_of_string (ae_Value e)
  ++ AOF.be_bytes 8 (u64 (ae_Ttl e)).

(** [createCompressedAOF]: the temporary file takes the place of the log.
    The records still pending in the channel are not touched. *)
Definition createCompressedAOF (a : AOF.AOF) (entries : list AOFEntry)
  : AOF.AOF :=
  {| AOF.com := AOF.com a;
     AOF.file := flat_map compressed_entry entries;
     AOF.compressing := AOF.compressing a |}.

(** The branch of [Loop] that receives a record from the channel: the oldest
    pending record is written. With nothing pending the branch is not
    taken. *)
Definition Loop_write (a : AOF.AOF) : AOF.AOF :=
  match AOF.com a with
  | [] => a
  | d :: rest =>
      {| AOF.com := rest;
         AOF.file := AOF.file a ++ AOF.writeFrame d;
         AOF.compressing := AOF.compressing a |}
  end.

(** The [compressing] branch of [Loop]: it takes a signal of the resize
    checker and compacts; the callback is [hm.GetAllEntriesAndCompress].
    Without a signal the branch is not taken. *)
Definition Loop_compress (hm : HashMap) : HashMap :=
  match AOF.compressing (Aof hm) with
  | O => hm
  | S n =>
      set_Aof hm
        (createCompressedAOF
           {| AOF.com := AOF.com (Aof hm);
              AOF.file := AOF.file (Aof hm);
              AOF.compressing := n |}
           (GetAllEntriesAndCompress hm))
  end.

End Compaction.

(** ** File names *)

Module Files.

(** [strings.Split(s, ".")]. *)
Fixpoint Split_dot (s : string) : list string :=
  match s with
  | EmptyString => [""]
  | String c s' =>
      if Ascii.eqb c "."%char then "" :: Split_dot s'
      else match Split_dot s' with
           | h :: t => String c h :: t
           | [] => [String c ""]
           end
  end.

(** [strings.Split(s, ".")[0]]; the slice is never empty. *)
Definition first_part (s : string) : string := hd "" (Split_dot s).

(** [strings.HasSuffix]. *)
Definition HasSuffix (s suffix : string) : bool :=
  (String.length suffix <=? String.length s)%nat
  && String.eqb (substring (String.length s - String.length suffix)
                           (String.length suffix) s) suffix.

(** The [FileName] that [NewAOF] computes from the database folder and the
    name it is given. *)
Definition FileName (DB_FOLDER file : string) : string :=
  String.append DB_FOLDER (String.append "/" (String.append file ".bin")).

(** The [tmpName] of [createCompressedAOF]. *)
Definition tmpName (FileName : string) : string :=
  String.append (first_part FileName) ".tmp.bin".

(** The loop of [RestartCheck.Check] over the directory entries, each a name
    and whether it is a directory. *)
Fixpoint Check (d : list (string * bool)) : list string :=
  match d with
  | [] => []
  | (name, IsDir) :: rest =>
      if IsDir || negb (HasSuffix name ".bin") then Check rest
      else first_part name :: Check rest
  end.

End Files.

(** ** The API keys of [utils]

    The database folder is a map from the names of its entries. The key file
    of a database, [DB_FOLDER + "/." + db + ".apikey"], is an entry of the
    folder when [db] holds no ['/']: the names that [CheckDbName] accepts and
    the names that [os.ReadDir] lists are such. Of the failures of the file
    system, a missing file and a directory in the place of a file are
    modelled. *)

Module ApiKeys.
Import Files.

(** [strings.ToUpper], on ASCII strings: the bytes ['a'] to ['z'] move to
    ['A'] to ['Z']. *)
Definition upper (c : ascii) : ascii :=
  let n := nat_of_ascii c in
  if (97 <=? n)%nat && (n <=? 122)%nat then ascii_of_nat (n - 32) else c.

Fixpoint ToUpper (s : string) : string :=
  match s with
  | EmptyString => EmptyString
  | String c s' => String (upper c) (ToUpper s')
  end.

Fixpoint isASCII (s : string) : bool :=
  match s with
  | EmptyString => true
  | String c s' => (nat_of_ascii c <? 128)%nat && isASCII s'
  end.

(** [strings.TrimSuffix]. *)
Definition TrimSuffix (s suffix : string) : string :=
  if HasSuffix s suffix
  then substring 0 (String.length s - String.length suffix) s
  else s.

(** The class [[a-zA-Z0-9]] of [DbNameRegex]. *)
Definition alnum (c : ascii) : bool :=
  let n := nat_of_ascii c in
  ((48 <=? n)%nat && (n <=? 57)%nat)
  || ((65 <=? n)%nat && (n <=? 90)%nat)
  || ((97 <=? n)%nat && (n <=? 122)%nat).

Fixpoint all_alnum (s : string) : bool :=
  match s with
  | EmptyString => true
  | String c s' => alnum c && all_alnum s'
  end.

(** [CheckDbName]: the name matches [^[a-zA-Z0-9]{1,100}$]. *)
Definition CheckDbName (name : string) : bool :=
  (1 <=? String.length name)%nat && (String.length name <=? 100)%nat
  && all_alnum name.

(** An entry of the folder: a directory, or a file with its content. *)
Inductive node :=
| Dir
| File (content : list ascii).

Abbreviation folder := (gmap string node).

(** [apiKeys] holds, by database, the hash of its key. *)
Record Utils := mkUtils {
  apiKeys : gmap string (list ascii)
}.

(** The name, in the folder, of the key file of [db]. *)
Definition keyFile (db : string) : string :=
  String.append "." (String.append db ".apikey").

(** [os.ReadDir]: the names of the entries, sorted. *)
Definition ReadDir (d : folder) : list string :=
  merge_sort (λ a b, String.leb a b) (map_to_list d).*1.

(** [ReadApiKey]; [None] is the error of [os.ReadFile]. *)
Definition ReadApiKey (d : folder) (db : string) : option (list ascii) :=
  match d !! keyFile (ToUpper db) with
  | Some (File content) => Some content
  | _ => None
  end.

(** [SaveApiKey]: the map is updated before the file is opened. The boolean
    is [false] when an error is returned. *)
Definition SaveApiKey (u : Utils) (d : folder) (db : string)
    (apiKey : list ascii) : Utils * folder * bool :=
  let u' := {| apiKeys := <[ToUpper db := apiKey]> (apiKeys u) |} in
  match d !! keyFile (ToUpper db) with
  | Some Dir => (u', d, false)
  | _ => (u', <[keyFile (ToUpper db) := File apiKey]> d, true)
  end.

(** How [RestoreApiKeys] ends: with [nil], with an error, or in the panic of
    the conversion [[32]byte(apiKey)] of a slice that is too short. *)
Inductive outcome :=
| Ok (u : Utils) (d : folder)
| Err (u : Utils) (d : folder)
| Panic.

(** The loop of [RestoreApiKeys] over the listing. *)
Fixpoint restore (files : list string) (u : Utils) (d : folder) : outcome :=
  match files with
  | [] => Ok u d
  | name :: rest =>
      if negb (HasSuffix name ".apikey") then restore rest u d
      else
        match ReadApiKey d (TrimSuffix name ".apikey") with
        | None => Err u d
        | Some apiKey =>
            if (length apiKey <? 32)%nat then Panic
            else
              match SaveApiKey u d (TrimSuffix name ".apikey")
                      (take 32 apiKey) with
              | (u', d', true) => restore rest u' d'
              | (u', d', false) => Err u' d'
              end
        end
  end.

Definition RestoreApiKeys (u : Utils) (d : folder) : outcome :=
  restore (ReadDir d) u d.

End ApiKeys.

(** * Notions used to state the properties *)

Module Notions.

(** ** Frames *)

(** A string whose length fits the 32-bit length field of a frame. *)
Definition string_ok (s : string) : Prop := len s < 2 ^ 32.

(** A record whose strings fit the 32-bit length fields and whose TTL is an
    [int64]. *)
Definition frame_ok (d : AOF.Data) : Prop :=
  string_ok (AOF.Action d) ∧ string_ok (AOF.Key d) ∧ string_ok (AOF.Value d)
  ∧ is_int64 (AOF.Ttl d).

(** The bytes [Loop] writes for the records [ds]. *)
Definition frames (ds : list AOF.Data) : list ascii :=
  flat_map AOF.writeFrame ds.

(** A reader positioned on [tail] is at the end of the log: nothing is left,
    or what is left is a frame cut short. *)
Definition at_end (tail : list ascii) : Prop :=
  AOF.readFrame tail = inr AOF.EOF
  ∨ AOF.readFrame tail = inr AOF.ErrUnexpectedEOF.

(** The string is not empty and its first byte is a decimal digit. *)
Definition starts_with_digit (s : string) : Prop :=
  match s with
  | String c _ => Strconv.is_digit c = true
  | EmptyString => False
  end.

(** ** Tables *)

(** All entries, basket by basket. *)
Definition entries (hm : HashMap) : list Entry := concat (table hm).

(** The keys the table holds. *)
Definition keys (hm : HashMap) : list string := Key <$> entries hm.

(** An entry as a binding of its key. *)
Definition pair_of (e : Entry) : string * Entry := (Key e, e).

(** The entry the table holds under each key. *)
Definition em (hm : HashMap) : gmap string Entry :=
  list_to_map (pair_of <$> entries hm).

(** The observable content of the table: the value under each key. *)
Definition kv (hm : HashMap) : gmap string string := Value <$> em hm.

(** An entry sits in the basket its cached hash selects, and the cached hash
    is the hash of its key. *)
Definition placed (seed_ n : Z) (i : nat) (e : Entry) : Prop :=
  Hash e = XXHash64.HashString seed_ (Key e)
  ∧ Z.to_nat (Z.land (Hash e) (u64 (n - 1))) = i.

(** The manager has the shards its shard count announces, at least one. *)
Definition ttl_ok (t : TTLManager) : Prop :=
  1 <= numShards t ∧ length (List t) = Z.to_nat (numShards t).

(** The invariant of the table: [basketNum] is the length of the bucket
    array, which is not empty; every entry is in the basket of its hash; no
    key occurs twice; [Entries] counts the entries, modulo 2^64; the
    expiration manager has its shards. *)
Record wf (hm : HashMap) : Prop := mkWf {
  wf_len : basketNum hm = Z.of_nat (length (table hm));
  wf_pos : 1 <= basketNum hm;
  wf_place : ∀ i b, table hm !! i = Some b →
                    Forall (placed (seed hm) (basketNum hm) i) b;
  wf_nodup : NoDup (Key <$> entries hm);
  wf_count : Entries hm = u64 (Z.of_nat (length (entries hm)));
  wf_ttl : ttl_ok (TTlManager hm)
}.

(** The entries of all baskets but the one at index [i]. *)
Definition others (t : list (list Entry)) (i : nat) : list Entry :=
  concat (take i t) ++ concat (drop (S i) t).

(** The index [getIndex] computes for [key], as a position in [table]. *)
Definition index_of (hm : HashMap) (key : string) : nat :=
  Z.to_nat (getIndex hm key).1.

(** The map a list of entries represents. *)
Abbreviation ltm l := (list_to_map (pair_of <$> l) : gmap string Entry).

(** What [Incr] does to the entry under [key]. *)
Definition incr_effect (m m' : gmap string Entry) (ttl : Z)
  (key amount : string) (ok : bool) : Prop :=
  match m !! key with
  | Some cur =>
      match Strconv.ParseInt (Value cur), Strconv.ParseInt amount with
      | Some v, Some a =>
          ok = true
          ∧ ∃ e, m' = <[key := e]> m
                 ∧ Value e = Strconv.FormatInt (i64 (v + a)) ∧ Ttl e = ttl
      | _, _ => ok = false ∧ m' = m
      end
  | None =>
      ok = true ∧ ∃ e, m' = <[key := e]> m ∧ Value e = amount ∧ Ttl e = ttl
  end.

(** [Incr] on the represented map. *)
Definition incr_kv (m : gmap string string) (key amount : string)
  : gmap string string * bool :=
  match m !! key with
  | Some cur =>
      match Strconv.ParseInt cur, Strconv.ParseInt amount with
      | Some v, Some a => (<[key := Strconv.FormatInt (i64 (v + a))]> m, true)
      | _, _ => (m, false)
      end
  | None => (<[key := amount]> m, true)
  end.

(** The shard count is sound when the product of the CPU count and the
    multiplier is not negative and below 2^62. *)
Definition cpu_ok (ncpu mult : Z) : Prop := 0 <= ncpu * mult <= 2 ^ 62.

(** The seconds under which [key] has a membership record in shard [em]. *)
Definition memberships (em : gmap Z (gset string)) (key : string) : list Z :=
  filter (λ s, key ∈ default ∅ (em !! s)) (elements (dom em)).

(** ** Runs *)

(** The loop of [ReplayAOF] over records that are already decoded. *)
Fixpoint apply_all (sc : sched) (i : nat) (ds : list AOF.Data) (hm : HashMap)
  : option HashMap :=
  match ds with
  | [] => Some hm
  | d :: ds' =>
      hm1 ← (if resize_at sc i then CheckResize hm else Some hm);
      hm2 ← apply_record hm1 (clock sc i) d;
      apply_all sc (S i) ds' hm2
  end.



(** One atomic transition of a database: a table operation, a resize check,
    a turn of the scheduler, or an expiration sweep. *)
Inductive step : HashMap → HashMap → Prop :=
| step_Set hm now ttl key value hm' ok :
    Set_ hm now ttl key value = Some (hm', ok) → step hm hm'
| step_Incr hm now ttl key amount hm' ok :
    Incr hm now ttl key amount = Some (hm', ok) → step hm hm'
| step_Del hm key hm' ok :
    Del hm key = Some (hm', ok) → step hm hm'
| step_CheckResize hm hm' :
    CheckResize hm = Some hm' → step hm hm'
| step_ResizeChecker hm inputs ev inputs' hm' go :
    ResizeChecker_step (inputs, hm) ev = Some (inputs', hm', go) → step hm hm'
| step_delEntries hm now hm' :
    delEntries hm now = Some hm' → step hm hm'.

(** The states of a database from its construction on, whatever the log
    file held. *)
Inductive reachable : HashMap → Prop :=
| reach_new now ncpu mult seed_ sc disk hm :
    cpu_ok ncpu mult →
    NewHashMap now ncpu mult seed_ sc disk = Some hm → reachable hm
| reach_step hm hm' : reachable hm → step hm hm' → reachable hm'.

(** The bucket array of [hm'] is that of [hm] doubled some number of times. *)
Definition doubled (hm hm' : HashMap) : Prop :=
  ∃ k : nat, length (table hm') = (length (table hm) * 2 ^ k)%nat.

(** What the sweep relies on: the table stays well formed, and neither the
    bucket array nor the number of shards changes under it. *)
Definition kept (n : nat) (shards : Z) (hm : HashMap) : Prop :=
  wf hm ∧ length (table hm) = n ∧ numShards (TTlManager hm) = shards.

(** ** Concrete databases *)

(** A schedule under which the resize checker stays quiet. *)
Definition quiet : sched := mkSched (λ _, 0) (λ _, false).

(** The database [NewHashMap] returns when there is no log file. *)
Definition empty_db : HashMap :=
  set_Aof (set_reset (initial 1000 8 16 0) false) (AOF.mkAOF [] [] 0).

(** [n] keys ["k-0"], ["k-1"], ... are set one after the other. *)
Fixpoint fill (n : nat) (hm : HashMap) : option HashMap :=
  match n with
  | O => Some hm
  | S n' =>
      hm1 ← fill n' hm;
      fst <$> Set_ hm1 1000 0
                (String.append "k-" (Strconv.FormatInt (Z.of_nat n')))
                (String.append "v-" (Strconv.FormatInt (Z.of_nat n')))
  end.

(** The empty database, whose watermark is 1000, after a [Set] with a TTL
    of one second that read the clock at 999, and after the sweep has then
    gone through the next thousand seconds. *)
Definition dropped_db : HashMap :=
  default empty_db (fst <$> Set_ empty_db 999 1 "k" "v").
Definition dropped_swept : HashMap :=
  default empty_db (delEntries dropped_db 2000).

(** A database with two entries and one deletion behind it. *)
Definition two_left : option HashMap :=
  hm ← fill 3 empty_db; fst <$> Del hm "k-0".

(** The same as a state; [two_left] does return one. *)
Definition two_left_db : HashMap := default empty_db two_left.

(** The key ["k"] set with a TTL of ten seconds at second 1000; then set
    again without a TTL a second later; then the sweep of second 1010. *)
Definition ttl_set : HashMap :=
  default empty_db (fst <$> Set_ empty_db 1000 10 "k" "v").
Definition ttl_cleared : HashMap :=
  default empty_db (fst <$> Set_ ttl_set 1001 0 "k" "w").
Definition ttl_cleared_swept : HashMap :=
  default empty_db (delEntries ttl_cleared 1010).

(** The same key deleted instead, set anew without a TTL at second 1005;
    then the sweep of second 1010. *)
Definition ttl_deleted : HashMap :=
  default empty_db (fst <$> Del ttl_set "k").
Definition set_anew : HashMap :=
  default empty_db (fst <$> Set_ ttl_deleted 1005 0 "k" "w").
Definition set_anew_swept : HashMap :=
  default empty_db (delEntries set_anew 1010).

(** The shard of the key ["k"] in the manager of [hm]. *)
Definition shard_of_k (hm : HashMap) : gmap Z (gset string) :=
  default ∅
    (List (TTlManager hm)
       !! shard_index (TTlManager hm)
            (NewEntry 0 "k" "w" (XXHash64.HashString 0 "k"))).

(** ** Two statements of the specification that the code does not meet,
       in the specification's words *)

(** C7, as the specification words it: an entry whose expiry is not after
    the watermark is dropped by the manager and deleted from the table, so
    that it is gone after the next sweep. *)
Definition dropped_entry_is_deleted (hm : HashMap) (now ttl later : Z)
    (key value : string) : Prop :=
  ∀ hm1 hm2,
    Set_ hm now ttl key value = Some (hm1, true) →
    0 < ttl → i64 (now + ttl) <= lastDeleted (TTlManager hm) →
    delEntries hm1 later = Some hm2 →
    Get hm2 key = Some (false, "").

(** C8, as the specification words it: compaction is due when the entries
    deleted since the last compaction are at least [max(entries, 2) / 2]. *)
Definition spec_compaction_due (entries deleted : Z) : bool :=
  Z.max entries 2 / 2 <=? deleted.

(** ** Notions for the further properties *)

(** The empty database after ["counter"] was set to ["100"]. *)
Definition counter_db : HashMap :=
  default empty_db (fst <$> Set_ empty_db 1000 0 "counter" "100").

(** Key [k] has a membership record in shard [j] of the expiration manager
    under second [s]. *)
Definition member (t : TTLManager) (j : nat) (s : Z) (k : string) : Prop :=
  ∃ em b, List t !! j = Some em ∧ em !! s = Some b ∧ k ∈ b.

(** Key [k] is due in the window from [lo] (excluded) to [hi]: some shard
    holds it under a second of the window. *)
Definition is_due (t : TTLManager) (lo hi : Z) (k : string) : Prop :=
  ∃ j s, lo < s <= hi ∧ member t j s k.

(** The state [cur] in the middle of a sweep of the window from [lo] to [hi]
    that started at [hm0]: the keys in [D] have been deleted, those in
    [pending] are about to be, and the buckets [Pd] have been detached. *)
Record sweep_inv (hm0 : HashMap) (lo hi : Z) (Pd : Z → nat → Prop)
    (pending : list string) (D : gset string) (cur : HashMap) : Prop :=
  mkSweepInv {
  si_wf : wf cur;
  si_shards : numShards (TTlManager cur) = numShards (TTlManager hm0);
  si_kv : ∀ k, kv cur !! k = if decide (k ∈ D) then None else kv hm0 !! k;
  si_sub : ∀ j s k, member (TTlManager cur) j s k →
                    member (TTlManager hm0) j s k;
  si_sup : ∀ j s k, member (TTlManager hm0) j s k →
                    k ∈ D ∨ k ∈ pending ∨ member (TTlManager cur) j s k;
  si_due : ∀ k, k ∈ D → is_due (TTlManager hm0) lo hi k;
  si_done : ∀ s j k, Pd s j → ¬ member (TTlManager cur) j s k
}.

(** A snapshot record whose strings fit the length fields of a frame and
    whose TTL is an [int64]. *)
Definition entry_fits (e : AOFEntry) : Prop :=
  string_ok (ae_Key e) ∧ string_ok (ae_Value e) ∧ is_int64 (ae_Ttl e).

(** The log record that stands for a snapshot record. *)
Definition set_record (e : AOFEntry) : AOF.Data :=
  AOF.mkData "set" (ae_Key e) (ae_Value e) (ae_Ttl e).

(** The value and the TTL field the table holds under each key. *)
Definition vt (hm : HashMap) : gmap string (string * Z) :=
  (λ e, (Value e, Ttl e)) <$> em hm.

(** The value and the TTL a snapshot gives for each key. *)
Definition snapshot_map (l : list AOFEntry) : gmap string (string * Z) :=
  list_to_map ((λ e, (ae_Key e, (ae_Value e, ae_Ttl e))) <$> l).

(** The string holds no ['.']. *)
Fixpoint no_dot (s : string) : bool :=
  match s with
  | EmptyString => true
  | String c s' => negb (Ascii.eqb c "."%char) && no_dot s'
  end.

(** ** Runs with TTLs, sweeps and compaction *)

(** One step in the life of an open database: an operation of a client, or
    a turn of a background goroutine (the resize checker on one of its
    events, the expiration sweep, the log writer writing one record or
    compacting the log). *)
Inductive op :=
| OpSet (ttl : Z) (key value : string)
| OpIncr (ttl : Z) (key amount : string)
| OpDel (key : string)
| OpCheckResize
| OpChecker (ev : event)
| OpSweep
| OpWrite
| OpCompress.

(** The step on the state of the database and the counter of the resize
    checker; [now] is the reading of the clock at the step. *)
Definition exec_op (st : Z * HashMap) (now : Z) (o : op)
  : option (Z * HashMap) :=
  let '(inputs, hm) := st in
  match o with
  | OpSet ttl key value =>
      '(hm', _) ← Set_ hm now ttl key value; Some (inputs, hm')
  | OpIncr ttl key amount =>
      '(hm', _) ← Incr hm now ttl key amount; Some (inputs, hm')
  | OpDel key => '(hm', _) ← Del hm key; Some (inputs, hm')
  | OpCheckResize => hm' ← CheckResize hm; Some (inputs, hm')
  | OpChecker ev =>
      '(inputs', hm', _) ← ResizeChecker_step (inputs, hm) ev;
      Some (inputs', hm')
  | OpSweep => hm' ← delEntries hm now; Some (inputs, hm')
  | OpWrite => Some (inputs, set_Aof hm (Compaction.Loop_write (Aof hm)))
  | OpCompress => Some (inputs, Compaction.Loop_compress hm)
  end.

Fixpoint run_ops (st : Z * HashMap) (ops : list (Z * op))
  : option (Z * HashMap) :=
  match ops with
  | [] => Some st
  | (now, o) :: rest => st' ← exec_op st now o; run_ops st' rest
  end.

(** The strings of the step fit the length fields of a frame, and its TTL
    is an [int64]. *)
Definition op_ok (o : op) : Prop :=
  match o with
  | OpSet ttl key value => is_int64 ttl ∧ string_ok key ∧ string_ok value
  | OpIncr ttl key amount => is_int64 ttl ∧ string_ok key ∧ string_ok amount
  | OpDel key => string_ok key
  | _ => True
  end.

(** In the run [ops] from the state [st], the log writer compacts only when
    it has written every record that was sent to it. *)
Fixpoint compress_drained (st : Z * HashMap) (ops : list (Z * op)) : bool :=
  match ops with
  | [] => true
  | (now, o) :: rest =>
      match o with
      | OpCompress =>
          match AOF.compressing (Aof st.2), AOF.com (Aof st.2) with
          | S _, _ :: _ => false
          | _, _ => true
          end
      | _ => true
      end
      && match exec_op st now o with
         | Some st' => compress_drained st' rest
         | None => true
         end
  end.

(** The table [NewHashMap] returns when there is no log file. *)
Definition fresh_db (now ncpu mult seed_ : Z) : HashMap :=
  set_Aof (set_reset (initial now ncpu mult seed_) false)
    (AOF.mkAOF [] [] 0).

(** The keys and values of the table fit the length fields of a frame, and
    the TTL fields are [int64]s. *)
Definition fits (hm : HashMap) : Prop :=
  ∀ k e, em hm !! k = Some e →
         string_ok k ∧ string_ok (Value e) ∧ is_int64 (Ttl e).

(** The live table [hm1] is what the replay of its log gives, what is in the
    file followed by what is pending, from the table [hmi] and under the
    schedule [sc], as far as [Get] can tell; the keys the expiration manager
    holds and the strings of the table fit a frame. *)
Record replays (sc : sched) (hmi hm1 : HashMap) : Prop := mkReplays {
  rp_wf : wf hm1;
  rp_live : reset hm1 = false;
  rp_keys : ∀ j s k, member (TTlManager hm1) j s k → string_ok k;
  rp_fits : fits hm1;
  rp_log : ∃ dsf hm2,
      AOF.file (Aof hm1) = frames dsf
      ∧ Forall frame_ok (dsf ++ AOF.com (Aof hm1))
      ∧ apply_all sc O (dsf ++ AOF.com (Aof hm1)) hmi = Some hm2
      ∧ wf hm2 ∧ reset hm2 = true ∧ kv hm2 = kv hm1
}.

(** The same in the middle of a sweep, with the shard count at hand. *)
Definition swept (sc : sched) (hmi : HashMap) (n : nat) (hm : HashMap)
  : Prop :=
  replays sc hmi hm ∧ length (List (TTlManager hm)) = n.

(** A run that sets three keys with a TTL, lets the sweep take them, has
    the resize checker ask for a compaction, compacts the log once the writer
    has caught up, and goes on. *)
Definition ttl_run : list (Z * op) :=
  [(1000, OpSet 10 "a" "1"); (1000, OpSet 10 "b" "2");
   (1000, OpSet 10 "c" "3"); (1001, OpIncr 50 "n" "41");
   (1002, OpCheckResize); (1020, OpSweep); (1021, OpIncr 0 "n" "1");
   (1022, OpChecker Tick)]
  ++ replicate 8 (1023, OpWrite)
  ++ [(1024, OpCompress); (1025, OpDel "missing");
      (1026, OpIncr 0 "n" "8")].

(** A run after which the log writer has caught up and the resize checker
    has asked for a compaction: three keys are set and deleted, a counter is
    set to 5. *)
Definition signalled_run : list (Z * op) :=
  [(1000, OpSet 0 "a" "1"); (1000, OpSet 0 "b" "2");
   (1000, OpSet 0 "c" "3"); (1001, OpDel "a"); (1001, OpDel "b");
   (1001, OpDel "c"); (1002, OpIncr 0 "n" "5")]
  ++ replicate 7 (1003, OpWrite)
  ++ [(1004, OpChecker Tick)].

Definition signalled_db : Z * HashMap :=
  default (0, empty_db) (run_ops (0, fresh_db 1000 8 16 0) signalled_run).

(** The run goes on: the log writer compacts while an increment is
    pending. *)
Definition racy_run : list (Z * op) :=
  signalled_run ++ [(1005, OpIncr 0 "n" "5"); (1006, OpCompress)].

End Notions.
Import Notions.

(** * Properties *)

(** ** Frames *)

Module FrameFacts.
Import AOF.

Lemma byte_val_range c : 0 <= byte_val c < 256.
Proof.
  unfold byte_val. pose proof (N_ascii_bounded c). lia.
Qed.

Lemma byte_val_of z : byte_val (byte_of z) = z mod 256.
Proof.
  unfold byte_val, byte_of.
  assert (0 <= z mod 256 < 256) by (apply Z.mod_pos_bound; lia).
  rewrite N_ascii_embedding by lia. lia.
Qed.

Lemma length_be_bytes n z : length (be_bytes n z) = n.
Proof.
  revert z. induction n as [|n IH]; intros z; simpl; [done|].
  rewrite length_app, IH. simpl. lia.
Qed.

Lemma be_value_app bs1 bs2 acc :
  be_value acc (bs1 ++ bs2) = be_value (be_value acc bs1) bs2.
Proof. revert acc. induction bs1; intros; simpl; auto. Qed.

Lemma be_value_be_bytes n z acc :
  be_value acc (be_bytes n z) = acc * 256 ^ Z.of_nat n + z mod 256 ^ Z.of_nat n.
Proof.
  revert z acc. induction n as [|n IH]; intros z acc.
  - simpl. rewrite Z.mod_1_r. lia.
  - cbn [be_bytes]. rewrite be_value_app, IH. cbn [be_value].
    rewrite byte_val_of.
    replace (Z.of_nat (S n)) with (1 + Z.of_nat n) by lia.
    rewrite Z.pow_add_r by lia. change (256 ^ 1) with 256.
    assert (0 < 256 ^ Z.of_nat n) by (apply Z.pow_pos_nonneg; lia).
    rewrite (Z.rem_mul_r z 256 (256 ^ Z.of_nat n)) by lia.
    lia.
Qed.

Lemma be_value_be_bytes_id n z :
  0 <= z < 256 ^ Z.of_nat n → be_value 0 (be_bytes n z) = z.
Proof.
  intros. rewrite be_value_be_bytes, Z.mod_small; lia.
Qed.

(** A segment of [n] bytes. Reading it from a prefix [p] of [seg ++ tail]
    either runs out of input or delivers [seg]. *)
Lemma ReadFull_prefix (seg tail p q : list ascii) :
  seg ≠ [] →
  p ++ q = seg ++ tail →
  ((ReadFull (length seg) p = inr EOF
    ∨ ReadFull (length seg) p = inr ErrUnexpectedEOF)
   ∧ (length p < length seg)%nat)
  ∨ ∃ p', p = seg ++ p' ∧ p' ++ q = tail
          ∧ ReadFull (length seg) p = inl (seg, p').
Proof.
  intros Hne Heq. unfold ReadFull.
  destruct (Nat.eqb_spec (length seg) 0) as [H0|H0].
  { destruct seg; simpl in *; congruence. }
  destruct (Nat.leb_spec (length seg) (length p)) as [Hle|Hlt].
  - right. exists (skipn (length seg) p).
    assert (Hf : firstn (length seg) p = seg).
    { apply (f_equal (firstn (length seg))) in Heq.
      rewrite firstn_app in Heq.
      replace (length seg - length p)%nat with 0%nat in Heq by lia.
      rewrite firstn_O, app_nil_r in Heq. rewrite Heq.
      rewrite firstn_app, firstn_all, Nat.sub_diag, firstn_O.
      apply app_nil_r. }
    assert (Hp : p = seg ++ skipn (length seg) p).
    { rewrite <- Hf at 1. symmetry. apply firstn_skipn. }
    split; [exact Hp|]. split.
    + rewrite Hp in Heq at 1. rewrite <- app_assoc in Heq.
      by apply app_inv_head in Heq.
    + by rewrite Hf.
  - left. split; [|lia]. destruct p; auto.
Qed.

Lemma ReadFull_exact (seg rest : list ascii) :
  ReadFull (length seg) (seg ++ rest) = inl (seg, rest).
Proof.
  unfold ReadFull. destruct seg as [|c seg]; [done|].
  cbn [length Nat.eqb]. rewrite length_app.
  destruct (Nat.leb_spec (S (length seg)) (length (c :: seg) + length rest))
    as [_|Hlt]; [|simpl in Hlt; lia].
  change (S (length seg)) with (length (c :: seg)).
  rewrite firstn_app, firstn_all, Nat.sub_diag, firstn_O, app_nil_r.
  rewrite skipn_app, skipn_all, Nat.sub_diag. done.
Qed.

Lemma length_bytes_of_string s :
  length (list_ascii_of_string s) = String.length s.
Proof. induction s; simpl; auto. Qed.

Lemma size_field s :
  string_ok s → be_value 0 (be_bytes 4 (u32 (len s))) = len s.
Proof.
  unfold string_ok, u32, len. intros H.
  rewrite Z.mod_small by lia.
  apply be_value_be_bytes_id. change (256 ^ Z.of_nat 4) with (2 ^ 32). lia.
Qed.

Lemma read_string_prefix (s : string) (tail p q : list ascii) :
  string_ok s →
  p ++ q = write_string s ++ tail →
  ((read_string p = inr EOF ∨ read_string p = inr ErrUnexpectedEOF)
   ∧ (length p < length (write_string s))%nat)
  ∨ ∃ p', p = write_string s ++ p' ∧ p' ++ q = tail
          ∧ read_string p = inl (s, p').
Proof.
  intros Hs Heq. unfold write_string in *. rewrite <- app_assoc in Heq.
  pose proof (length_be_bytes 4 (u32 (len s))) as H4.
  assert (Hne4 : be_bytes 4 (u32 (len s)) ≠ []).
  { intros E. rewrite E in H4. discriminate. }
  destruct (ReadFull_prefix _ _ p q Hne4 Heq) as
    [[He Hl]|(p1 & -> & Hq1 & Hr)].
  { left. rewrite H4 in He, Hl. unfold read_string. split.
    - destruct He as [-> | ->]; auto.
    - rewrite length_app. lia. }
  rewrite H4 in Hr. unfold read_string. rewrite Hr, size_field by done.
  destruct (Z.ltb_spec 0 (len s)) as [Hpos|Hz].
  - assert (Hlen : Z.to_nat (len s) = length (list_ascii_of_string s)).
    { rewrite length_bytes_of_string. unfold len. lia. }
    rewrite Hlen.
    assert (Hnes : list_ascii_of_string s ≠ []).
    { intros E. rewrite E in Hlen. simpl in Hlen. lia. }
    destruct (ReadFull_prefix _ _ p1 q Hnes Hq1) as
      [[He Hl]|(p2 & -> & Hq2 & Hr2)].
    + left. split.
      * destruct He as [-> | ->]; auto.
      * rewrite !length_app. lia.
    + right. exists p2. rewrite Hr2, string_of_list_ascii_of_string.
      rewrite <- app_assoc. done.
  - assert (s = "") as ->.
    { destruct s; [done|]. unfold len in Hz. simpl in Hz. lia. }
    right. exists p1. cbn [list_ascii_of_string] in *.
    rewrite app_nil_r. simpl in Hq1. done.
Qed.

Lemma read_string_exact (s : string) (rest : list ascii) :
  string_ok s → read_string (write_string s ++ rest) = inl (s, rest).
Proof.
  intros Hs.
  destruct (read_string_prefix s rest (write_string s ++ rest) [] Hs)
    as [[_ Hl]|(p' & Hp & Hq & Hr)].
  - by rewrite app_nil_r.
  - rewrite length_app in Hl. lia.
  - rewrite app_nil_r in Hq. by subst p'.
Qed.

Lemma ttl_field t : is_int64 t → i64 (be_value 0 (be_bytes 8 (u64 t))) = t.
Proof.
  unfold is_int64, MinInt64, MaxInt64, i64, u64. intros H.
  rewrite be_value_be_bytes_id
    by (change (256 ^ Z.of_nat 8) with (2 ^ 64); apply Z.mod_pos_bound; lia).
  destruct (Z.ltb_spec t 0).
  - assert (E : t mod 2 ^ 64 = t + 2 ^ 64).
    { rewrite <- (Z_mod_plus_full t 1 (2 ^ 64)).
      apply Z.mod_small. lia. }
    rewrite E.
    replace (t + 2 ^ 64 + 2 ^ 63) with (t + 2 ^ 63 + 1 * 2 ^ 64) by lia.
    rewrite Z_mod_plus_full, Z.mod_small; lia.
  - rewrite (Z.mod_small t) by lia. rewrite Z.mod_small; lia.
Qed.

Lemma readFrame_writeFrame (d : Data) (rest : list ascii) :
  frame_ok d → readFrame (writeFrame d ++ rest) = inl (d, rest).
Proof.
  intros (Ha & Hk & Hv & Ht). unfold readFrame, writeFrame.
  rewrite <- !app_assoc.
  rewrite read_string_exact by done.
  rewrite read_string_exact by done.
  rewrite read_string_exact by done.
  pose proof (ReadFull_exact (be_bytes 8 (u64 (Ttl d))) rest) as Hr.
  rewrite length_be_bytes in Hr. rewrite Hr, ttl_field by done.
  by destruct d.
Qed.

Lemma readFrame_truncated (d : Data) (p q : list ascii) :
  frame_ok d → q ≠ [] → p ++ q = writeFrame d →
  readFrame p = inr EOF ∨ readFrame p = inr ErrUnexpectedEOF.
Proof.
  intros (Ha & Hk & Hv & Ht) Hq Heq. unfold readFrame, writeFrame in *.
  destruct (read_string_prefix _ _ p q Ha Heq) as
    [[[-> | ->] _]|(p1 & -> & Hq1 & ->)]; auto.
  destruct (read_string_prefix _ _ p1 q Hk Hq1) as
    [[[-> | ->] _]|(p2 & -> & Hq2 & ->)]; auto.
  destruct (read_string_prefix _ _ p2 q Hv Hq2) as
    [[[-> | ->] _]|(p3 & -> & Hq3 & ->)]; auto.
  pose proof (length_be_bytes 8 (u64 (Ttl d))) as H8.
  assert (Hl : (length p3 < 8)%nat).
  { apply (f_equal length) in Hq3. rewrite length_app, H8 in Hq3.
    destruct q; [done|]. simpl in Hq3. lia. }
  unfold ReadFull. cbn [Nat.eqb].
  destruct (Nat.leb_spec 8 (length p3)); [lia|].
  destruct p3; auto.
Qed.

End FrameFacts.

(** ** Decimal numbers *)

Module StrconvFacts.
Import Strconv FrameFacts.

Lemma i64_range z : is_int64 (i64 z).
Proof.
  unfold is_int64, MinInt64, MaxInt64, i64.
  pose proof (Z.mod_pos_bound (z + 2 ^ 63) (2 ^ 64)). lia.
Qed.

Lemma digit_char_val d : 0 <= d <= 9 → byte_val (digit_char d) = 48 + d.
Proof.
  intros Hd. unfold digit_char. rewrite byte_val_of. apply Z.mod_small. lia.
Qed.

Lemma is_digit_digit_char d : 0 <= d <= 9 → is_digit (digit_char d) = true.
Proof.
  intros Hd. unfold is_digit. rewrite digit_char_val by done.
  apply andb_true_intro. split; apply Z.leb_le; lia.
Qed.

Lemma fmt_digits_first fuel n acc :
  0 <= n → starts_with_digit (fmt_digits (S fuel) n acc).
Proof.
  revert n acc. induction fuel as [|fuel IH]; intros n acc Hn.
  - cbn. destruct (n / 10 =? 0); apply is_digit_digit_char;
      pose proof (Z.mod_pos_bound n 10); lia.
  - cbn [fmt_digits]. destruct (n / 10 =? 0).
    + apply is_digit_digit_char. pose proof (Z.mod_pos_bound n 10). lia.
    + apply IH. apply Z.div_pos; lia.
Qed.

(** Reading back the digits [fmt_digits] wrote in front of [acc]. *)
Lemma parse_fmt_digits fuel :
  ∀ n acc, 0 <= n < 10 ^ Z.of_nat fuel →
    ∃ k, 0 <= k ∧ ∀ a,
      parse_digits a (fmt_digits fuel n acc) = parse_digits (a * 10 ^ k + n) acc.
Proof.
  induction fuel as [|fuel IH]; intros n acc Hn.
  - exists 0. split; [done|]. intros a. cbn in *. f_equal. lia.
  - cbn [fmt_digits].
    assert (Hd : 0 <= n mod 10 <= 9)
      by (pose proof (Z.mod_pos_bound n 10); lia).
    assert (Hstep : ∀ a, parse_digits a (String (digit_char (n mod 10)) acc)
                         = parse_digits (a * 10 + n mod 10) acc).
    { intros a. cbn [parse_digits].
      rewrite is_digit_digit_char, digit_char_val by done. f_equal. lia. }
    destruct (Z.eqb_spec (n / 10) 0) as [Hz|Hnz].
    + exists 1. split; [lia|]. intros a. rewrite Hstep. f_equal.
      pose proof (Z.div_mod n 10). lia.
    + assert (Hq : 0 <= n / 10 < 10 ^ Z.of_nat fuel).
      { split; [apply Z.div_pos; lia|].
        apply Z.div_lt_upper_bound; [lia|].
        rewrite Nat2Z.inj_succ, Z.pow_succ_r in Hn by lia. lia. }
      destruct (IH (n / 10) (String (digit_char (n mod 10)) acc) Hq)
        as (k & Hk & E).
      exists (k + 1). split; [lia|]. intros a. rewrite E, Hstep. f_equal.
      rewrite Z.pow_add_r by lia. pose proof (Z.div_mod n 10). lia.
Qed.

Lemma ParseUint_fmt n :
  0 <= n < 2 ^ 64 → ParseUint (fmt_digits 20 n "") = Some n.
Proof.
  intros Hn. unfold ParseUint.
  pose proof (fmt_digits_first 19 n "" ltac:(lia)) as Hf.
  destruct (parse_fmt_digits 20 n "" ltac:(lia)) as (k & _ & E).
  destruct (fmt_digits 20 n "") as [|c s]; [done|].
  rewrite E. cbn [parse_digits]. rewrite Z.mul_0_l, Z.add_0_l.
  by destruct (Z.ltb_spec n (2 ^ 64)); [|lia].
Qed.

(** A formatted [int64] parses back to itself. *)
Lemma ParseInt_FormatInt z : is_int64 z → ParseInt (FormatInt z) = Some z.
Proof.
  unfold is_int64, MinInt64, MaxInt64. intros Hz. unfold FormatInt.
  destruct (Z.ltb_spec z 0) as [Hneg|Hpos].
  - unfold ParseInt. cbn [Ascii.eqb Bool.eqb]. cbn match.
    rewrite ParseUint_fmt by lia. cbn [negb andb].
    destruct (Z.ltb_spec (2 ^ 63) (- z)); [lia|]. f_equal. lia.
  - pose proof (fmt_digits_first 19 z "" ltac:(lia)) as Hf.
    pose proof (ParseUint_fmt z ltac:(lia)) as Hu.
    destruct (fmt_digits 20 z "") as [|c s] eqn:Es; [done|].
    unfold ParseInt. cbn in Hf.
    assert (Hc : Ascii.eqb c "+" = false ∧ Ascii.eqb c "-" = false).
    { unfold is_digit in Hf. apply andb_prop in Hf as [H1 H2].
      apply Z.leb_le in H1, H2.
      split; apply Ascii.eqb_neq; intros ->; vm_compute in H1; done. }
    destruct Hc as [-> ->]. rewrite Hu. cbn [negb andb].
    by destruct (Z.leb_spec (2 ^ 63) z); [lia|].
Qed.

End StrconvFacts.

(** ** The table invariant and the map it represents *)

Module TableFacts.

(** *** Masks *)

Lemma land_bounds h m : 0 <= m → 0 <= Z.land h m <= m.
Proof.
  intros Hm. split.
  - apply Z.land_nonneg. by right.
  - assert (E : m - Z.land h m = Z.ldiff m (Z.land h m)).
    { apply Z.sub_nocarry_ldiff. apply Z.bits_inj'. intros n Hn.
      rewrite Z.ldiff_spec, Z.land_spec, Z.bits_0.
      destruct (Z.testbit h n), (Z.testbit m n); reflexivity. }
    assert (0 <= Z.ldiff m (Z.land h m)) by (apply Z.ldiff_nonneg; by left).
    lia.
Qed.

Lemma u64_pred_bounds n : 1 <= n → 0 <= u64 (n - 1) <= n - 1.
Proof.
  intros Hn. unfold u64.
  pose proof (Z.mod_pos_bound (n - 1) (2 ^ 64) ltac:(lia)).
  pose proof (Z.mod_le (n - 1) (2 ^ 64) ltac:(lia) ltac:(lia)). lia.
Qed.

Lemma mask_in_range h n :
  1 <= n → (Z.to_nat (Z.land h (u64 (n - 1))) < Z.to_nat n)%nat.
Proof.
  intros Hn. pose proof (u64_pred_bounds n Hn).
  pose proof (land_bounds h (u64 (n - 1)) ltac:(lia)). lia.
Qed.

(** *** Chains *)

Lemma find_item_Some key items pos item :
  find_item key items = Some (pos, item) →
  ∃ b1 b2, items = b1 ++ item :: b2 ∧ length b1 = pos
           ∧ Key item = key ∧ key ∉ Key <$> b1.
Proof.
  revert pos. induction items as [|x items IH]; intros pos; simpl; [done|].
  destruct (String.eqb_spec (Key x) key) as [Hk|Hk].
  - intros [= <- <-]. exists [], items. repeat split; auto.
    simpl. apply not_elem_of_nil.
  - destruct (find_item key items) as [[i y]|] eqn:Hf; [|done].
    intros [= <- <-].
    destruct (IH i eq_refl) as (b1 & b2 & -> & <- & Hy & Hn).
    exists (x :: b1), b2. repeat split; auto.
    rewrite fmap_cons, not_elem_of_cons. split; auto.
Qed.

Lemma find_item_None key items :
  find_item key items = None ↔ key ∉ Key <$> items.
Proof.
  induction items as [|x items IH]; simpl.
  - split; [intros _; apply not_elem_of_nil|done].
  - destruct (String.eqb_spec (Key x) key) as [Hk|Hk].
    + split; [done|]. intros Hn. exfalso. apply Hn. rewrite Hk. left.
    + rewrite not_elem_of_cons.
      destruct (find_item key items) as [[i y]|].
      * split; [done|]. intros [_ Hn]. by apply IH in Hn.
      * split; [|done]. intros _. split; [auto|]. by apply IH.
Qed.

Lemma insert_middle {A} (b1 b2 : list A) (x y : A) :
  <[length b1 := y]> (b1 ++ x :: b2) = b1 ++ y :: b2.
Proof.
  rewrite insert_app_r_alt by lia. by rewrite Nat.sub_diag.
Qed.

Lemma delete_middle {A} (b1 b2 : list A) (x : A) :
  delete (length b1) (b1 ++ x :: b2) = b1 ++ b2.
Proof.
  induction b1; simpl; [done|]. by f_equal.
Qed.

(** *** One basket at a time *)

Lemma concat_lookup (t : list (list Entry)) i b :
  t !! i = Some b → concat t ≡ₚ b ++ others t i.
Proof.
  intros Hi. unfold others.
  rewrite <- (take_drop_middle t i b Hi) at 1.
  rewrite concat_app, concat_cons.
  rewrite (Permutation_app_comm (concat (take i t))).
  rewrite <- app_assoc. apply Permutation_app_head.
  apply Permutation_app_comm.
Qed.

Lemma concat_insert (t : list (list Entry)) i b b' :
  t !! i = Some b → concat (<[i := b']> t) ≡ₚ b' ++ others t i.
Proof.
  intros Hi. unfold others.
  rewrite insert_take_drop by (eapply lookup_lt_Some; eauto).
  rewrite concat_app, concat_cons.
  rewrite (Permutation_app_comm (concat (take i t))).
  rewrite <- app_assoc. apply Permutation_app_head.
  apply Permutation_app_comm.
Qed.

(** *** The expiration manager never panics on a well-formed state *)

Lemma shard_index_lt t e : ttl_ok t → (shard_index t e < length (List t))%nat.
Proof.
  intros [H1 H2]. rewrite H2. unfold shard_index. by apply mask_in_range.
Qed.

Lemma addEntry_ok t now e :
  ttl_ok t → ∃ t', addEntry t now e = Some t' ∧ ttl_ok t'.
Proof.
  intros Hok. unfold addEntry.
  destruct (Ttl e <=? 0); [eauto|].
  destruct (lookup_lt_is_Some_2 _ _ (shard_index_lt t e Hok)) as [em ->].
  simpl. destruct (i64 (now + Ttl e) <=? lastDeleted t); [eauto|].
  eexists. split; [done|].
  destruct Hok as [H1 H2]. split; simpl; [done|].
  by rewrite length_insert.
Qed.

Lemma delEntry_ok t e ttl :
  ttl_ok t → ∃ t', delEntry t e ttl = Some t' ∧ ttl_ok t'.
Proof.
  intros Hok. unfold delEntry.
  destruct (lookup_lt_is_Some_2 _ _ (shard_index_lt t e Hok)) as [em ->].
  simpl. destruct (em !! ttl); [|eauto].
  eexists. split; [done|].
  destruct Hok as [H1 H2]. split; simpl; [done|].
  by rewrite length_insert.
Qed.

Lemma retime_ok t now item ttl :
  ttl_ok t →
  ∃ t', retime t now item ttl = Some (t', set_Ttl item ttl) ∧ ttl_ok t'.
Proof.
  intros Hok. unfold retime.
  assert (∃ t1, (if Ttl item =? 0 then Some t
                 else delEntry t item (Ttl item)) = Some t1 ∧ ttl_ok t1)
    as (t1 & -> & Hok1).
  { destruct (Ttl item =? 0); [eauto|]. by apply delEntry_ok. }
  simpl. destruct (addEntry_ok t1 now (set_Ttl item ttl) Hok1) as (t2 & -> & ?).
  simpl. eauto.
Qed.

(** *** Locating a key *)

Lemma elem_of_concat_lookup (t : list (list Entry)) e :
  e ∈ concat t ↔ ∃ j b, t !! j = Some b ∧ e ∈ b.
Proof.
  rewrite list_elem_of_In, in_concat. split.
  - intros (b & Hb & He). apply list_elem_of_In, list_elem_of_lookup in Hb.
    destruct Hb as [j Hj]. exists j, b. by rewrite list_elem_of_In.
  - intros (j & b & Hj & He). exists b. split.
    + apply list_elem_of_In, list_elem_of_lookup. eauto.
    + by apply list_elem_of_In.
Qed.

Lemma elem_of_others (t : list (list Entry)) i e :
  e ∈ others t i → ∃ j b, j ≠ i ∧ t !! j = Some b ∧ e ∈ b.
Proof.
  unfold others. rewrite elem_of_app, !elem_of_concat_lookup.
  intros [(j & b & Hj & He)|(j & b & Hj & He)].
  - apply lookup_take_Some in Hj as [Hj Hlt]. exists j, b.
    split; [lia|done].
  - rewrite lookup_drop in Hj. exists (S i + j)%nat, b. split; [lia|done].
Qed.

Lemma key_bucket hm key :
  wf hm →
  ∃ b, table hm !! index_of hm key = Some b
       ∧ ∀ e, e ∈ others (table hm) (index_of hm key) → Key e ≠ key.
Proof.
  intros Hwf. unfold index_of, getIndex. cbn [fst].
  assert (Hlt : (Z.to_nat (Z.land (XXHash64.HashString (seed hm) key)
                                  (u64 (basketNum hm - 1)))
                 < length (table hm))%nat).
  { pose proof (mask_in_range (XXHash64.HashString (seed hm) key)
                  (basketNum hm) (wf_pos _ Hwf)) as H.
    rewrite (wf_len _ Hwf) in H at 2. lia. }
  destruct (lookup_lt_is_Some_2 _ _ Hlt) as [b Hb]. exists b.
  split; [done|]. intros e He Hk.
  apply elem_of_others in He as (j & bj & Hne & Hj & Hin).
  pose proof (wf_place _ Hwf j bj Hj) as Hpl.
  rewrite Forall_forall in Hpl. destruct (Hpl e Hin) as [Hh Hi].
  rewrite Hh, Hk in Hi. congruence.
Qed.

(** *** Replacing one basket *)

Lemma entries_bucket hm i b :
  table hm !! i = Some b → entries hm ≡ₚ b ++ others (table hm) i.
Proof. apply concat_lookup. Qed.

Lemma wf_log_probe hm d : wf hm → wf (probe (log_record hm d)).
Proof.
  intros Hwf. unfold probe, log_record.
  destruct (reset hm); [destruct (_ <? _)%nat|destruct (_ <? _)%nat];
    split; cbn; apply Hwf.
Qed.

Lemma wf_log hm d : wf hm → wf (log_record hm d).
Proof.
  intros Hwf. unfold log_record. destruct (reset hm); [done|].
  split; cbn; apply Hwf.
Qed.

Lemma wf_bucket_update hm hm' i b b' :
  wf hm → table hm !! i = Some b →
  table hm' = <[i := b']> (table hm) →
  seed hm' = seed hm → basketNum hm' = basketNum hm →
  Forall (placed (seed hm) (basketNum hm) i) b' →
  NoDup (Key <$> b' ++ others (table hm) i) →
  Entries hm' = u64 (Z.of_nat (length (b' ++ others (table hm) i))) →
  ttl_ok (TTlManager hm') →
  wf hm'.
Proof.
  intros Hwf Hi Ht Hs Hn Hpl Hnd He Hok. split.
  - rewrite Ht, Hn, length_insert. apply Hwf.
  - rewrite Hn. apply Hwf.
  - rewrite Ht, Hs, Hn. intros j bj Hj. apply list_lookup_insert_Some in Hj.
    destruct Hj as [(-> & <- & _)|[_ Hj]]; [done|].
    by apply (wf_place _ Hwf).
  - unfold entries. rewrite Ht. by rewrite (concat_insert _ _ b b' Hi).
  - unfold entries. rewrite He, Ht. f_equal. f_equal.
    apply Permutation_length. by rewrite (concat_insert _ _ b b' Hi).
  - done.
Qed.

Lemma kv_bucket_update hm hm' i b b' :
  table hm !! i = Some b → table hm' = <[i := b']> (table hm) →
  entries hm ≡ₚ b ++ others (table hm) i
  ∧ entries hm' ≡ₚ b' ++ others (table hm) i.
Proof.
  intros Hi Ht. unfold entries. rewrite Ht. split.
  - by apply concat_lookup.
  - by apply (concat_insert _ _ b).
Qed.

Lemma ltm_perm (l l' : list Entry) :
  NoDup (Key <$> l) → l ≡ₚ l' → ltm l = ltm l'.
Proof.
  intros Hnd Hp. apply list_to_map_proper.
  - by rewrite <- list_fmap_compose.
  - by apply fmap_Permutation.
Qed.

Lemma ltm_cons e l : ltm (e :: l) = <[Key e := e]> (ltm l).
Proof. done. Qed.

Lemma ltm_fresh (l : list Entry) k : k ∉ Key <$> l → ltm l !! k = None.
Proof.
  intros Hn. apply not_elem_of_list_to_map_1. by rewrite <- list_fmap_compose.
Qed.

(** An entry is replaced by one with the same key. *)
Lemma kv_replace (l l' rest : list Entry) e e' :
  NoDup (Key <$> l) → l ≡ₚ e :: rest → l' ≡ₚ e' :: rest → Key e' = Key e →
  NoDup (Key <$> l') ∧ ltm l' = <[Key e := e']> (ltm l)
  ∧ length l' = length l.
Proof.
  intros Hnd Hp Hp' Hk.
  assert (Hnd' : NoDup (Key <$> l')).
  { rewrite Hp', fmap_cons, Hk. by rewrite Hp, fmap_cons in Hnd. }
  repeat split; [done| |by rewrite Hp, Hp'].
  rewrite (ltm_perm _ _ Hnd' Hp'), (ltm_perm _ _ Hnd Hp), !ltm_cons, Hk.
  by rewrite insert_insert_eq.
Qed.

(** An entry with a fresh key is added. *)
Lemma kv_add (l l' : list Entry) e :
  NoDup (Key <$> l) → Key e ∉ Key <$> l → l' ≡ₚ e :: l →
  NoDup (Key <$> l') ∧ ltm l' = <[Key e := e]> (ltm l)
  ∧ length l' = S (length l).
Proof.
  intros Hnd Hn Hp.
  assert (Hnd' : NoDup (Key <$> l')).
  { rewrite Hp, fmap_cons. by apply NoDup_cons. }
  repeat split; [done| |by rewrite Hp].
  by rewrite (ltm_perm _ _ Hnd' Hp), ltm_cons.
Qed.

(** An entry is removed. *)
Lemma kv_remove (l l' : list Entry) e :
  NoDup (Key <$> l) → l ≡ₚ e :: l' →
  NoDup (Key <$> l') ∧ ltm l' = delete (Key e) (ltm l)
  ∧ length l = S (length l').
Proof.
  intros Hnd Hp.
  assert (Hnd2 : NoDup (Key e :: (Key <$> l'))).
  { by rewrite Hp, fmap_cons in Hnd. }
  apply NoDup_cons in Hnd2 as [Hn Hnd'].
  repeat split; [done| |by rewrite Hp].
  rewrite (ltm_perm _ _ Hnd Hp), ltm_cons.
  rewrite delete_insert_eq. symmetry. apply delete_id. by apply ltm_fresh.
Qed.

Lemma middle_perm (b1 b2 rest : list Entry) x :
  (b1 ++ x :: b2) ++ rest ≡ₚ x :: (b1 ++ b2) ++ rest.
Proof.
  rewrite <- !app_assoc. simpl. symmetry. apply Permutation_middle.
Qed.

(** What [Get] finds is what the map holds. *)
Lemma em_lookup hm key b :
  wf hm → table hm !! index_of hm key = Some b →
  em hm !! key = snd <$> find_item key b.
Proof.
  intros Hwf Hb. destruct (key_bucket hm key Hwf) as (b' & Hb' & Hoth).
  rewrite Hb in Hb'. injection Hb' as <-.
  pose proof (entries_bucket hm _ b Hb) as Hp.
  pose proof (wf_nodup _ Hwf) as Hnd. unfold em.
  destruct (find_item key b) as [[pos item]|] eqn:Hf; simpl.
  - apply find_item_Some in Hf as (b1 & b2 & -> & _ & Hk & _).
    rewrite middle_perm in Hp.
    rewrite (ltm_perm _ _ Hnd Hp), ltm_cons, Hk. apply lookup_insert_eq.
  - apply find_item_None in Hf. apply ltm_fresh.
    rewrite Hp, fmap_app, elem_of_app. intros [H|H]; [done|].
    apply list_elem_of_fmap in H as (e & He & Hin). by apply (Hoth e).
Qed.

Lemma kv_lookup hm key b :
  wf hm → table hm !! index_of hm key = Some b →
  kv hm !! key = (λ r, Value r.2) <$> find_item key b.
Proof.
  intros Hwf Hb. unfold kv. rewrite lookup_fmap, (em_lookup hm key b Hwf Hb).
  by destruct (find_item key b) as [[pos item]|].
Qed.


Lemma wf_size hm : wf hm → Entries hm = u64 (Z.of_nat (size (kv hm))).
Proof.
  intros Hwf. rewrite (wf_count _ Hwf). unfold kv, em.
  rewrite map_size_fmap, map_size_list_to_map.
  - by rewrite length_fmap.
  - rewrite <- list_fmap_compose. apply (wf_nodup _ Hwf).
Qed.

Lemma u64_succ n : u64 (u64 (Z.of_nat n) + 1) = u64 (Z.of_nat (S n)).
Proof.
  unfold u64. rewrite Zplus_mod_idemp_l. f_equal. lia.
Qed.

Lemma u64_pred n :
  u64 (u64 (Z.of_nat (S n)) + (2 ^ 64 - 1)) = u64 (Z.of_nat n).
Proof.
  unfold u64. rewrite Zplus_mod_idemp_l.
  replace (Z.of_nat (S n) + (2 ^ 64 - 1)) with (Z.of_nat n + 1 * 2 ^ 64) by lia.
  apply Z_mod_plus_full.
Qed.

(** *** The operations on the represented map *)

Lemma placed_update seed_ n i (b1 b2 : list Entry) item item' :
  Forall (placed seed_ n i) (b1 ++ item :: b2) →
  Hash item' = Hash item → Key item' = Key item →
  Forall (placed seed_ n i) (b1 ++ item' :: b2).
Proof.
  rewrite !Forall_app, !Forall_cons. intros (H1 & [Hh Hi] & H2) Eh Ek.
  repeat split; auto; unfold placed in *; by rewrite ?Eh, ?Ek.
Qed.

(** The state [Set] leaves when the key is in its basket. *)
Lemma update_spec hm hm' key b b1 b2 item item' :
  wf hm → table hm !! index_of hm key = Some b →
  b = b1 ++ item :: b2 → Key item = key →
  Hash item' = Hash item → Key item' = key →
  table hm' = <[index_of hm key := b1 ++ item' :: b2]> (table hm) →
  seed hm' = seed hm → basketNum hm' = basketNum hm →
  Entries hm' = Entries hm → ttl_ok (TTlManager hm') →
  wf hm' ∧ em hm' = <[key := item']> (em hm).
Proof.
  intros Hwf Hb -> Hk Hh' Hk' Ht Hs Hn He Hok.
  destruct (kv_bucket_update hm hm' _ _ _ Hb Ht) as [Hp Hp'].
  rewrite middle_perm in Hp, Hp'.
  destruct (kv_replace _ _ _ item item' (wf_nodup _ Hwf) Hp Hp')
    as (Hnd' & Hkv & Hlen); [congruence|].
  split.
  - eapply wf_bucket_update; eauto.
    + eapply placed_update; [by apply (wf_place _ Hwf _ _ Hb)|done|congruence].
    + rewrite <- (middle_perm b1 b2 _ item') in Hp'. by rewrite <- Hp'.
    + rewrite He, (wf_count _ Hwf). do 2 f_equal.
      rewrite <- Hlen. apply Permutation_length.
      rewrite Hp'. symmetry. apply middle_perm.
  - unfold em. rewrite Hkv. by rewrite Hk.
Qed.

(** The state [Set] leaves when the key is new. *)
Lemma insert_spec hm hm' key b e :
  wf hm → table hm !! index_of hm key = Some b →
  find_item key b = None →
  Key e = key → Hash e = XXHash64.HashString (seed hm) key →
  table hm' = <[index_of hm key := e :: b]> (table hm) →
  seed hm' = seed hm → basketNum hm' = basketNum hm →
  Entries hm' = u64 (Entries hm + 1) → ttl_ok (TTlManager hm') →
  wf hm' ∧ em hm' = <[key := e]> (em hm).
Proof.
  intros Hwf Hb Hf Hk Hh Ht Hs Hn He Hok.
  destruct (kv_bucket_update hm hm' _ _ _ Hb Ht) as [Hp Hp'].
  destruct (key_bucket hm key Hwf) as (b' & Hb' & Hoth).
  rewrite Hb in Hb'. injection Hb' as <-.
  assert (Hfresh : Key e ∉ Key <$> entries hm).
  { rewrite Hk, Hp, fmap_app, elem_of_app. intros [H|H].
    - by apply find_item_None in Hf.
    - apply list_elem_of_fmap in H as (x & Hx & Hin). by apply (Hoth x). }
  assert (Hp2 : entries hm' ≡ₚ e :: entries hm).
  { rewrite Hp', Hp. done. }
  destruct (kv_add _ _ e (wf_nodup _ Hwf) Hfresh Hp2) as (Hnd' & Hkv & Hlen).
  split.
  - eapply wf_bucket_update; eauto.
    + apply Forall_cons. split; [|by apply (wf_place _ Hwf _ _ Hb)].
      split; [by rewrite Hk|]. rewrite Hh. done.
    + by rewrite <- Hp'.
    + rewrite He, (wf_count _ Hwf), u64_succ. do 2 f_equal.
      rewrite <- Hlen. by apply Permutation_length.
  - unfold em. rewrite Hkv. by rewrite Hk.
Qed.

(** The state [Del] leaves when the key is in its basket. *)
Lemma remove_spec hm hm' key b b1 b2 item :
  wf hm → table hm !! index_of hm key = Some b →
  b = b1 ++ item :: b2 → Key item = key →
  table hm' = <[index_of hm key := b1 ++ b2]> (table hm) →
  seed hm' = seed hm → basketNum hm' = basketNum hm →
  Entries hm' = u64 (Entries hm + (2 ^ 64 - 1)) → ttl_ok (TTlManager hm') →
  wf hm' ∧ em hm' = delete key (em hm).
Proof.
  intros Hwf Hb -> Hk Ht Hs Hn He Hok.
  destruct (kv_bucket_update hm hm' _ _ _ Hb Ht) as [Hp Hp'].
  rewrite middle_perm in Hp. rewrite <- Hp' in Hp.
  destruct (kv_remove _ _ item (wf_nodup _ Hwf) Hp) as (Hnd' & Hkv & Hlen).
  split.
  - eapply wf_bucket_update; eauto.
    + pose proof (wf_place _ Hwf _ _ Hb) as Hpl.
      rewrite Forall_app, Forall_cons in Hpl. rewrite Forall_app. tauto.
    + by rewrite <- Hp'.
    + rewrite He, (wf_count _ Hwf), Hlen, u64_pred. do 2 f_equal.
      by apply Permutation_length.
  - unfold em. rewrite Hkv. by rewrite Hk.
Qed.

Lemma probe_fields hm :
  table (probe hm) = table hm ∧ seed (probe hm) = seed hm
  ∧ reset (probe hm) = reset hm ∧ Aof (probe hm) = Aof hm.
Proof. unfold probe. case (Nat.ltb _ _); repeat split. Qed.

Lemma log_record_fields hm d :
  table (log_record hm d) = table hm ∧ seed (log_record hm d) = seed hm
  ∧ reset (log_record hm d) = reset hm
  ∧ TTlManager (log_record hm d) = TTlManager hm.
Proof.
  unfold log_record. destruct (reset hm) eqn:E; repeat split; auto.
Qed.

Lemma em_log hm d : em (log_record hm d) = em hm.
Proof.
  unfold em, entries. by destruct (log_record_fields hm d) as (-> & _).
Qed.

Lemma kv_insert (m : gmap string Entry) key e :
  Value <$> <[key := e]> m = <[key := Value e]> (Value <$> m).
Proof. apply fmap_insert. Qed.

Lemma Set_entry hm now ttl key value :
  wf hm →
  ∃ hm' e, Set_ hm now ttl key value = Some (hm', true) ∧ wf hm'
         ∧ em hm' = <[key := e]> (em hm)
         ∧ Value e = value ∧ Ttl e = ttl
         ∧ seed hm' = seed hm ∧ reset hm' = reset hm
         ∧ Aof hm' = Aof (log_record hm (AOF.mkData "set" key value ttl))
         ∧ length (table hm') = length (table hm).
Proof.
  intros Hwf0. unfold Set_.
  set (d := AOF.mkData "set" key value ttl).
  pose proof (wf_log_probe hm d Hwf0) as Hwf.
  destruct (probe_fields (log_record hm d)) as (Htab & Hs & Hr & Ha).
  destruct (log_record_fields hm d) as (Htab0 & Hs0 & Hr0 & _).
  rewrite Htab0 in Htab. rewrite Hs0 in Hs. rewrite Hr0 in Hr.
  assert (Hkv : em (probe (log_record hm d)) = em hm).
  { unfold em, entries. by rewrite Htab. }
  set (hm0 := probe (log_record hm d)) in *.
  destruct (key_bucket hm0 key Hwf) as (b & Hb & _).
  unfold index_of in Hb. unfold getIndex in *. cbn [fst] in Hb.
  rewrite Hb. cbn [mbind option_bind].
  destruct (find_item key b) as [[pos item]|] eqn:Hf.
  - pose proof Hf as Hf'.
    apply find_item_Some in Hf' as (b1 & b2 & Eb & <- & Hk & _).
    destruct (retime_ok (TTlManager hm0) now (set_Value item value) ttl
                (wf_ttl _ Hwf)) as (t' & -> & Hok).
    cbn [mbind option_bind]. do 2 eexists. split; [reflexivity|].
    match goal with |- wf ?h ∧ _ =>
      destruct (update_spec hm0 h key b b1 b2 item
                  (set_Ttl (set_Value item value) ttl)) as [Hwf' Hkv']
    end; try done.
    { cbn. by rewrite Eb, insert_middle. }
    split; [exact Hwf'|]. split; [by rewrite Hkv', Hkv|].
    split_and!; try done.
    cbn. rewrite length_insert. by rewrite Htab.
  - destruct (addEntry_ok (TTlManager hm0) now
                (NewEntry ttl key value
                   (XXHash64.HashString (seed hm0) key)) (wf_ttl _ Hwf))
      as (t' & -> & Hok).
    cbn [mbind option_bind]. do 2 eexists. split; [reflexivity|].
    match goal with |- wf ?h ∧ _ =>
      destruct (insert_spec hm0 h key b
                  (NewEntry ttl key value
                     (XXHash64.HashString (seed hm0) key)))
        as [Hwf' Hkv']
    end; try done.
    split; [exact Hwf'|]. split; [by rewrite Hkv', Hkv|].
    split_and!; try done.
    cbn. rewrite length_insert. by rewrite Htab.
Qed.

Lemma Set_spec hm now ttl key value :
  wf hm →
  ∃ hm', Set_ hm now ttl key value = Some (hm', true) ∧ wf hm'
         ∧ kv hm' = <[key := value]> (kv hm)
         ∧ seed hm' = seed hm ∧ reset hm' = reset hm
         ∧ Aof hm' = Aof (log_record hm (AOF.mkData "set" key value ttl))
         ∧ length (table hm') = length (table hm).
Proof.
  intros Hwf. destruct (Set_entry hm now ttl key value Hwf)
    as (hm' & e & E & Hwf' & Hem & Hv & _ & Hrest).
  exists hm'. split; [done|]. split; [done|]. split; [|done].
  unfold kv. by rewrite Hem, kv_insert, Hv.
Qed.

Lemma Get_spec hm key :
  wf hm →
  Get hm key = Some (match kv hm !! key with
                     | Some v => (true, v)
                     | None => (false, "")
                     end).
Proof.
  intros Hwf. unfold Get.
  destruct (key_bucket hm key Hwf) as (b & Hb & _).
  rewrite (kv_lookup hm key b Hwf Hb).
  unfold index_of in Hb. unfold getIndex in *. cbn [fst] in Hb.
  rewrite Hb. cbn [mbind option_bind].
  by destruct (find_item key b) as [[pos item]|].
Qed.

Lemma Incr_entry hm now ttl key amount :
  wf hm →
  ∃ hm' ok, Incr hm now ttl key amount = Some (hm', ok) ∧ wf hm'
            ∧ incr_effect (em hm) (em hm') ttl key amount ok
            ∧ seed hm' = seed hm ∧ reset hm' = reset hm
            ∧ Aof hm' = Aof (log_record hm (AOF.mkData "incr" key amount 0))
            ∧ length (table hm') = length (table hm).
Proof.
  intros Hwf0. unfold Incr.
  set (d := AOF.mkData "incr" key amount 0).
  pose proof (wf_log hm d Hwf0) as Hwf.
  destruct (log_record_fields hm d) as (Htab & Hs & Hr & _).
  pose proof (em_log hm d) as Hkv.
  set (hm0 := log_record hm d) in *.
  destruct (key_bucket hm0 key Hwf) as (b & Hb & _).
  pose proof (em_lookup hm0 key b Hwf Hb) as Hlk. rewrite Hkv in Hlk.
  unfold index_of in Hb. unfold getIndex in *. cbn [fst] in Hb.
  rewrite Hb. cbn [mbind option_bind]. unfold incr_effect. rewrite Hlk.
  destruct (find_item key b) as [[pos item]|] eqn:Hf; cbn [fmap option_fmap
    option_map snd].
  - pose proof Hf as Hf'.
    apply find_item_Some in Hf' as (b1 & b2 & Eb & <- & Hk & _).
    unfold checkIsNumber.
    destruct (Strconv.ParseInt (Value item)) as [val|]; cbn [negb].
    2:{ exists hm0, false. rewrite Hkv.
        destruct (Strconv.ParseInt amount); split_and!; try done;
          by rewrite Htab. }
    destruct (Strconv.ParseInt amount) as [add|]; cbn [negb].
    2:{ exists hm0, false. rewrite Hkv. split_and!; try done.
        by rewrite Htab. }
    set (item1 := set_Value item (Strconv.FormatInt (i64 (val + add)))).
    destruct (retime_ok (TTlManager hm0) now item1 ttl (wf_ttl _ Hwf))
      as (t' & -> & Hok).
    cbn [mbind option_bind]. do 2 eexists. split; [reflexivity|].
    match goal with |- wf ?h ∧ _ =>
      destruct (update_spec hm0 h key b b1 b2 item (set_Ttl item1 ttl))
        as [Hwf' Hkv']
    end; try done.
    { cbn. by rewrite Eb, insert_middle. }
    split; [exact Hwf'|]. split.
    { split; [done|]. exists (set_Ttl item1 ttl). by rewrite Hkv', Hkv. }
    split_and!; try done.
    cbn. rewrite length_insert. by rewrite Htab.
  - destruct (addEntry_ok (TTlManager hm0) now
                (NewEntry ttl key amount
                   (XXHash64.HashString (seed hm0) key)) (wf_ttl _ Hwf))
      as (t' & -> & Hok).
    cbn [mbind option_bind]. do 2 eexists. split; [reflexivity|].
    match goal with |- wf ?h ∧ _ =>
      destruct (insert_spec hm0 h key b
                  (NewEntry ttl key amount
                     (XXHash64.HashString (seed hm0) key)))
        as [Hwf' Hkv']
    end; try done.
    split; [exact Hwf'|]. split.
    { split; [done|]. eexists. by rewrite Hkv', Hkv. }
    split_and!; try done.
    cbn. rewrite length_insert. by rewrite Htab.
Qed.

Lemma Incr_spec hm now ttl key amount :
  wf hm →
  ∃ hm' ok, Incr hm now ttl key amount = Some (hm', ok) ∧ wf hm'
            ∧ (kv hm', ok) = incr_kv (kv hm) key amount
            ∧ seed hm' = seed hm ∧ reset hm' = reset hm
            ∧ Aof hm' = Aof (log_record hm (AOF.mkData "incr" key amount 0))
            ∧ length (table hm') = length (table hm).
Proof.
  intros Hwf. destruct (Incr_entry hm now ttl key amount Hwf)
    as (hm' & ok & E & Hwf' & Heff & Hrest).
  exists hm', ok. split; [done|]. split; [done|]. split; [|done].
  unfold incr_effect in Heff. unfold incr_kv, kv. rewrite lookup_fmap.
  destruct (em hm !! key) as [cur|]; cbn [fmap option_fmap option_map].
  - destruct (Strconv.ParseInt (Value cur)) as [v|].
    + destruct (Strconv.ParseInt amount) as [a|].
      * destruct Heff as (-> & e & -> & <- & _). by rewrite kv_insert.
      * by destruct Heff as (-> & ->).
    + by destruct Heff as (-> & ->).
  - destruct Heff as (-> & e & -> & <- & _). by rewrite kv_insert.
Qed.

Lemma Del_entry hm key :
  wf hm →
  ∃ hm' ok, Del hm key = Some (hm', ok) ∧ wf hm'
            ∧ em hm' = delete key (em hm)
            ∧ ok = bool_decide (is_Some (em hm !! key))
            ∧ seed hm' = seed hm ∧ reset hm' = reset hm
            ∧ Aof hm' = Aof (log_record hm (AOF.mkData "del" key "" 0))
            ∧ length (table hm') = length (table hm).
Proof.
  intros Hwf0. unfold Del.
  set (d := AOF.mkData "del" key "" 0).
  pose proof (wf_log hm d Hwf0) as Hwf.
  destruct (log_record_fields hm d) as (Htab & Hs & Hr & _).
  pose proof (em_log hm d) as Hkv.
  set (hm0 := log_record hm d) in *.
  destruct (key_bucket hm0 key Hwf) as (b & Hb & _).
  pose proof (em_lookup hm0 key b Hwf Hb) as Hlk. rewrite Hkv in Hlk.
  unfold index_of in Hb. unfold getIndex in *. cbn [fst] in Hb.
  rewrite Hb. cbn [mbind option_bind]. rewrite Hlk.
  destruct (find_item key b) as [[pos item]|] eqn:Hf; cbn [fmap option_fmap
    option_map snd].
  - pose proof Hf as Hf'.
    apply find_item_Some in Hf' as (b1 & b2 & Eb & <- & Hk & _).
    destruct (delEntry_ok (TTlManager hm0) item (Ttl item) (wf_ttl _ Hwf))
      as (t' & -> & Hok).
    cbn [mbind option_bind]. do 2 eexists. split; [reflexivity|].
    match goal with |- wf ?h ∧ _ =>
      destruct (remove_spec hm0 h key b b1 b2 item) as [Hwf' Hkv']
    end; try done.
    { cbn. by rewrite Eb, delete_middle. }
    split; [exact Hwf'|]. split; [by rewrite Hkv', Hkv|].
    split; [done|]. split_and!; try done.
    cbn. rewrite length_insert. by rewrite Htab.
  - exists hm0, false. split; [done|]. split; [done|].
    split; [by rewrite Hkv, delete_id|].
    split.
    { symmetry. apply bool_decide_eq_false. by intros [? ?]. }
    split_and!; try done. by rewrite Htab.
Qed.

Lemma Del_spec hm key :
  wf hm →
  ∃ hm' ok, Del hm key = Some (hm', ok) ∧ wf hm'
            ∧ kv hm' = delete key (kv hm)
            ∧ ok = bool_decide (is_Some (kv hm !! key))
            ∧ seed hm' = seed hm ∧ reset hm' = reset hm
            ∧ Aof hm' = Aof (log_record hm (AOF.mkData "del" key "" 0))
            ∧ length (table hm') = length (table hm).
Proof.
  intros Hwf. destruct (Del_entry hm key Hwf)
    as (hm' & ok & E & Hwf' & Hem & Hok & Hrest).
  exists hm', ok. split; [done|]. split; [done|]. split; [|split; [|done]].
  - unfold kv. by rewrite Hem, fmap_delete.
  - rewrite Hok. unfold kv. rewrite lookup_fmap.
    apply bool_decide_ext. by rewrite fmap_is_Some.
Qed.

(** *** Growing the table *)

Lemma relink_spec newSize (nt : list (list Entry)) item :
  1 <= newSize → length nt = Z.to_nat newSize →
  ∃ items, let i := Z.to_nat (Z.land (Hash item) (u64 (newSize - 1))) in
    nt !! i = Some items
    ∧ relink newSize nt item = Some (<[i := item :: items]> nt).
Proof.
  intros Hn Hlen. unfold relink.
  pose proof (mask_in_range (Hash item) newSize Hn) as Hlt.
  rewrite <- Hlen in Hlt.
  destruct (lookup_lt_is_Some_2 _ _ Hlt) as [items Hi].
  exists items. cbn zeta. by rewrite Hi.
Qed.

Lemma relink_all_spec seed_ newSize (items : list Entry) :
  1 <= newSize →
  Forall (λ e, Hash e = XXHash64.HashString seed_ (Key e)) items →
  ∀ nt : list (list Entry),
    length nt = Z.to_nat newSize →
    (∀ i b, nt !! i = Some b → Forall (placed seed_ newSize i) b) →
    ∃ nt', relink_all newSize nt items = Some nt'
           ∧ length nt' = length nt
           ∧ concat nt' ≡ₚ items ++ concat nt
           ∧ ∀ i b, nt' !! i = Some b → Forall (placed seed_ newSize i) b.
Proof.
  intros Hn. induction 1 as [|item items Hh _ IH]; intros nt Hlen Hpl.
  - exists nt. by repeat split.
  - cbn [relink_all].
    destruct (relink_spec newSize nt item Hn Hlen) as (old & Hi & ->).
    cbn [mbind option_bind].
    set (i := Z.to_nat (Z.land (Hash item) (u64 (newSize - 1)))) in *.
    destruct (IH (<[i := item :: old]> nt)) as (nt' & -> & Hl & Hp & Hpl').
    + by rewrite length_insert.
    + intros j b Hj. apply list_lookup_insert_Some in Hj.
      destruct Hj as [(Eji & <- & _)|[_ Hj]]; [|by apply Hpl].
      rewrite <- Eji. apply Forall_cons. split; [by split|by apply Hpl].
    + exists nt'. split; [done|]. split; [by rewrite Hl, length_insert|].
      split; [|done].
      rewrite Hp, (concat_insert _ _ old _ Hi), (concat_lookup _ _ _ Hi).
      cbn [app]. symmetry. apply Permutation_middle.
Qed.

Lemma concat_replicate_nil {A} n : concat (replicate n ([] : list A)) = [].
Proof. induction n; simpl; auto. Qed.

Lemma checkNewBasket_spec hm :
  wf hm →
  ∃ hm', checkNewBasket hm = Some hm' ∧ wf hm'
         ∧ entries hm' ≡ₚ entries hm
         ∧ basketNum hm' = 2 * basketNum hm
         ∧ length (table hm') = (2 * length (table hm))%nat
         ∧ hm' = set_table hm (table hm') (basketNum hm').
Proof.
  intros Hwf. unfold checkNewBasket.
  pose proof (wf_len _ Hwf) as Hlen. pose proof (wf_pos _ Hwf) as Hpos.
  set (newSize := Z.of_nat (length (table hm)) * 2).
  assert (Hall : Forall (λ e, Hash e = XXHash64.HashString (seed hm) (Key e))
                   (concat (table hm))).
  { apply Forall_forall. intros e He.
    apply elem_of_concat_lookup in He as (j & b & Hj & He).
    pose proof (wf_place _ Hwf j b Hj) as Hpl.
    rewrite Forall_forall in Hpl. by destruct (Hpl e He). }
  destruct (relink_all_spec (seed hm) newSize (concat (table hm))
              ltac:(lia) Hall (replicate (Z.to_nat newSize) []))
    as (nt' & -> & Hl & Hp & Hpl).
  { by rewrite length_replicate. }
  { intros i b Hi. apply lookup_replicate in Hi as [-> _]. constructor. }
  cbn [mbind option_bind]. eexists. split; [reflexivity|].
  rewrite length_replicate in Hl.
  rewrite concat_replicate_nil, app_nil_r in Hp.
  split_and!.
  - split; cbn.
    + rewrite Hl. lia.
    + lia.
    + done.
    + unfold entries. cbn. rewrite Hp. apply (wf_nodup _ Hwf).
    + unfold entries. cbn. rewrite (wf_count _ Hwf). do 2 f_equal.
      symmetry. by apply Permutation_length.
    + apply Hwf.
  - done.
  - cbn. lia.
  - cbn. lia.
  - done.
Qed.

Lemma kv_perm hm hm' :
  wf hm → entries hm' ≡ₚ entries hm → kv hm' = kv hm.
Proof.
  intros Hwf Hp. unfold kv, em. f_equal. symmetry.
  apply ltm_perm; [apply (wf_nodup _ Hwf)|done].
Qed.

Lemma CheckResize_spec hm :
  wf hm →
  ∃ hm', CheckResize hm = Some hm' ∧ wf hm' ∧ kv hm' = kv hm
         ∧ entries hm' ≡ₚ entries hm
         ∧ seed hm' = seed hm ∧ reset hm' = reset hm ∧ Aof hm' = Aof hm
         ∧ Entries hm' = Entries hm
         ∧ length (table hm')
           = if load_exceeded hm then (2 * length (table hm))%nat
             else length (table hm).
Proof.
  intros Hwf. unfold CheckResize. destruct (load_exceeded hm).
  - destruct (checkNewBasket_spec hm Hwf)
      as (hm' & -> & Hwf' & Hp & Hn & Hl & E).
    exists hm'. split_and!; try done; try by rewrite E.
    by apply kv_perm.
  - exists hm. by split_and!.
Qed.

(** [CheckResize] touches the bucket array only. *)
Lemma CheckResize_fields hm hm' :
  CheckResize hm = Some hm' →
  deletedEntries hm' = deletedEntries hm ∧ Aof hm' = Aof hm
  ∧ TTlManager hm' = TTlManager hm ∧ Entries hm' = Entries hm.
Proof.
  unfold CheckResize, checkNewBasket. destruct (load_exceeded hm).
  - destruct (relink_all _ _ _); [|done]. by intros [= <-].
  - by intros [= <-].
Qed.

Lemma em_perm hm hm' :
  wf hm → entries hm' ≡ₚ entries hm → em hm' = em hm.
Proof.
  intros Hwf Hp. unfold em. symmetry.
  apply ltm_perm; [apply (wf_nodup _ Hwf)|done].
Qed.

(** A table that represents a single binding holds a single entry. *)
Lemma entries_singleton hm key e :
  wf hm → em hm = {[key := e]} → entries hm = [e] ∧ Key e = key.
Proof.
  intros Hwf Hem.
  assert (Hp : pair_of <$> entries hm ≡ₚ [(key, e)]).
  { rewrite <- (map_to_list_singleton (M := gmap string) key e), <- Hem.
    symmetry. apply map_to_list_to_map.
    rewrite <- list_fmap_compose. apply (wf_nodup _ Hwf). }
  apply Permutation_singleton_r in Hp.
  destruct (entries hm) as [|x [|y l]]; try done.
  injection Hp as Hk ->. done.
Qed.

Lemma length_entries hm : wf hm → length (entries hm) = size (em hm).
Proof.
  intros Hwf. unfold em. rewrite map_size_list_to_map.
  - by rewrite length_fmap.
  - rewrite <- list_fmap_compose. apply (wf_nodup _ Hwf).
Qed.

(** *** Construction *)

Lemma NewTTLManager_ok now ncpu mult :
  cpu_ok ncpu mult → ttl_ok (NewTTLManager now ncpu mult).
Proof.
  unfold cpu_ok, ttl_ok, NewTTLManager. intros Hc. cbn.
  rewrite length_replicate. split; [|done].
  set (x := ncpu * mult) in *.
  assert (Hx : u64 x = x) by (apply Z.mod_small; lia). rewrite Hx.
  unfold LowerPowerOfTwo. destruct (Z.leb_spec x 2); [done|].
  unfold Len64. destruct (Z.leb_spec (x - 1) 0); [lia|].
  assert (Hlog : 0 <= Z.log2 (x - 1) < 62).
  { split; [apply Z.log2_nonneg|]. apply Z.log2_lt_pow2; lia. }
  rewrite Z.shiftl_1_l.
  assert (2 ^ 1 <= 2 ^ (Z.log2 (x - 1) + 1) <= 2 ^ 62)
    by (split; apply Z.pow_le_mono_r; lia).
  unfold u64, i64. rewrite (Z.mod_small (2 ^ _)) by lia.
  rewrite Z.mod_small; lia.
Qed.

Lemma em_initial now ncpu mult seed_ : em (initial now ncpu mult seed_) = ∅.
Proof. reflexivity. Qed.

Lemma initial_ok now ncpu mult seed_ :
  cpu_ok ncpu mult →
  wf (initial now ncpu mult seed_) ∧ kv (initial now ncpu mult seed_) = ∅.
Proof.
  intros Hc. split; [|reflexivity].
  split; unfold entries, initial;
    cbn [table basketNum seed Entries TTlManager];
    rewrite ?concat_replicate_nil.
  - rewrite length_replicate. unfold DefaultBasketSize. lia.
  - done.
  - intros i b Hi. apply lookup_replicate in Hi as [-> _]. constructor.
  - constructor.
  - done.
  - by apply NewTTLManager_ok.
Qed.

(** Opening the log for appending leaves the table as the replay built it. *)
Lemma wf_opened hm a : wf hm → wf (set_Aof (set_reset hm false) a).
Proof. intros Hwf. split; cbn; apply Hwf. Qed.

Lemma fresh_ok now ncpu mult seed_ sc :
  cpu_ok ncpu mult →
  ∃ hm, NewHashMap now ncpu mult seed_ sc None = Some hm ∧ wf hm
        ∧ kv hm = ∅ ∧ reset hm = false ∧ Aof hm = AOF.NewAOF
        ∧ seed hm = seed_.
Proof.
  intros Hc. destruct (initial_ok now ncpu mult seed_ Hc) as [Hwf Hkv].
  eexists. split; [reflexivity|]. split_and!; try reflexivity.
  by apply wf_opened.
Qed.

End TableFacts.

(** ** Replay *)

Module ReplayFacts.
Import AOF FrameFacts TableFacts.

Lemma at_end_nil : at_end [].
Proof. by left. Qed.

Lemma replay_loop_frames sc (ds : list Data) (tail : list ascii) :
  Forall frame_ok ds → at_end tail →
  ∀ fuel i hm, (length ds < fuel)%nat →
    replay_loop fuel sc i (frames ds ++ tail) hm = apply_all sc i ds hm.
Proof.
  intros Hok Hend. induction Hok as [|d ds Hd _ IH]; intros fuel i hm Hf.
  - destruct fuel as [|fuel]; [simpl in Hf; lia|].
    cbn [frames flat_map app replay_loop apply_all].
    by destruct Hend as [-> | ->].
  - destruct fuel as [|fuel]; [simpl in Hf; lia|].
    cbn [frames flat_map replay_loop apply_all]. rewrite <- app_assoc.
    rewrite readFrame_writeFrame by done.
    destruct (if resize_at sc i then CheckResize hm else Some hm)
      as [hm1|]; [|done].
    cbn [mbind option_bind].
    destruct (apply_record hm1 (clock sc i) d) as [hm2|]; [|done].
    cbn [mbind option_bind]. apply IH. simpl in Hf. lia.
Qed.

Lemma length_writeFrame d : (20 <= length (writeFrame d))%nat.
Proof.
  unfold writeFrame, write_string.
  rewrite !length_app, !length_be_bytes. lia.
Qed.

Lemma length_frames ds : (length ds <= length (frames ds))%nat.
Proof.
  induction ds as [|d ds IH]; [done|].
  cbn [frames flat_map]. rewrite length_app.
  pose proof (length_writeFrame d). unfold frames in IH. simpl. lia.
Qed.

(** The fuel of [ReplayAOF] is enough for any log of whole frames, also when
    a cut frame follows. *)
Lemma ReplayAOF_frames hm sc (ds : list Data) (tail : list ascii) :
  Forall frame_ok ds → at_end tail →
  ReplayAOF hm sc (Some (frames ds ++ tail)) = apply_all sc O ds hm.
Proof.
  intros Hok Hend. unfold ReplayAOF.
  apply replay_loop_frames; [done|done|].
  rewrite length_app. pose proof (length_frames ds). lia.
Qed.

Lemma apply_all_app sc ds1 ds2 i hm :
  apply_all sc i (ds1 ++ ds2) hm
  = hm' ← apply_all sc i ds1 hm; apply_all sc (i + length ds1) ds2 hm'.
Proof.
  revert i hm. induction ds1 as [|d ds1 IH]; intros i hm.
  - cbn. by rewrite Nat.add_0_r.
  - cbn [app apply_all length].
    destruct (if resize_at sc i then CheckResize hm else Some hm)
      as [hm1|]; [|done].
    cbn [mbind option_bind].
    destruct (apply_record hm1 (clock sc i) d) as [hm2|]; [|done].
    cbn [mbind option_bind]. rewrite IH. by rewrite Nat.add_succ_r.
Qed.

End ReplayFacts.

(** ** Replay equivalence *)

Module ReplayEquiv.
Import AOF FrameFacts TableFacts ReplayFacts.
Import Server.

Lemma logged hm d :
  reset hm = false →
  com (Aof (log_record hm d)) = com (Aof hm) ++ [d]
  ∧ file (Aof (log_record hm d)) = file (Aof hm).
Proof. intros Hr. unfold log_record. by rewrite Hr. Qed.

Lemma action_ok_set : string_ok "set".
Proof. unfold string_ok, len. simpl. lia. Qed.
Lemma action_ok_del : string_ok "del".
Proof. unfold string_ok, len. simpl. lia. Qed.
Lemma action_ok_incr : string_ok "incr".
Proof. unfold string_ok, len. simpl. lia. Qed.
Lemma empty_ok : string_ok "".
Proof. unfold string_ok, len. simpl. lia. Qed.
Lemma zero_int64 : is_int64 0.
Proof. unfold is_int64, MinInt64, MaxInt64. lia. Qed.

Lemma incr_record_ok key amount :
  string_ok key → string_ok amount → frame_ok (mkData "incr" key amount 0).
Proof.
  intros Hk Ha. split_and!; auto using action_ok_incr. apply zero_int64.
Qed.



Lemma apply_record_incr hm now key amount ttl :
  apply_record hm now (mkData "incr" key amount ttl)
  = fst <$> HM.Incr hm now ttl key amount.
Proof. reflexivity. Qed.

Lemma apply_record_del hm now key value ttl :
  apply_record hm now (mkData "del" key value ttl) = fst <$> HM.Del hm key.
Proof. reflexivity. Qed.



Section Run.
Variable ToUpper : string → string.




End Run.

End ReplayEquiv.

(** ** Every state the program reaches *)

Module Reach.
Import TableFacts.

Lemma doubled_refl hm : doubled hm hm.
Proof. exists O. simpl. lia. Qed.

Lemma doubled_same hm hm' :
  length (table hm') = length (table hm) → doubled hm hm'.
Proof. intros E. exists O. simpl. lia. Qed.

Lemma doubled_trans hm1 hm2 hm3 :
  doubled hm1 hm2 → doubled hm2 hm3 → doubled hm1 hm3.
Proof.
  intros [k1 E1] [k2 E2]. exists (k1 + k2)%nat.
  rewrite E2, E1, Nat.pow_add_r. lia.
Qed.

Lemma ReadFull_length n r x r' :
  AOF.ReadFull n r = inl (x, r') → (length r = length r' + n)%nat.
Proof.
  unfold AOF.ReadFull. destruct (Nat.eqb_spec n 0) as [->|_].
  - intros [= _ <-]. lia.
  - destruct (Nat.leb_spec n (length r)).
    + intros [= _ <-]. rewrite length_skipn. lia.
    + by destruct r.
Qed.

Lemma read_string_length r x r' :
  AOF.read_string r = inl (x, r') → (length r' + 4 <= length r)%nat.
Proof.
  unfold AOF.read_string.
  destruct (AOF.ReadFull 4 r) as [[sizeBuf r1]|] eqn:E1; [|done].
  apply ReadFull_length in E1.
  destruct (0 <? AOF.be_value 0 sizeBuf).
  - destruct (AOF.ReadFull _ r1) as [[buf r2]|] eqn:E2; [|done].
    apply ReadFull_length in E2. intros [= _ <-]. lia.
  - intros [= _ <-]. lia.
Qed.

Lemma readFrame_length r d r' :
  AOF.readFrame r = inl (d, r') → (length r' + 20 <= length r)%nat.
Proof.
  unfold AOF.readFrame.
  destruct (AOF.read_string r) as [[a r1]|] eqn:E1; [|done].
  destruct (AOF.read_string r1) as [[k r2]|] eqn:E2; [|done].
  destruct (AOF.read_string r2) as [[v r3]|] eqn:E3; [|done].
  destruct (AOF.ReadFull 8 r3) as [[bs r4]|] eqn:E4; [|done].
  apply read_string_length in E1, E2, E3. apply ReadFull_length in E4.
  intros [= _ <-]. lia.
Qed.

(** Whatever the record, applying it returns and keeps the invariant. *)
Lemma apply_record_ok hm now d :
  wf hm →
  ∃ hm', apply_record hm now d = Some hm' ∧ wf hm'
         ∧ length (table hm') = length (table hm).
Proof.
  intros Hwf. unfold apply_record.
  destruct (String.eqb (AOF.Action d) "set").
  { destruct (Set_spec hm now (AOF.Ttl d) (AOF.Key d) (AOF.Value d) Hwf)
      as (hm' & -> & Hwf' & _ & _ & _ & _ & Hl). by exists hm'. }
  destruct (String.eqb (AOF.Action d) "del").
  { destruct (Del_spec hm (AOF.Key d) Hwf)
      as (hm' & ok & -> & Hwf' & _ & _ & _ & _ & _ & Hl). by exists hm'. }
  destruct (String.eqb (AOF.Action d) "incr").
  { destruct (Incr_spec hm now (AOF.Ttl d) (AOF.Key d) (AOF.Value d) Hwf)
      as (hm' & ok & -> & Hwf' & _ & _ & _ & _ & Hl). by exists hm'. }
  by exists hm.
Qed.

Lemma CheckResize_doubled hm :
  wf hm → ∃ hm', CheckResize hm = Some hm' ∧ wf hm' ∧ doubled hm hm'.
Proof.
  intros Hwf. destruct (CheckResize_spec hm Hwf)
    as (hm' & E & Hwf' & _ & _ & _ & _ & _ & _ & Hl).
  exists hm'. split; [done|]. split; [done|].
  destruct (load_exceeded hm).
  - exists 1%nat. rewrite Hl. simpl. lia.
  - by apply doubled_same.
Qed.

(** The replay loop returns on every input: its fuel never runs out and no
    step panics. *)
Lemma replay_loop_ok sc :
  ∀ fuel i r hm, wf hm → (length r < fuel)%nat →
    ∃ hm', replay_loop fuel sc i r hm = Some hm' ∧ wf hm' ∧ doubled hm hm'.
Proof.
  induction fuel as [|fuel IH]; intros i r hm Hwf Hf; [lia|].
  cbn [replay_loop].
  destruct (AOF.readFrame r) as [[d r']|e] eqn:Er.
  2:{ exists hm. split; [done|]. split; [done|]. apply doubled_refl. }
  apply readFrame_length in Er.
  assert (∃ hm1, (if resize_at sc i then CheckResize hm else Some hm)
                 = Some hm1 ∧ wf hm1 ∧ doubled hm hm1)
    as (hm1 & -> & Hwf1 & Hd1).
  { destruct (resize_at sc i); [by apply CheckResize_doubled|].
    exists hm. split; [done|]. split; [done|]. apply doubled_refl. }
  cbn [mbind option_bind].
  destruct (apply_record_ok hm1 (clock sc i) d Hwf1)
    as (hm2 & -> & Hwf2 & Hl2).
  cbn [mbind option_bind].
  destruct (IH (S i) r' hm2 Hwf2 ltac:(lia)) as (hm' & -> & Hwf' & Hd').
  exists hm'. split; [done|]. split; [done|].
  eapply doubled_trans; [exact Hd1|].
  eapply doubled_trans; [by apply doubled_same|exact Hd'].
Qed.

(** [NewHashMap] returns a well-formed table whatever the log file holds. *)
Lemma NewHashMap_ok now ncpu mult seed_ sc disk :
  cpu_ok ncpu mult →
  ∃ hm, NewHashMap now ncpu mult seed_ sc disk = Some hm ∧ wf hm
        ∧ doubled (initial now ncpu mult seed_) hm.
Proof.
  intros Hc. destruct (initial_ok now ncpu mult seed_ Hc) as [Hwf _].
  unfold NewHashMap.
  assert (∃ hm', ReplayAOF (initial now ncpu mult seed_) sc disk = Some hm'
                 ∧ wf hm' ∧ doubled (initial now ncpu mult seed_) hm')
    as (hm' & -> & Hwf' & Hd).
  { destruct disk as [r|]; cbn [ReplayAOF].
    - apply replay_loop_ok; [done|lia].
    - exists (initial now ncpu mult seed_).
      split; [done|]. split; [done|]. apply doubled_refl. }
  cbn [mbind option_bind]. eexists. split; [reflexivity|].
  split; [by apply wf_opened|]. exact Hd.
Qed.

(** *** The sweep *)

Lemma delEntry_shards t e ttl t' :
  delEntry t e ttl = Some t' → numShards t' = numShards t.
Proof.
  unfold delEntry. destruct (List t !! shard_index t e); [|done]. cbn.
  destruct (_ !! ttl); by intros [= <-].
Qed.

Lemma Del_kept n shards hm key :
  kept n shards hm →
  ∃ hm' ok, Del hm key = Some (hm', ok) ∧ kept n shards hm'.
Proof.
  intros (Hwf & Hn & Hs).
  destruct (Del_spec hm key Hwf)
    as (hm' & ok & E & Hwf' & _ & _ & _ & _ & _ & Hl).
  exists hm', ok. split; [done|]. split; [done|]. split; [congruence|].
  rewrite <- Hs. clear - E. unfold Del in E.
  destruct (log_record_fields hm (AOF.mkData "del" key "" 0))
    as (_ & _ & _ & Ht).
  unfold getIndex in E. cbn zeta in E.
  destruct (table _ !! _) as [b|]; [|done]. cbn in E.
  destruct (find_item key b) as [[pos item]|].
  - destruct (delEntry _ item (Ttl item)) as [t'|] eqn:Ed; [|done].
    cbn in E. injection E as <- _. cbn.
    rewrite (delEntry_shards _ _ _ _ Ed). by rewrite Ht.
  - injection E as <- _. by rewrite Ht.
Qed.

Lemma delEntriesFromHashMap_kept n shards keys_ :
  ∀ hm, kept n shards hm →
    ∃ hm', delEntriesFromHashMap hm keys_ = Some hm' ∧ kept n shards hm'.
Proof.
  induction keys_ as [|k rest IH]; intros hm Hk; [by exists hm|].
  cbn [delEntriesFromHashMap].
  destruct (Del_kept n shards hm k Hk) as (hm1 & ok & -> & Hk1).
  cbn [mbind option_bind]. by apply IH.
Qed.

Lemma sweep_shard_kept n shards i hm j :
  kept n shards hm → (j < Z.to_nat shards)%nat →
  ∃ hm', sweep_shard i (Some hm) j = Some hm' ∧ kept n shards hm'.
Proof.
  intros (Hwf & Hn & Hs) Hj. unfold sweep_shard. cbn [mbind option_bind].
  destruct (wf_ttl _ Hwf) as [H1 H2].
  assert (Hlt : (j < length (List (TTlManager hm)))%nat) by (rewrite H2; lia).
  destruct (lookup_lt_is_Some_2 _ _ Hlt) as [em_ ->].
  cbn [mbind option_bind]. destruct (em_ !! i) as [entries_|].
  - apply delEntriesFromHashMap_kept. split; [|by split].
    split; cbn; try apply Hwf.
    split; cbn; [done|]. by rewrite length_insert.
  - exists hm. split; [done|]. by split.
Qed.

Lemma fold_kept {A} (f : option HashMap → A → option HashMap)
    (P : HashMap → Prop) (Q : A → Prop) (l : list A) :
  (∀ hm x, P hm → Q x → ∃ hm', f (Some hm) x = Some hm' ∧ P hm') →
  Forall Q l →
  ∀ hm, P hm → ∃ hm', fold_left f l (Some hm) = Some hm' ∧ P hm'.
Proof.
  intros Hf. induction 1 as [|x l Hx _ IH]; intros hm Hp; [by exists hm|].
  cbn [fold_left]. destruct (Hf hm x Hp Hx) as (hm1 & -> & Hp1).
  by apply IH.
Qed.

Lemma sweep_second_kept n shards hm i :
  kept n shards hm →
  ∃ hm', sweep_second (Some hm) i = Some hm' ∧ kept n shards hm'.
Proof.
  intros Hk. unfold sweep_second. cbn [mbind option_bind].
  apply (fold_kept (sweep_shard i) (kept n shards)
           (λ j, (j < Z.to_nat shards)%nat)); [| |done].
  - intros hm1 j Hk1 Hj. by apply sweep_shard_kept.
  - apply Forall_forall. intros j Hj. apply elem_of_seq in Hj.
    destruct Hk as (Hwf & _ & Hs). destruct (wf_ttl _ Hwf) as [_ H2].
    rewrite H2, Hs in Hj. lia.
Qed.

Lemma delEntries_ok hm now :
  wf hm →
  ∃ hm', delEntries hm now = Some hm' ∧ wf hm'
         ∧ length (table hm') = length (table hm).
Proof.
  intros Hwf. unfold delEntries.
  destruct (fold_kept sweep_second
              (kept (length (table hm)) (numShards (TTlManager hm)))
              (λ _, True)
              (map (λ n, lastDeleted (TTlManager hm) + 1 + Z.of_nat n)
                 (seq 0 (Z.to_nat (now - lastDeleted (TTlManager hm)))))
              ltac:(intros; by apply sweep_second_kept)
              ltac:(by apply Forall_forall) hm ltac:(by split))
    as (hm' & -> & Hwf' & Hn & Hs).
  cbn [mbind option_bind]. eexists. split; [reflexivity|].
  split; [|done]. split; cbn; try apply Hwf'.
Qed.

(** *** Every transition keeps the invariant *)

Lemma step_ok hm hm' : wf hm → step hm hm' → wf hm' ∧ doubled hm hm'.
Proof.
  intros Hwf Hstep. destruct Hstep as
    [hm now ttl key value hm' ok E|hm now ttl key amount hm' ok E
    |hm key hm' ok E|hm hm' E|hm inputs ev inputs' hm' go E|hm now hm' E].
  - destruct (Set_spec hm now ttl key value Hwf)
      as (h & E' & Hwf' & _ & _ & _ & _ & Hl).
    rewrite E in E'. injection E' as <- _. split; [done|].
    by apply doubled_same.
  - destruct (Incr_spec hm now ttl key amount Hwf)
      as (h & ok' & E' & Hwf' & _ & _ & _ & _ & Hl).
    rewrite E in E'. injection E' as <- _. split; [done|].
    by apply doubled_same.
  - destruct (Del_spec hm key Hwf)
      as (h & ok' & E' & Hwf' & _ & _ & _ & _ & _ & Hl).
    rewrite E in E'. injection E' as <- _. split; [done|].
    by apply doubled_same.
  - destruct (CheckResize_doubled hm Hwf) as (h & E' & Hwf' & Hd).
    rewrite E in E'. by injection E' as <-.
  - unfold ResizeChecker_step in E. destruct ev.
    + assert (Hwf1 : wf (set_resizeCheck hm (Nat.pred (resizeCheck hm))))
        by (split; cbn; apply Hwf).
      destruct (Z.rem (inputs + 1) 1000 =? 0).
      * destruct (CheckResize_doubled _ Hwf1) as (h & E' & Hwf' & Hd).
        rewrite E' in E. cbn in E. injection E as _ <- _. done.
      * injection E as _ <- _. split; [done|]. by apply doubled_same.
    + destruct (compaction_due _ _); injection E as _ <- _.
      * split; [split; cbn; apply Hwf|]. by apply doubled_same.
      * split; [done|]. apply doubled_refl.
    + injection E as _ <- _. split; [done|]. apply doubled_refl.
  - destruct (delEntries_ok hm now Hwf) as (h & E' & Hwf' & Hl).
    rewrite E in E'. injection E' as <-. split; [done|].
    by apply doubled_same.
Qed.

Lemma reachable_ok hm :
  reachable hm →
  wf hm ∧ ∃ k : nat, length (table hm) = (2048 * 2 ^ k)%nat.
Proof.
  induction 1 as [now ncpu mult seed_ sc disk hm Hc E|hm hm' _ IH Hs].
  - destruct (NewHashMap_ok now ncpu mult seed_ sc disk Hc)
      as (h & E' & Hwf & [k Hk]).
    rewrite E in E'. injection E' as <-. split; [done|]. exists k.
    rewrite Hk. unfold initial. cbn [table]. by rewrite length_replicate.
  - destruct IH as [Hwf [k Hk]].
    destruct (step_ok hm hm' Hwf Hs) as [Hwf' [k' Hk']].
    split; [done|]. exists (k + k')%nat.
    rewrite Hk', Hk, Nat.pow_add_r. lia.
Qed.

End Reach.

(** * The properties of the specification *)

Import FrameFacts TableFacts ReplayFacts ReplayEquiv.

(** The hash and the number conversions on known values. *)
Example xxh64_a : XXHash64.HashString 0 "a" = 0xD24EC4F1A98C6E5B.
Proof. vm_compute. reflexivity. Qed.
Example xxh64_abc : XXHash64.HashString 0 "abc" = 0x44BC2CF5AD770999.
Proof. vm_compute. reflexivity. Qed.
Example xxh64_stripes :
  XXHash64.HashString 0 "Nobody inspects the spammish repetition"
  = 0xFBCEA83C8A378BF1
  ∧ XXHash64.HashString 0 "The quick brown fox jumps over the lazy dog"
    = 0x0B242D361FDA71BC.
Proof. vm_compute. split; reflexivity. Qed.
Example parse_ok : Strconv.ParseInt "-10" = Some (-10).
Proof. reflexivity. Qed.
Example format_ok : Strconv.FormatInt 140 = "140".
Proof. reflexivity. Qed.



(** C2. The round-trip laws on a database that has just been created:
    a [Set] is read back by [Get]; of two [Set]s the later one is read back;
    after [Set] and [Del] the key is not found; the first [SetNX] of a key
    succeeds, the second is refused and leaves the first value. [SetNX] is an
    operation of the registry, which checks the entry cap first, so the cap
    is taken to be positive. *)
Theorem roundtrip_laws (ToUpper : string → string) (name k v v1 v2 : string)
    (max now ncpu mult seed_ t1 t2 : Z) (sc : sched) :
  cpu_ok ncpu mult → 0 < i64 max →
  ∃ hm0,
    NewHashMap now ncpu mult seed_ sc None = Some hm0
    ∧ (∃ hm1, Set_ hm0 t1 0 k v = Some (hm1, true)
              ∧ Get hm1 k = Some (true, v))
    ∧ (∃ hm1 hm2, Set_ hm0 t1 0 k v1 = Some (hm1, true)
                  ∧ Set_ hm1 t2 0 k v2 = Some (hm2, true)
                  ∧ Get hm2 k = Some (true, v2))
    ∧ (∃ hm1 hm2, Set_ hm0 t1 0 k v = Some (hm1, true)
                  ∧ Del hm1 k = Some (hm2, true)
                  ∧ Get hm2 k = Some (false, ""))
    ∧ (∃ s1 s2,
         Server.SetNX ToUpper (Server.mkServer {[ToUpper name := hm0]} max)
           t1 name k v1 0 = Some (s1, true)
         ∧ Server.SetNX ToUpper s1 t2 name k v2 0 = Some (s2, false)
         ∧ Server.Get ToUpper s2 name k = Some (true, v1)).
Proof.
  intros Hc Hmax.
  destruct (fresh_ok now ncpu mult seed_ sc Hc)
    as (hm0 & E0 & Hwf0 & Hkv0 & _).
  exists hm0. split; [done|]. split_and!.
  - destruct (Set_spec hm0 t1 0 k v Hwf0) as (hm1 & E1 & Hwf1 & Hkv1 & _).
    exists hm1. split; [done|].
    by rewrite (Get_spec hm1 k Hwf1), Hkv1, lookup_insert_eq.
  - destruct (Set_spec hm0 t1 0 k v1 Hwf0) as (hm1 & E1 & Hwf1 & Hkv1 & _).
    destruct (Set_spec hm1 t2 0 k v2 Hwf1) as (hm2 & E2 & Hwf2 & Hkv2 & _).
    exists hm1, hm2. split; [done|]. split; [done|].
    by rewrite (Get_spec hm2 k Hwf2), Hkv2, lookup_insert_eq.
  - destruct (Set_spec hm0 t1 0 k v Hwf0) as (hm1 & E1 & Hwf1 & Hkv1 & _).
    destruct (Del_spec hm1 k Hwf1)
      as (hm2 & ok & E2 & Hwf2 & Hkv2 & Hok & _).
    rewrite Hkv1, lookup_insert_eq in Hok. cbn in Hok. subst ok.
    exists hm1, hm2. split; [done|]. split; [done|].
    by rewrite (Get_spec hm2 k Hwf2), Hkv2, lookup_delete_eq.
  - destruct (Set_spec hm0 t1 0 k v1 Hwf0) as (hm1 & E1 & Hwf1 & Hkv1 & _).
    set (s1 := Server.mkServer {[ToUpper name := hm1]} max).
    exists s1, s1. split_and!.
    + unfold Server.SetNX, Server.CheckEntries.
      cbn [Server.dbs Server.MAX_ENTRIES].
      rewrite lookup_singleton_eq. unfold GetEntries.
      rewrite (wf_size hm0 Hwf0), Hkv0, map_size_empty.
      change (i64 (u64 (Z.of_nat 0))) with 0.
      destruct (Z.ltb_spec 0 (i64 max)); [|lia]. cbn [negb].
      rewrite (Get_spec hm0 k Hwf0), Hkv0, lookup_empty.
      cbn [mbind option_bind]. rewrite E1. cbn [mbind option_bind].
      unfold Server.put. cbn [Server.dbs Server.MAX_ENTRIES].
      by rewrite insert_singleton_eq.
    + unfold Server.SetNX, Server.CheckEntries, s1.
      cbn [Server.dbs Server.MAX_ENTRIES].
      rewrite lookup_singleton_eq.
      destruct (GetEntries hm1 <? i64 max); cbn [negb]; [|done].
      rewrite (Get_spec hm1 k Hwf1), Hkv1, lookup_insert_eq. done.
    + unfold Server.Get, s1. cbn [Server.dbs]. rewrite lookup_singleton_eq.
      by rewrite (Get_spec hm1 k Hwf1), Hkv1, lookup_insert_eq.
Qed.

(** The laws at the key ["k"] of the database ["DB"]. *)
Lemma roundtrip_laws_witness :
  let sc := mkSched (λ _, 0) (λ _, false) in
  cpu_ok 8 16 ∧ 0 < i64 100000
  ∧ ∃ hm0,
      NewHashMap 1000 8 16 0 sc None = Some hm0
      ∧ (∃ hm1, Set_ hm0 1001 0 "k" "v" = Some (hm1, true)
                ∧ Get hm1 "k" = Some (true, "v"))
      ∧ (∃ hm1 hm2, Set_ hm0 1001 0 "k" "v1" = Some (hm1, true)
                    ∧ Set_ hm1 1002 0 "k" "v2" = Some (hm2, true)
                    ∧ Get hm2 "k" = Some (true, "v2"))
      ∧ (∃ hm1 hm2, Set_ hm0 1001 0 "k" "v" = Some (hm1, true)
                    ∧ Del hm1 "k" = Some (hm2, true)
                    ∧ Get hm2 "k" = Some (false, ""))
      ∧ (∃ s1 s2,
           Server.SetNX id (Server.mkServer {[id "DB" := hm0]} 100000)
             1001 "DB" "k" "v1" 0 = Some (s1, true)
           ∧ Server.SetNX id s1 1002 "DB" "k" "v2" 0 = Some (s2, false)
           ∧ Server.Get id s2 "DB" "k" = Some (true, "v1")).
Proof.
  intros sc.
  assert (Hc : cpu_ok 8 16) by (unfold cpu_ok; lia).
  assert (Hm : 0 < i64 100000) by (vm_compute; reflexivity).
  split; [exact Hc|]. split; [exact Hm|].
  exact (roundtrip_laws id "DB" "k" "v" "v1" "v2" 100000 1000 8 16 0
           1001 1002 sc Hc Hm).
Defined.


Lemma empty_db_reachable : reachable empty_db.
Proof.
  apply (reach_new 1000 8 16 0 quiet None).
  - unfold cpu_ok. lia.
  - reflexivity.
Qed.


(** On the initial 2048 buckets the [float64] test is the exact test
    [entries/2048 > 3/4], for every count up to twice the bucket count. *)
Lemma load_gt_2048 :
  forallb (λ e, Bool.eqb (load_gt (Z.of_nat e) 2048)
                         (3 * 2048 <? 4 * Z.of_nat e))
          (seq 0 4097) = true.
Proof. vm_compute. reflexivity. Qed.

(** At every bucket count from 2^11 to 2^53 the test is false at load 3/4
    and true one entry above. *)
Lemma load_gt_threshold :
  forallb (λ k, negb (load_gt (3 * 2 ^ (Z.of_nat k - 2)) (2 ^ Z.of_nat k))
                && load_gt (3 * 2 ^ (Z.of_nat k - 2) + 1) (2 ^ Z.of_nat k))
          (seq 11 43) = true.
Proof. vm_compute. reflexivity. Qed.

(** With 2048 keys in the 2048 initial buckets, [CheckResize] leaves 4096
    buckets; with 1536 keys, a load of exactly 0.75, it leaves 2048. *)
Example resize_trigger :
  (hm ← fill 2048 empty_db; hm' ← CheckResize hm;
   Some (GetBasketNum hm, GetEntries hm, GetBasketNum hm'))
  = Some (2048, 2048, 4096)
  ∧ (hm ← fill 1536 empty_db; hm' ← CheckResize hm;
     Some (GetBasketNum hm, GetEntries hm, GetBasketNum hm'))
    = Some (2048, 1536, 2048).
Proof. split; vm_compute; reflexivity. Qed.

(** C5. Frames round-trip. For a record whose strings fit the 32-bit length
    fields and whose TTL is an [int64]: [readFrame] on the bytes of
    [writeFrame], followed by anything, gives the record back and leaves
    what follows; [readFrame] on a proper prefix of the frame fails with
    [EOF] or [ErrUnexpectedEOF]; and the replay of a log that ends in such a
    prefix is the replay of the whole frames before it, which returns on a
    well-formed table. *)
Theorem frame_roundtrip (d : AOF.Data) :
  frame_ok d →
  (∀ rest, AOF.readFrame (AOF.writeFrame d ++ rest) = inl (d, rest))
  ∧ (∀ p q, q ≠ [] → p ++ q = AOF.writeFrame d →
       AOF.readFrame p = inr AOF.EOF
       ∨ AOF.readFrame p = inr AOF.ErrUnexpectedEOF)
  ∧ (∀ ds p q hm sc,
       Forall frame_ok ds → q ≠ [] → p ++ q = AOF.writeFrame d →
       ReplayAOF hm sc (Some (frames ds ++ p))
       = ReplayAOF hm sc (Some (frames ds))
       ∧ ReplayAOF hm sc (Some (frames ds)) = apply_all sc O ds hm
       ∧ (wf hm → is_Some (ReplayAOF hm sc (Some (frames ds ++ p))))).
Proof.
  intros Hd. split_and!.
  - intros rest. by apply readFrame_writeFrame.
  - intros p q Hq Hp. by apply (readFrame_truncated d p q).
  - intros ds p q hm sc Hds Hq Hp.
    pose proof (readFrame_truncated d p q Hd Hq Hp) as Hend.
    pose proof (ReplayAOF_frames hm sc ds p Hds Hend) as E1.
    pose proof (ReplayAOF_frames hm sc ds [] Hds at_end_nil) as E2.
    rewrite app_nil_r in E2. split_and!.
    + by rewrite E1, E2.
    + done.
    + intros Hwf. unfold ReplayAOF.
      destruct (Reach.replay_loop_ok sc (S (length (frames ds ++ p))) O
                  (frames ds ++ p) hm Hwf ltac:(lia)) as (hm' & -> & _).
      by eexists.
Qed.

(** The theorem at a record with a negative TTL. *)
Lemma frame_roundtrip_witness :
  let d := AOF.mkData "set" "key" "value" (-5) in
  frame_ok d
  ∧ (∀ rest, AOF.readFrame (AOF.writeFrame d ++ rest) = inl (d, rest))
  ∧ (∀ p q, q ≠ [] → p ++ q = AOF.writeFrame d →
       AOF.readFrame p = inr AOF.EOF
       ∨ AOF.readFrame p = inr AOF.ErrUnexpectedEOF)
  ∧ (∀ ds p q hm sc,
       Forall frame_ok ds → q ≠ [] → p ++ q = AOF.writeFrame d →
       ReplayAOF hm sc (Some (frames ds ++ p))
       = ReplayAOF hm sc (Some (frames ds))
       ∧ ReplayAOF hm sc (Some (frames ds)) = apply_all sc O ds hm
       ∧ (wf hm → is_Some (ReplayAOF hm sc (Some (frames ds ++ p))))).
Proof.
  intros d.
  assert (Hd : frame_ok d).
  { unfold frame_ok, string_ok, len, is_int64, MinInt64, MaxInt64, d.
    simpl. lia. }
  split; [exact Hd|]. exact (frame_roundtrip d Hd).
Defined.

(** The layout of a frame: three length-prefixed strings, lengths on four
    bytes, then the TTL on eight, all big-endian; a negative TTL is written
    in two's complement. *)
Example frame_layout :
  map byte_val (AOF.writeFrame (AOF.mkData "del" "k" "" (-2)))
  = [0; 0; 0; 3; 100; 101; 108;
     0; 0; 0; 1; 107;
     0; 0; 0; 0;
     255; 255; 255; 255; 255; 255; 255; 254].
Proof. vm_compute. reflexivity. Qed.

(** A frame cut after its key is reported as an unexpected end of file, and
    an empty reader as the end of file. *)
Example frame_cut :
  AOF.readFrame (firstn 12 (AOF.writeFrame (AOF.mkData "del" "k" "" 0)))
  = inr AOF.EOF
  ∧ AOF.readFrame (firstn 10 (AOF.writeFrame (AOF.mkData "del" "k" "" 0)))
    = inr AOF.ErrUnexpectedEOF
  ∧ AOF.readFrame [] = inr AOF.EOF.
Proof. vm_compute. auto. Qed.



(** The increment scenario: 100 + 50 is 150, 150 - 10 is 140, and a value
    that is no number is refused and kept. *)
Example increment_scenario :
  ('(h1, _) ← Set_ empty_db 1000 0 "counter" "100";
   '(h2, ok2) ← Incr h1 1000 0 "counter" "50";
   g2 ← Get h2 "counter";
   '(h3, ok3) ← Incr h2 1000 0 "counter" "-10";
   g3 ← Get h3 "counter";
   '(h4, _) ← Set_ h3 1000 0 "alpha" "abc";
   '(h5, ok5) ← Incr h4 1000 0 "alpha" "1";
   g5 ← Get h5 "alpha";
   Some (ok2, g2, ok3, g3, ok5, g5))
  = Some (true, (true, "150"), true, (true, "140"), false, (true, "abc")).
Proof. vm_compute. reflexivity. Qed.

(** What [strconv.ParseInt] accepts in base 10 on 64 bits. *)
Example ParseInt_cases :
  Strconv.ParseInt "+5" = Some 5
  ∧ Strconv.ParseInt "-0" = Some 0
  ∧ Strconv.ParseInt "007" = Some 7
  ∧ Strconv.ParseInt "9223372036854775807" = Some MaxInt64
  ∧ Strconv.ParseInt "9223372036854775808" = None
  ∧ Strconv.ParseInt "-9223372036854775808" = Some MinInt64
  ∧ Strconv.ParseInt "-9223372036854775809" = None
  ∧ Strconv.ParseInt "" = None
  ∧ Strconv.ParseInt "-" = None
  ∧ Strconv.ParseInt "1_000" = None
  ∧ Strconv.ParseInt " 1" = None
  ∧ Strconv.ParseInt "0x10" = None
  ∧ Strconv.ParseInt "abc" = None.
Proof. vm_compute. repeat split. Qed.

(** C9. Outside replay, [Incr] on a reachable table returns and sends the
    log the record [("incr", key, amount, 0)], whatever its [ttl] argument.
    So when a database is created, one key is incremented with a TTL, and
    the database is closed and opened again, the entry carries the TTL
    before and the TTL 0 after. *)
Theorem Incr_logs_no_ttl (now ncpu mult seed_ now' ttl : Z) (sc sc' : sched)
    (key amount : string) :
  cpu_ok ncpu mult → string_ok key → string_ok amount →
  (∀ hm t, reachable hm → reset hm = false →
     ∃ hm' ok, Incr hm t ttl key amount = Some (hm', ok)
       ∧ AOF.com (Aof hm')
         = AOF.com (Aof hm) ++ [AOF.mkData "incr" key amount 0])
  ∧ ∃ hm0 hm1 hm2,
      NewHashMap now ncpu mult seed_ sc None = Some hm0
      ∧ Incr hm0 now ttl key amount = Some (hm1, true)
      ∧ GetAllEntriesAndCompress hm1 = [mkAOFEntry key amount ttl]
      ∧ NewHashMap now' ncpu mult seed_ sc' (Some (Close hm1)) = Some hm2
      ∧ GetAllEntriesAndCompress hm2 = [mkAOFEntry key amount 0].
Proof.
  intros Hc Hk Ha. split.
  - intros hm t Hr Hl. destruct (Reach.reachable_ok hm Hr) as [Hwf _].
    destruct (Incr_spec hm t ttl key amount Hwf)
      as (hm' & ok & E & _ & _ & _ & _ & Haof & _).
    exists hm', ok. split; [done|]. rewrite Haof.
    by destruct (logged hm (AOF.mkData "incr" key amount 0) Hl).
  - destruct (fresh_ok now ncpu mult seed_ sc Hc)
      as (hm0 & E0 & Hwf0 & Hkv0 & Hr0 & Ha0 & _).
    assert (Hem0 : em hm0 = ∅) by (by apply (fmap_empty_inv Value)).
    destruct (Incr_entry hm0 now ttl key amount Hwf0)
      as (hm1 & ok & E1 & Hwf1 & Heff & _ & _ & Haof1 & _).
    unfold incr_effect in Heff. rewrite Hem0, lookup_empty in Heff.
    destruct Heff as (-> & e1 & Hem1 & Hv1 & Ht1).
    rewrite insert_empty in Hem1.
    destruct (entries_singleton hm1 key e1 Hwf1 Hem1) as [Hen1 Hk1].
    destruct (logged hm0 (AOF.mkData "incr" key amount 0) Hr0) as [Hcom Hfile].
    rewrite <- Haof1, Ha0 in Hcom, Hfile. cbn in Hcom, Hfile.
    assert (Hclose : Close hm1
                     = frames [AOF.mkData "incr" key amount 0] ++ []).
    { unfold Close, AOF.Loop. cbn. by rewrite Hfile, Hcom, app_nil_r. }
    destruct (initial_ok now' ncpu mult seed_ Hc) as [Hwfi _].
    pose proof (em_initial now' ncpu mult seed_) as Hemi.
    set (hi := initial now' ncpu mult seed_) in *.
    assert (∃ ha, (if resize_at sc' O then CheckResize hi else Some hi)
                  = Some ha ∧ wf ha ∧ em ha = ∅) as (ha & Era & Hwfa & Hema).
    { destruct (resize_at sc' O); [|by exists hi].
      destruct (CheckResize_spec hi Hwfi) as (ha & -> & Hwfa & _ & Hp & _).
      exists ha. split; [done|]. split; [done|].
      by rewrite (em_perm hi ha Hwfi Hp). }
    destruct (Incr_entry ha (clock sc' O) 0 key amount Hwfa)
      as (hm2 & ok2 & E2 & Hwf2 & Heff2 & _).
    unfold incr_effect in Heff2. rewrite Hema, lookup_empty in Heff2.
    destruct Heff2 as (-> & e2 & Hem2 & Hv2 & Ht2).
    rewrite insert_empty in Hem2.
    destruct (entries_singleton hm2 key e2 Hwf2 Hem2) as [Hen2 Hk2].
    exists hm0, hm1, (set_Aof (set_reset hm2 false)
                        (AOF.mkAOF [] (Close hm1) 0)).
    split; [done|]. split; [done|]. split_and!.
    + unfold GetAllEntriesAndCompress. change (concat (table hm1))
        with (entries hm1). rewrite Hen1. cbn. by rewrite Hk1, Hv1, Ht1.
    + unfold NewHashMap. rewrite Hclose at 1.
      rewrite (ReplayAOF_frames hi sc' _ []);
        [|by repeat constructor; apply incr_record_ok|apply at_end_nil].
      cbn [apply_all]. rewrite Era. cbn [mbind option_bind].
      rewrite apply_record_incr, E2. done.
    + unfold GetAllEntriesAndCompress. cbn [set_Aof set_reset table].
      change (concat (table hm2)) with (entries hm2).
      rewrite Hen2. cbn. by rewrite Hk2, Hv2, Ht2.
Qed.

(** The theorem at a counter incremented with a TTL of one minute. *)
Lemma Incr_logs_no_ttl_witness :
  cpu_ok 8 16 ∧ string_ok "counter" ∧ string_ok "1"
  ∧ (∀ hm t, reachable hm → reset hm = false →
       ∃ hm' ok, Incr hm t 60 "counter" "1" = Some (hm', ok)
         ∧ AOF.com (Aof hm')
           = AOF.com (Aof hm) ++ [AOF.mkData "incr" "counter" "1" 0])
  ∧ ∃ hm0 hm1 hm2,
      NewHashMap 1000 8 16 0 quiet None = Some hm0
      ∧ Incr hm0 1000 60 "counter" "1" = Some (hm1, true)
      ∧ GetAllEntriesAndCompress hm1 = [mkAOFEntry "counter" "1" 60]
      ∧ NewHashMap 2000 8 16 0 quiet (Some (Close hm1)) = Some hm2
      ∧ GetAllEntriesAndCompress hm2 = [mkAOFEntry "counter" "1" 0].
Proof.
  assert (Hc : cpu_ok 8 16) by (unfold cpu_ok; lia).
  assert (Hk : string_ok "counter") by (unfold string_ok, len; simpl; lia).
  assert (Ha : string_ok "1") by (unfold string_ok, len; simpl; lia).
  split; [exact Hc|]. split; [exact Hk|]. split; [exact Ha|].
  exact (Incr_logs_no_ttl 1000 8 16 0 2000 60 quiet quiet "counter" "1"
           Hc Hk Ha).
Defined.

(** C10. When the entry count of a database has reached the configured cap,
    [Server.Set] and [Server.SetNX] answer [false] and leave the registry,
    tables and logs as they are. [Server.Incr] does not look at the cap: on
    a key that is absent it returns [true] and the table holds one entry
    more. *)
Theorem cap_check (ToUpper : string → string) (s : Server.Server)
    (hm : HashMap) (now ttl : Z) (db key value amount : string) :
  Server.dbs s !! ToUpper db = Some hm → reachable hm →
  i64 (Server.MAX_ENTRIES s) <= GetEntries hm →
  Server.Set_ ToUpper s now db key value ttl = Some (s, false)
  ∧ Server.SetNX ToUpper s now db key value ttl = Some (s, false)
  ∧ (Get hm key = Some (false, "") →
     ∃ s' hm',
       Server.Incr ToUpper s now db key amount = Some (s', true)
       ∧ Server.dbs s' !! ToUpper db = Some hm'
       ∧ Get hm' key = Some (true, amount)
       ∧ length (entries hm') = S (length (entries hm))
       ∧ Entries hm' = u64 (Entries hm + 1)).
Proof.
  intros Hdb Hr Hcap. destruct (Reach.reachable_ok hm Hr) as [Hwf _].
  assert (Hce : Server.CheckEntries ToUpper s db = false).
  { unfold Server.CheckEntries. rewrite Hdb. apply Z.ltb_ge. lia. }
  split_and!.
  - unfold Server.Set_. by rewrite Hce.
  - unfold Server.SetNX. by rewrite Hce.
  - intros Hget. rewrite (Get_spec hm key Hwf) in Hget.
    assert (Hnone : em hm !! key = None).
    { unfold kv in Hget. rewrite lookup_fmap in Hget.
      by destruct (em hm !! key). }
    destruct (Incr_entry hm now 0 key amount Hwf)
      as (hm' & ok & E & Hwf' & Heff & _).
    unfold incr_effect in Heff. rewrite Hnone in Heff.
    destruct Heff as (-> & e & Hem & Hv & _).
    exists (Server.put ToUpper s db hm'), hm'. split_and!.
    + unfold Server.Incr. by rewrite Hdb, E.
    + unfold Server.put. cbn. apply lookup_insert_eq.
    + rewrite (Get_spec hm' key Hwf'). unfold kv.
      by rewrite Hem, lookup_fmap, lookup_insert_eq, <- Hv.
    + rewrite !length_entries, Hem by done.
      by apply map_size_insert_None.
    + rewrite (wf_count _ Hwf'), (wf_count _ Hwf), u64_succ.
      do 2 f_equal. rewrite !length_entries, Hem by done.
      by apply map_size_insert_None.
Qed.

(** The theorem at an empty database whose cap is 0. *)
Lemma cap_check_witness :
  let s := Server.mkServer {[id "DB" := empty_db]} 0 in
  Server.dbs s !! id "DB" = Some empty_db ∧ reachable empty_db
  ∧ i64 (Server.MAX_ENTRIES s) <= GetEntries empty_db
  ∧ Server.Set_ id s 1000 "DB" "k" "v" 0 = Some (s, false)
  ∧ Server.SetNX id s 1000 "DB" "k" "v" 0 = Some (s, false)
  ∧ (Get empty_db "k" = Some (false, "") →
     ∃ s' hm',
       Server.Incr id s 1000 "DB" "k" "7" = Some (s', true)
       ∧ Server.dbs s' !! id "DB" = Some hm'
       ∧ Get hm' "k" = Some (true, "7")
       ∧ length (entries hm') = S (length (entries empty_db))
       ∧ Entries hm' = u64 (Entries empty_db + 1)).
Proof.
  intros s.
  assert (H1 : Server.dbs s !! id "DB" = Some empty_db)
    by apply lookup_singleton_eq.
  assert (H2 : i64 (Server.MAX_ENTRIES s) <= GetEntries empty_db)
    by (vm_compute; discriminate).
  split; [exact H1|]. split; [exact empty_db_reachable|]. split; [exact H2|].
  exact (cap_check id s empty_db 1000 0 "DB" "k" "v" "7" H1
           empty_db_reachable H2).
Defined.

(** The cap at work on the model: with a cap of 1 the second [Set] is
    refused, and three [Incr]s on new keys bring the count to 4. *)
Example cap_scenario :
  let s0 := Server.mkServer {[id "DB" := empty_db]} 1 in
  ('(s1, ok1) ← Server.Set_ id s0 1000 "DB" "a" "1" 0;
   '(s2, ok2) ← Server.Set_ id s1 1000 "DB" "b" "2" 0;
   '(s3, ok3) ← Server.SetNX id s2 1000 "DB" "c" "3" 0;
   '(s4, ok4) ← Server.Incr id s3 1000 "DB" "d" "4";
   '(s5, ok5) ← Server.Incr id s4 1000 "DB" "e" "5";
   '(s6, ok6) ← Server.Incr id s5 1000 "DB" "f" "6";
   hm ← Server.dbs s6 !! id "DB";
   Some (ok1, ok2, ok3, ok4, ok5, ok6, GetEntries hm))
  = Some (true, false, false, true, true, true, 4).
Proof. vm_compute. reflexivity. Qed.

Lemma dropped_run :
  Set_ empty_db 999 1 "k" "v" = Some (dropped_db, true)
  ∧ TTlManager dropped_db = TTlManager empty_db
  ∧ delEntries dropped_db 2000 = Some dropped_swept
  ∧ Get dropped_swept "k" = Some (true, "v").
Proof. split_and!; vm_compute; reflexivity. Qed.

(** C7, counterexample. The entry is dropped by the manager, which stays
    empty; it is in the table and is still there after the sweep. *)
Lemma dropped_entry_stays :
  ¬ dropped_entry_is_deleted empty_db 999 1 2000 "k" "v".
Proof.
  intros H. destruct dropped_run as (E1 & _ & E2 & Hg).
  specialize (H dropped_db dropped_swept E1 ltac:(lia)
                ltac:(vm_compute; discriminate) E2).
  congruence.
Qed.

(** C7, amended. [addEntry] of an entry with a TTL above 0 returns. It
    computes [future = now + ttl] in [int64]. When [future] is not after
    the watermark the manager is left as it is. Otherwise the key joins the
    set under second [future] in the shard that the low bits of the hash
    select, and nothing else in the manager changes. *)
Theorem addEntry_admission (t : TTLManager) (now : Z) (entry : Entry) :
  ttl_ok t → 0 < Ttl entry →
  let future := i64 (now + Ttl entry) in
  let i := Z.to_nat (Z.land (Hash entry) (u64 (numShards t - 1))) in
  (is_int64 (now + Ttl entry) → future = now + Ttl entry)
  ∧ (future <= lastDeleted t → addEntry t now entry = Some t)
  ∧ (lastDeleted t < future →
     ∃ shard,
       List t !! i = Some shard
       ∧ addEntry t now entry
         = Some (set_List t
                   (<[i := <[future := {[Key entry]}
                                       ∪ default ∅ (shard !! future)]> shard]>
                      (List t)))).
Proof.
  intros Hok Hpos future i. split_and!.
  - unfold is_int64, MinInt64, MaxInt64, future, i64. intros H.
    rewrite Z.mod_small; lia.
  - intros Hle. unfold addEntry.
    destruct (Z.leb_spec (Ttl entry) 0); [lia|].
    destruct (lookup_lt_is_Some_2 _ _ (shard_index_lt t entry Hok))
      as [shard ->].
    cbn [mbind option_bind]. fold future.
    by destruct (Z.leb_spec future (lastDeleted t)); [|lia].
  - intros Hlt. unfold addEntry.
    destruct (Z.leb_spec (Ttl entry) 0); [lia|].
    destruct (lookup_lt_is_Some_2 _ _ (shard_index_lt t entry Hok))
      as [shard Hs].
    exists shard. split; [exact Hs|]. rewrite Hs.
    cbn [mbind option_bind]. fold future.
    destruct (Z.leb_spec future (lastDeleted t)); [lia|].
    do 3 f_equal. fold i. f_equal.
    destruct (shard !! future); cbn [default]; [done|].
    symmetry. apply (right_id_L ∅ (∪)).
Qed.

(** The theorem at a manager of 128 shards whose watermark is 1000. *)
Lemma addEntry_admission_witness :
  let t := NewTTLManager 1000 8 16 in
  let entry := NewEntry 60 "k" "v" (XXHash64.HashString 0 "k") in
  ttl_ok t ∧ 0 < Ttl entry
  ∧ (is_int64 (1000 + Ttl entry) → i64 (1000 + Ttl entry) = 1000 + Ttl entry)
  ∧ (i64 (1000 + Ttl entry) <= lastDeleted t
     → addEntry t 1000 entry = Some t)
  ∧ (lastDeleted t < i64 (1000 + Ttl entry) →
     ∃ shard,
       List t !! Z.to_nat (Z.land (Hash entry) (u64 (numShards t - 1)))
       = Some shard
       ∧ addEntry t 1000 entry
         = Some (set_List t
                   (<[Z.to_nat (Z.land (Hash entry) (u64 (numShards t - 1)))
                      := <[i64 (1000 + Ttl entry)
                           := {[Key entry]}
                              ∪ default ∅ (shard !! i64 (1000 + Ttl entry))]>
                           shard]>
                      (List t)))).
Proof.
  intros t entry.
  assert (H1 : ttl_ok t) by (split; [vm_compute; discriminate|reflexivity]).
  assert (H2 : 0 < Ttl entry) by (cbn; lia).
  split; [exact H1|]. split; [exact H2|].
  exact (addEntry_admission t 1000 entry H1 H2).
Defined.

Lemma fill_reachable n hm :
  reachable hm → ∃ hm', fill n hm = Some hm' ∧ reachable hm'.
Proof.
  intros Hr. induction n as [|n (hm1 & E1 & Hr1)]; [by exists hm|].
  cbn [fill]. rewrite E1. cbn [mbind option_bind].
  destruct (Reach.reachable_ok hm1 Hr1) as [Hwf1 _].
  match goal with |- context [Set_ hm1 ?t ?l ?k ?v] =>
    destruct (Set_spec hm1 t l k v Hwf1) as (hm' & E & _)
  end.
  exists hm'. rewrite E. split; [done|].
  eapply reach_step; [exact Hr1|]. eapply step_Set, E.
Qed.

Lemma two_left_reachable : reachable two_left_db.
Proof.
  unfold two_left_db, two_left.
  destruct (fill_reachable 3 empty_db empty_db_reachable) as (hm & -> & Hr).
  cbn [mbind option_bind].
  destruct (Reach.reachable_ok hm Hr) as [Hwf _].
  destruct (Del_spec hm "k-0" Hwf) as (hm' & ok & E & _).
  rewrite E. cbn. eapply reach_step; [exact Hr|].
  eapply step_Del, E.
Qed.

(** C8, counterexample. With two entries and one deletion the words of the
    specification ask for compaction, and the tick of the scheduler leaves
    the database as it is: no signal, the counter not reset. *)
Lemma no_signal_below_three :
  two_left = Some two_left_db
  ∧ Entries two_left_db = 2 ∧ deletedEntries two_left_db = 1
  ∧ spec_compaction_due (Entries two_left_db) (deletedEntries two_left_db)
    = true
  ∧ ResizeChecker_step (0, two_left_db) Tick = Some (0, two_left_db, true).
Proof. split_and!; vm_compute; reflexivity. Qed.

(** C8, amended. On a tick the scheduler signals compaction exactly when
    more than two entries are live or more than two were deleted, and the
    deleted ones are at least half the live ones in [int64] division; it
    then resets the deleted-entry counter to 0, and a tick signals at most
    once. The other events of the scheduler never signal. Where the guard on
    the counts holds, the test is that of the specification. *)
Theorem compaction_signal (inputs : Z) (hm : HashMap) :
  reachable hm →
  0 <= Entries hm < 2 ^ 63 → 0 <= deletedEntries hm →
  let entries := Entries hm in
  let deleted := deletedEntries hm in
  (compaction_due entries deleted
   = ((2 <? entries) || (2 <? deleted))
     && spec_compaction_due entries deleted)
  ∧ (∃ hm', ResizeChecker_step (inputs, hm) Tick = Some (inputs, hm', true)
       ∧ if ((2 <? entries) || (2 <? deleted)) && (entries `quot` 2 <=? deleted)
         then AOF.compressing (Aof hm') = S (AOF.compressing (Aof hm))
              ∧ deletedEntries hm' = 0
         else hm' = hm)
  ∧ (∀ ev, ev ≠ Tick →
       ∃ inputs' hm' go,
         ResizeChecker_step (inputs, hm) ev = Some (inputs', hm', go)
         ∧ AOF.compressing (Aof hm') = AOF.compressing (Aof hm)
         ∧ deletedEntries hm' = deletedEntries hm).
Proof.
  intros Hr He Hd entries deleted.
  destruct (Reach.reachable_ok hm Hr) as [Hwf _].
  assert (Hi : i64 entries = entries).
  { unfold i64, entries. rewrite Z.mod_small; lia. }
  split_and!.
  - unfold compaction_due, spec_compaction_due. rewrite Hi.
    rewrite Z.quot_div_nonneg by (unfold entries; lia).
    destruct (Z.ltb_spec 2 entries) as [H2|H2]; cbn [orb andb].
    + by rewrite Z.max_l by lia.
    + destruct (Z.ltb_spec 2 deleted) as [H3|H3]; cbn [andb]; [|done].
      rewrite Z.max_r by lia. change (2 / 2) with 1.
      assert (entries / 2 <= 1) by (apply Z.div_le_upper_bound; lia).
      destruct (Z.leb_spec (entries / 2) deleted),
               (Z.leb_spec 1 deleted); try done; lia.
  - cbn [ResizeChecker_step]. fold entries deleted.
    unfold compaction_due. rewrite Hi.
    destruct (((2 <? entries) || (2 <? deleted))
              && (entries `quot` 2 <=? deleted)); eexists; done.
  - intros ev Hev. destruct ev; [| done |].
    + cbn [ResizeChecker_step].
      destruct (Z.rem (inputs + 1) 1000 =? 0).
      * assert (Hwf1 : wf (set_resizeCheck hm (Nat.pred (resizeCheck hm))))
          by (split; cbn; apply Hwf).
        destruct (CheckResize_spec _ Hwf1) as (hm' & E & _).
        destruct (CheckResize_fields _ _ E) as (Hde & Ha & _).
        rewrite E. cbn [mbind option_bind]. exists 0, hm', true.
        by rewrite Ha, Hde.
      * by eexists _, _, _.
    + by eexists _, _, _.
Qed.

(** The theorem at the database with two entries and one deletion, where
    the guard keeps the scheduler from signalling. *)
Lemma compaction_signal_witness :
  reachable two_left_db
  ∧ 0 <= Entries two_left_db < 2 ^ 63 ∧ 0 <= deletedEntries two_left_db
  ∧ (compaction_due (Entries two_left_db) (deletedEntries two_left_db)
     = ((2 <? Entries two_left_db) || (2 <? deletedEntries two_left_db))
       && spec_compaction_due (Entries two_left_db)
            (deletedEntries two_left_db))
  ∧ (∃ hm', ResizeChecker_step (7, two_left_db) Tick = Some (7, hm', true)
       ∧ if ((2 <? Entries two_left_db) || (2 <? deletedEntries two_left_db))
            && (Entries two_left_db `quot` 2 <=? deletedEntries two_left_db)
         then AOF.compressing (Aof hm')
              = S (AOF.compressing (Aof two_left_db))
              ∧ deletedEntries hm' = 0
         else hm' = two_left_db)
  ∧ (∀ ev, ev ≠ Tick →
       ∃ inputs' hm' go,
         ResizeChecker_step (7, two_left_db) ev = Some (inputs', hm', go)
         ∧ AOF.compressing (Aof hm') = AOF.compressing (Aof two_left_db)
         ∧ deletedEntries hm' = deletedEntries two_left_db).
Proof.
  assert (H1 : 0 <= Entries two_left_db < 2 ^ 63)
    by (vm_compute; split; [discriminate|reflexivity]).
  assert (H2 : 0 <= deletedEntries two_left_db)
    by (vm_compute; discriminate).
  split; [exact two_left_reachable|]. split; [exact H1|]. split; [exact H2|].
  exact (compaction_signal 7 two_left_db two_left_reachable H1 H2).
Defined.

(** The scheduler on the compaction scenario: ten keys, eight deleted. The
    tick signals once and resets the counter; the next tick does nothing. *)
Example compaction_scenario :
  (hm ← fill 10 empty_db;
   hm ← delEntriesFromHashMap hm
          ["k-0"; "k-1"; "k-2"; "k-3"; "k-4"; "k-5"; "k-6"; "k-7"];
   '(n1, hm1, _) ← ResizeChecker_step (0, hm) Tick;
   '(n2, hm2, _) ← ResizeChecker_step (n1, hm1) Tick;
   Some (Entries hm, deletedEntries hm,
         AOF.compressing (Aof hm1), deletedEntries hm1,
         AOF.compressing (Aof hm2), deletedEntries hm2))
  = Some (2, 8, 1%nat, 0, 1%nat, 0).
Proof. vm_compute. reflexivity. Qed.

(** [delEntry] looks for the bucket under the second it is given. Given a
    second under which the shard has no bucket, it leaves the manager as it
    is, whatever other buckets hold the key. *)
Lemma delEntry_other_second t entry ttl shard :
  List t !! shard_index t entry = Some shard → shard !! ttl = None →
  delEntry t entry ttl = Some t.
Proof. intros Hs Hn. unfold delEntry. by rewrite Hs; cbn; rewrite Hn. Qed.

(** C3. The code at an input on which it departs from the specification.
    [Set] calls [delEntry] with the entry's TTL, 10, where the membership
    sits under the second 1010: the membership is still there after the
    overwrite, and the sweep of second 1010 deletes the key that has no TTL
    any more. The same happens through [Del]: the membership outlives the
    entry, and the sweep takes the key that was set anew. *)
Theorem stale_membership_after_overwrite :
  (Set_ empty_db 1000 10 "k" "v" = Some (ttl_set, true)
   ∧ memberships (shard_of_k ttl_set) "k" = [1010]
   ∧ Set_ ttl_set 1001 0 "k" "w" = Some (ttl_cleared, true)
   ∧ GetAllEntriesAndCompress ttl_cleared = [mkAOFEntry "k" "w" 0]
   ∧ memberships (shard_of_k ttl_cleared) "k" = [1010]
   ∧ delEntries ttl_cleared 1010 = Some ttl_cleared_swept
   ∧ Get ttl_cleared_swept "k" = Some (false, ""))
  ∧ (Del ttl_set "k" = Some (ttl_deleted, true)
     ∧ GetAllEntriesAndCompress ttl_deleted = []
     ∧ memberships (shard_of_k ttl_deleted) "k" = [1010]
     ∧ Set_ ttl_deleted 1005 0 "k" "w" = Some (set_anew, true)
     ∧ delEntries set_anew 1010 = Some set_anew_swept
     ∧ Get set_anew_swept "k" = Some (false, "")).
Proof. split; split_and!; vm_compute; reflexivity. Qed.

(** * Further properties of the code *)

Module MoreFacts.

Lemma u64_minus_one x : u64 (x + (2 ^ 64 - 1)) = u64 (x - 1).
Proof.
  unfold u64. replace (x + (2 ^ 64 - 1)) with (x - 1 + 1 * 2 ^ 64) by lia.
  by rewrite Z.mod_add by lia.
Qed.

Lemma log_record_rest hm d :
  table (log_record hm d) = table hm
  ∧ Entries (log_record hm d) = Entries hm
  ∧ deletedEntries (log_record hm d) = deletedEntries hm
  ∧ TTlManager (log_record hm d) = TTlManager hm
  ∧ basketNum (log_record hm d) = basketNum hm
  ∧ seed (log_record hm d) = seed hm.
Proof. unfold log_record. by destruct (reset hm). Qed.

Lemma probe_rest hm :
  table (probe hm) = table hm
  ∧ Entries (probe hm) = Entries hm
  ∧ deletedEntries (probe hm) = deletedEntries hm
  ∧ TTlManager (probe hm) = TTlManager hm
  ∧ basketNum (probe hm) = basketNum hm
  ∧ seed (probe hm) = seed hm
  ∧ Aof (probe hm) = Aof hm.
Proof. unfold probe. by destruct (_ <? _)%nat. Qed.

(** What [Del] does to the counters, and that it leaves everything but the
    log alone when the key is not found. *)
Lemma Del_fields hm key hm' ok :
  Del hm key = Some (hm', ok) →
  (ok = true ∧ Entries hm' = u64 (Entries hm - 1)
   ∧ deletedEntries hm' = i64 (deletedEntries hm + 1))
  ∨ (ok = false ∧ hm' = log_record hm (AOF.mkData "del" key "" 0)).
Proof.
  unfold Del, getIndex. intros H.
  destruct (log_record_rest hm (AOF.mkData "del" key "" 0))
    as (_ & He & Hd & _).
  destruct (table _ !! _) as [basket|]; [|done]. cbn in H.
  destruct (find_item key basket) as [[pos item]|].
  - destruct (delEntry _ _ _) as [t|]; [|done]. cbn in H.
    injection H as <- <-. left. cbn. by rewrite He, Hd, u64_minus_one.
  - injection H as <- <-. by right.
Qed.

(** [Set] leaves the deletion counter alone. *)
Lemma Set_fields hm now ttl key value hm' ok :
  Set_ hm now ttl key value = Some (hm', ok) →
  deletedEntries hm' = deletedEntries hm.
Proof.
  unfold Set_, getIndex. intros H.
  destruct (log_record_rest hm (AOF.mkData "set" key value ttl))
    as (_ & _ & Hd & _).
  destruct (probe_rest (log_record hm (AOF.mkData "set" key value ttl)))
    as (_ & _ & Hd' & _).
  destruct (table _ !! _) as [basket|]; [|done]. cbn in H.
  destruct (find_item key basket) as [[pos item]|].
  - destruct (retime _ _ _ _) as [[t item']|]; [|done]. cbn in H.
    injection H as <- <-. cbn. by rewrite Hd', Hd.
  - destruct (addEntry _ _ _) as [t|]; [|done]. cbn in H.
    injection H as <- <-. cbn. by rewrite Hd', Hd.
Qed.

Lemma Get_other (m : gmap string string) key k v :
  k ≠ key →
  match <[key := v]> m !! k with
  | Some v => (true, v) | None => (false, "") end
  = match m !! k with Some v => (true, v) | None => (false, "") end.
Proof. intros. by rewrite lookup_insert_ne. Qed.

End MoreFacts.

(** X1. [Set] on a reachable table returns [true]. Afterwards the key holds
    the value and no other key has changed; the entry count has grown by one
    when the key was new and is unchanged when it was overwritten; the
    deletion counter and the bucket array are untouched. *)
Theorem Set_effect (hm : HashMap) (now ttl : Z) (key value : string) :
  reachable hm →
  ∃ hm' found cur,
    Set_ hm now ttl key value = Some (hm', true)
    ∧ Get hm key = Some (found, cur)
    ∧ Get hm' key = Some (true, value)
    ∧ (∀ k, k ≠ key → Get hm' k = Get hm k)
    ∧ Entries hm' = (if found then Entries hm else u64 (Entries hm + 1))
    ∧ deletedEntries hm' = deletedEntries hm
    ∧ GetBasketNum hm' = GetBasketNum hm.
Proof.
  intros Hr. destruct (Reach.reachable_ok hm Hr) as [Hwf _].
  destruct (Set_spec hm now ttl key value Hwf)
    as (hm' & E & Hwf' & Hkv & _ & _ & _ & Hlen).
  assert (Hcount : Entries hm'
                   = match kv hm !! key with
                     | Some _ => Entries hm
                     | None => u64 (Entries hm + 1)
                     end).
  { rewrite (wf_size hm' Hwf'), (wf_size hm Hwf), Hkv.
    destruct (kv hm !! key) as [v|] eqn:Hv.
    - by rewrite map_size_insert_Some.
    - by rewrite map_size_insert_None, u64_succ. }
  rewrite (Get_spec hm key Hwf).
  exists hm', (bool_decide (is_Some (kv hm !! key))),
    (default "" (kv hm !! key)).
  split; [exact E|]. split; [by destruct (kv hm !! key)|].
  split_and!.
  - by rewrite (Get_spec hm' key Hwf'), Hkv, lookup_insert_eq.
  - intros k Hk.
    by rewrite (Get_spec hm' k Hwf'), (Get_spec hm k Hwf), Hkv,
      lookup_insert_ne.
  - rewrite Hcount. by destruct (kv hm !! key).
  - exact (MoreFacts.Set_fields _ _ _ _ _ _ _ E).
  - unfold GetBasketNum. by rewrite Hlen.
Qed.

(** The theorem at the empty database. *)
Lemma Set_effect_witness :
  reachable empty_db
  ∧ ∃ hm' found cur,
      Set_ empty_db 1000 0 "k" "v" = Some (hm', true)
      ∧ Get empty_db "k" = Some (found, cur)
      ∧ Get hm' "k" = Some (true, "v")
      ∧ (∀ k, k ≠ "k" → Get hm' k = Get empty_db k)
      ∧ Entries hm'
        = (if found then Entries empty_db else u64 (Entries empty_db + 1))
      ∧ deletedEntries hm' = deletedEntries empty_db
      ∧ GetBasketNum hm' = GetBasketNum empty_db.
Proof.
  split; [exact empty_db_reachable|].
  exact (Set_effect empty_db 1000 0 "k" "v" empty_db_reachable).
Defined.

(** X2. [Del] on a reachable table returns whether the key was there.
    Afterwards the key is not found and no other key has changed. When the
    key was there the entry count goes down by one and the deletion counter
    up by one; when it was not, the counters, the bucket array and the
    expiration manager are as before. Outside replay a ["del"] record goes
    to the log in both cases. *)
Theorem Del_effect (hm : HashMap) (key : string) :
  reachable hm →
  ∃ hm' found cur,
    Del hm key = Some (hm', found)
    ∧ Get hm key = Some (found, cur)
    ∧ Get hm' key = Some (false, "")
    ∧ (∀ k, k ≠ key → Get hm' k = Get hm k)
    ∧ (if found
       then Entries hm' = u64 (Entries hm - 1)
            ∧ deletedEntries hm' = i64 (deletedEntries hm + 1)
       else Entries hm' = Entries hm
            ∧ deletedEntries hm' = deletedEntries hm
            ∧ table hm' = table hm
            ∧ TTlManager hm' = TTlManager hm)
    ∧ (reset hm = false →
       AOF.com (Aof hm') = AOF.com (Aof hm) ++ [AOF.mkData "del" key "" 0]).
Proof.
  intros Hr. destruct (Reach.reachable_ok hm Hr) as [Hwf _].
  destruct (Del_spec hm key Hwf)
    as (hm' & ok & E & Hwf' & Hkv & Hok & _ & _ & Haof & _).
  rewrite (Get_spec hm key Hwf).
  exists hm', ok, (default "" (kv hm !! key)).
  split; [exact E|].
  split; [rewrite Hok; by destruct (kv hm !! key)|]. split_and!.
  - by rewrite (Get_spec hm' key Hwf'), Hkv, lookup_delete_eq.
  - intros k Hk.
    by rewrite (Get_spec hm' k Hwf'), (Get_spec hm k Hwf), Hkv,
      lookup_delete_ne.
  - destruct (MoreFacts.Del_fields hm key hm' ok E)
      as [(-> & He & Hd)|(-> & ->)]; [done|].
    by destruct (MoreFacts.log_record_rest hm (AOF.mkData "del" key "" 0))
      as (? & ? & ? & ? & _).
  - intros Hl. rewrite Haof.
    by destruct (logged hm (AOF.mkData "del" key "" 0) Hl).
Qed.

(** The theorem at the empty database. *)
Lemma Del_effect_witness :
  reachable empty_db
  ∧ ∃ hm' found cur,
      Del empty_db "k" = Some (hm', found)
      ∧ Get empty_db "k" = Some (found, cur)
      ∧ Get hm' "k" = Some (false, "")
      ∧ (∀ k, k ≠ "k" → Get hm' k = Get empty_db k)
      ∧ (if found
         then Entries hm' = u64 (Entries empty_db - 1)
              ∧ deletedEntries hm' = i64 (deletedEntries empty_db + 1)
         else Entries hm' = Entries empty_db
              ∧ deletedEntries hm' = deletedEntries empty_db
              ∧ table hm' = table empty_db
              ∧ TTlManager hm' = TTlManager empty_db)
      ∧ (reset empty_db = false →
         AOF.com (Aof hm')
         = AOF.com (Aof empty_db) ++ [AOF.mkData "del" "k" "" 0]).
Proof.
  split; [exact empty_db_reachable|].
  exact (Del_effect empty_db "k" empty_db_reachable).
Defined.

Lemma counter_db_reachable : reachable counter_db.
Proof.
  destruct (Reach.reachable_ok _ empty_db_reachable) as [Hwf _].
  destruct (Set_spec empty_db 1000 0 "counter" "100" Hwf) as (hm' & E & _).
  unfold counter_db. rewrite E. cbn.
  eapply reach_step; [exact empty_db_reachable|]. eapply step_Set, E.
Qed.

Lemma i64_add_l a b : i64 (i64 a + b) = i64 (a + b).
Proof.
  unfold i64. f_equal.
  replace ((a + 2 ^ 63) mod 2 ^ 64 - 2 ^ 63 + b + 2 ^ 63)
    with ((a + 2 ^ 63) mod 2 ^ 64 + b) by lia.
  rewrite Zplus_mod_idemp_l. f_equal. lia.
Qed.

(** X3. Two increments of a numeric value compose: on a reachable table
    whose key holds a string that parses to [v], [Incr] by [x] and then by
    [y] both return [true] and leave the decimal form of [v + x + y], wrapped
    to [int64], under the key; no other key changes. *)
Theorem Incr_twice (hm : HashMap) (now now' ttl ttl' : Z)
    (key a b cur : string) (v x y : Z) :
  reachable hm → Get hm key = Some (true, cur) →
  Strconv.ParseInt cur = Some v → Strconv.ParseInt a = Some x →
  Strconv.ParseInt b = Some y →
  ∃ hm1 hm2,
    Incr hm now ttl key a = Some (hm1, true)
    ∧ Incr hm1 now' ttl' key b = Some (hm2, true)
    ∧ Get hm2 key = Some (true, Strconv.FormatInt (i64 (v + x + y)))
    ∧ ∀ k, k ≠ key → Get hm2 k = Get hm k.
Proof.
  intros Hr Hget Hv Hx Hy. destruct (Reach.reachable_ok hm Hr) as [Hwf _].
  rewrite (Get_spec hm key Hwf) in Hget.
  assert (Hcur : kv hm !! key = Some cur)
    by (destruct (kv hm !! key); congruence).
  destruct (Incr_spec hm now ttl key a Hwf)
    as (hm1 & ok1 & E1 & Hwf1 & Hkv1 & _).
  unfold incr_kv in Hkv1. rewrite Hcur, Hv, Hx in Hkv1.
  injection Hkv1 as Hkv1 ->.
  destruct (Incr_spec hm1 now' ttl' key b Hwf1)
    as (hm2 & ok2 & E2 & Hwf2 & Hkv2 & _).
  unfold incr_kv in Hkv2.
  rewrite Hkv1, lookup_insert_eq, Hy in Hkv2.
  rewrite (StrconvFacts.ParseInt_FormatInt _ (StrconvFacts.i64_range _))
    in Hkv2.
  injection Hkv2 as Hkv2 ->.
  exists hm1, hm2. split; [done|]. split; [done|]. split.
  - by rewrite (Get_spec hm2 key Hwf2), Hkv2, lookup_insert_eq, i64_add_l.
  - intros k Hk.
    by rewrite (Get_spec hm2 k Hwf2), (Get_spec hm k Hwf), Hkv2,
      !lookup_insert_ne.
Qed.

(** The theorem at a counter that holds 100, incremented by 50 and by -10. *)
Lemma Incr_twice_witness :
  reachable counter_db ∧ Get counter_db "counter" = Some (true, "100")
  ∧ Strconv.ParseInt "100" = Some 100 ∧ Strconv.ParseInt "50" = Some 50
  ∧ Strconv.ParseInt "-10" = Some (-10)
  ∧ ∃ hm1 hm2,
      Incr counter_db 1000 0 "counter" "50" = Some (hm1, true)
      ∧ Incr hm1 1001 0 "counter" "-10" = Some (hm2, true)
      ∧ Get hm2 "counter"
        = Some (true, Strconv.FormatInt (i64 (100 + 50 + -10)))
      ∧ ∀ k, k ≠ "counter" → Get hm2 k = Get counter_db k.
Proof.
  assert (Hg : Get counter_db "counter" = Some (true, "100"))
    by (vm_compute; reflexivity).
  split; [exact counter_db_reachable|]. split; [exact Hg|].
  split; [reflexivity|]. split; [reflexivity|]. split; [reflexivity|].
  exact (Incr_twice counter_db 1000 1001 0 0 "counter" "50" "-10" "100"
           100 50 (-10) counter_db_reachable Hg eq_refl eq_refl eq_refl).
Defined.

Lemma snapshot_keys hm :
  ae_Key <$> GetAllEntriesAndCompress hm = keys hm.
Proof.
  unfold GetAllEntriesAndCompress, keys, entries.
  induction (concat (table hm)) as [|e l IH]; [done|].
  cbn. by rewrite IH.
Qed.

Lemma em_elem hm k e :
  wf hm → em hm !! k = Some e ↔ e ∈ entries hm ∧ Key e = k.
Proof.
  intros Hwf. unfold em.
  rewrite <- elem_of_list_to_map.
  - rewrite list_elem_of_fmap. unfold pair_of. split.
    + intros (e' & [= -> ->] & He). done.
    + intros [He <-]. by exists e.
  - rewrite <- list_fmap_compose. exact (wf_nodup hm Hwf).
Qed.

(** X4. The snapshot handed to the compaction, [GetAllEntriesAndCompress],
    on a reachable table: it names every key once; it holds a record with
    key [k] and value [v] exactly when [Get] finds [v] under [k]; and its
    length is the entry count. *)
Theorem snapshot_faithful (hm : HashMap) :
  reachable hm →
  NoDup (ae_Key <$> GetAllEntriesAndCompress hm)
  ∧ (∀ k v, (∃ t, mkAOFEntry k v t ∈ GetAllEntriesAndCompress hm)
            ↔ Get hm k = Some (true, v))
  ∧ Entries hm = u64 (Z.of_nat (length (GetAllEntriesAndCompress hm))).
Proof.
  intros Hr. destruct (Reach.reachable_ok hm Hr) as [Hwf _]. split_and!.
  - rewrite snapshot_keys. exact (wf_nodup hm Hwf).
  - intros k v. rewrite (Get_spec hm k Hwf). unfold kv.
    rewrite lookup_fmap. unfold GetAllEntriesAndCompress.
    fold (entries hm). split.
    + intros (t & Hin). apply list_elem_of_In, in_map_iff in Hin.
      destruct Hin as (e & [= <- <- <-] & He).
      apply list_elem_of_In in He.
      by rewrite (proj2 (em_elem hm (Key e) e Hwf) (conj He eq_refl)).
    + destruct (em hm !! k) as [e|] eqn:He; [|done].
      cbn. intros [= <-]. apply (em_elem hm k e Hwf) in He as [He <-].
      exists (Ttl e). apply list_elem_of_In, in_map_iff.
      exists e. split; [done|]. by apply list_elem_of_In.
  - rewrite (wf_count hm Hwf). unfold GetAllEntriesAndCompress, entries.
    by rewrite length_map.
Qed.

(** The theorem at the database that holds one counter. *)
Lemma snapshot_faithful_witness :
  reachable counter_db
  ∧ NoDup (ae_Key <$> GetAllEntriesAndCompress counter_db)
  ∧ (∀ k v, (∃ t, mkAOFEntry k v t ∈ GetAllEntriesAndCompress counter_db)
            ↔ Get counter_db k = Some (true, v))
  ∧ Entries counter_db
    = u64 (Z.of_nat (length (GetAllEntriesAndCompress counter_db))).
Proof.
  split; [exact counter_db_reachable|].
  exact (snapshot_faithful counter_db counter_db_reachable).
Defined.

(** X5. Growing the table changes nothing a client can see. On a reachable
    table [checkNewBasket] returns, doubles the bucket array and leaves
    every [Get], the entry count, the deletion counter, the log and the
    expiration manager as they were; so does [CheckResize], whether it
    grows the table or not. *)
Theorem resize_invisible (hm : HashMap) :
  reachable hm →
  (∃ hm', checkNewBasket hm = Some hm'
     ∧ GetBasketNum hm' = 2 * GetBasketNum hm
     ∧ (∀ key, Get hm' key = Get hm key)
     ∧ GetEntries hm' = GetEntries hm
     ∧ deletedEntries hm' = deletedEntries hm
     ∧ Aof hm' = Aof hm ∧ TTlManager hm' = TTlManager hm)
  ∧ (∃ hm', CheckResize hm = Some hm'
       ∧ (∀ key, Get hm' key = Get hm key)
       ∧ GetEntries hm' = GetEntries hm
       ∧ deletedEntries hm' = deletedEntries hm
       ∧ Aof hm' = Aof hm ∧ TTlManager hm' = TTlManager hm).
Proof.
  intros Hr. destruct (Reach.reachable_ok hm Hr) as [Hwf _]. split.
  - destruct (checkNewBasket_spec hm Hwf)
      as (hm' & E & Hwf' & Hp & Hb & Hl & Heq).
    exists hm'. split; [done|]. split_and!.
    + unfold GetBasketNum. rewrite Hl. lia.
    + intros key.
      by rewrite (Get_spec hm' key Hwf'), (Get_spec hm key Hwf),
        (kv_perm hm hm' Hwf Hp).
    + by rewrite Heq.
    + by rewrite Heq.
    + by rewrite Heq.
    + by rewrite Heq.
  - destruct (CheckResize_spec hm Hwf)
      as (hm' & E & Hwf' & Hkv & _ & _ & _ & _ & He & _).
    destruct (CheckResize_fields hm hm' E) as (Hd & Ha & Ht & _).
    exists hm'. split; [done|]. split_and!; try done.
    + intros key.
      by rewrite (Get_spec hm' key Hwf'), (Get_spec hm key Hwf), Hkv.
    + unfold GetEntries. by rewrite He.
Qed.

(** The theorem at the database that holds one counter. *)
Lemma resize_invisible_witness :
  reachable counter_db
  ∧ (∃ hm', checkNewBasket counter_db = Some hm'
       ∧ GetBasketNum hm' = 2 * GetBasketNum counter_db
       ∧ (∀ key, Get hm' key = Get counter_db key)
       ∧ GetEntries hm' = GetEntries counter_db
       ∧ deletedEntries hm' = deletedEntries counter_db
       ∧ Aof hm' = Aof counter_db
       ∧ TTlManager hm' = TTlManager counter_db)
    ∧ (∃ hm', CheckResize counter_db = Some hm'
         ∧ (∀ key, Get hm' key = Get counter_db key)
         ∧ GetEntries hm' = GetEntries counter_db
         ∧ deletedEntries hm' = deletedEntries counter_db
         ∧ Aof hm' = Aof counter_db
         ∧ TTlManager hm' = TTlManager counter_db).
Proof.
  split; [exact counter_db_reachable|].
  exact (resize_invisible counter_db counter_db_reachable).
Defined.

Module MaskFacts.

Lemma lxor_range a b n :
  0 <= n → 0 <= a < 2 ^ n → 0 <= b < 2 ^ n → 0 <= Z.lxor a b < 2 ^ n.
Proof.
  intros Hn Ha Hb.
  assert (H0 : 0 <= Z.lxor a b) by (apply Z.lxor_nonneg; lia).
  split; [done|].
  destruct (Z.eq_dec (Z.lxor a b) 0) as [->|Hne]; [lia|].
  assert (0 < n).
  { destruct (Z.eq_dec n 0) as [->|]; [|lia].
    assert (a = 0) by lia. assert (b = 0) by lia. by subst. }
  apply Z.log2_lt_pow2; [lia|].
  pose proof (Z.log2_lxor a b ltac:(lia) ltac:(lia)) as Hl.
  assert (Z.log2 a < n).
  { destruct (Z.eq_dec a 0) as [->|]; [cbn; lia|].
    apply Z.log2_lt_pow2; lia. }
  assert (Z.log2 b < n).
  { destruct (Z.eq_dec b 0) as [->|]; [cbn; lia|].
    apply Z.log2_lt_pow2; lia. }
  lia.
Qed.

Lemma u64_range z : 0 <= u64 z < 2 ^ 64.
Proof. unfold u64. apply Z.mod_pos_bound. lia. Qed.

Lemma shiftr_range a n : 0 <= n → 0 <= a < 2 ^ 64 → 0 <= Z.shiftr a n < 2 ^ 64.
Proof.
  intros Hn Ha. rewrite Z.shiftr_div_pow2 by lia.
  assert (0 < 2 ^ n) by (apply Z.pow_pos_nonneg; lia).
  split; [apply Z.div_pos; lia|].
  apply Z.div_lt_upper_bound; [lia|]. nia.
Qed.

(** The hash is a [uint64]. *)
Lemma HashString_range seed_ s : 0 <= XXHash64.HashString seed_ s < 2 ^ 64.
Proof.
  unfold XXHash64.HashString. destruct (len s =? 0); [lia|].
  unfold XXHash64.xxhash64_scalar_seed, XXHash64.xxh_finalize.
  repeat match goal with
         | |- context [let '(_, _) := ?x in _] => destruct x
         end.
  apply lxor_range; [lia|apply u64_range|].
  apply shiftr_range; [lia|apply u64_range].
Qed.

(** On a [uint64] the mask of a power of two is the remainder. *)
Lemma land_mask h n :
  0 <= n → 0 <= h < 2 ^ 64 → Z.land h (u64 (2 ^ n - 1)) = h mod 2 ^ n.
Proof.
  intros Hn Hh. destruct (Z.le_gt_cases n 64) as [Hle|Hgt].
  - assert (2 ^ n <= 2 ^ 64) by (apply Z.pow_le_mono_r; lia).
    assert (0 < 2 ^ n) by (apply Z.pow_pos_nonneg; lia).
    unfold u64. rewrite Z.mod_small by lia.
    replace (2 ^ n - 1) with (Z.ones n) by (rewrite Z.ones_equiv; lia).
    by apply Z.land_ones.
  - assert (2 ^ 64 < 2 ^ n) by (apply Z.pow_lt_mono_r; lia).
    replace (u64 (2 ^ n - 1)) with (2 ^ 64 - 1).
    + replace (2 ^ 64 - 1) with (Z.ones 64) by (rewrite Z.ones_equiv; lia).
      rewrite Z.land_ones by lia. rewrite !Z.mod_small; lia.
    + unfold u64.
      replace (2 ^ n - 1) with (2 ^ 64 - 1 + (2 ^ (n - 64) - 1) * 2 ^ 64).
      * rewrite Z.mod_add by lia. rewrite Z.mod_small; lia.
      * replace n with (64 + (n - 64)) at 2 by lia.
        rewrite Z.pow_add_r by lia. lia.
Qed.

Lemma reachable_pow2 hm :
  reachable hm →
  wf hm ∧ ∃ n, 11 <= n ∧ Z.of_nat (length (table hm)) = 2 ^ n.
Proof.
  intros Hr. destruct (Reach.reachable_ok hm Hr) as [Hwf [k Hk]].
  split; [done|]. exists (11 + Z.of_nat k). split; [lia|].
  rewrite Hk, Nat2Z.inj_mul, Nat2Z.inj_pow, Z.pow_add_r by lia. done.
Qed.

End MaskFacts.

(** X6. On a reachable table [getIndex] returns the hash of the key, a
    [uint64], and as index the hash modulo the bucket count: the mask
    [basketNum - 1] is a remainder because the bucket count is a power of
    two. The index is a position of the bucket array. *)
Theorem getIndex_mod (hm : HashMap) (key : string) :
  reachable hm →
  let h := XXHash64.HashString (seed hm) key in
  getIndex hm key = (h mod GetBasketNum hm, h)
  ∧ 0 <= h < 2 ^ 64
  ∧ 0 <= h mod GetBasketNum hm < GetBasketNum hm.
Proof.
  intros Hr h. destruct (MaskFacts.reachable_pow2 hm Hr) as [Hwf (n & Hn & Hl)].
  pose proof (MaskFacts.HashString_range (seed hm) key) as Hh. fold h in Hh.
  unfold GetBasketNum. rewrite Hl.
  assert (0 < 2 ^ n) by (apply Z.pow_pos_nonneg; lia).
  split; [|split; [exact Hh|apply Z.mod_pos_bound; lia]].
  unfold getIndex. fold h. rewrite (wf_len hm Hwf), Hl.
  by rewrite MaskFacts.land_mask by lia.
Qed.

(** The theorem at the empty database. *)
Lemma getIndex_mod_witness :
  reachable empty_db
  ∧ getIndex empty_db "k"
    = (XXHash64.HashString (seed empty_db) "k" mod GetBasketNum empty_db,
       XXHash64.HashString (seed empty_db) "k")
  ∧ 0 <= XXHash64.HashString (seed empty_db) "k" < 2 ^ 64
  ∧ 0 <= XXHash64.HashString (seed empty_db) "k" mod GetBasketNum empty_db
    < GetBasketNum empty_db.
Proof.
  split; [exact empty_db_reachable|].
  exact (getIndex_mod empty_db "k" empty_db_reachable).
Defined.

(** X7. Doubling splits every basket in two: on a reachable table with [B]
    buckets, [checkNewBasket] moves each entry of basket [i] to basket [i] or
    to basket [i + B] of the new array, and nowhere else. *)
Theorem resize_splits (hm : HashMap) :
  reachable hm →
  ∃ hm', checkNewBasket hm = Some hm'
    ∧ ∀ i b e, table hm !! i = Some b → e ∈ b →
        ∃ b', e ∈ b'
          ∧ (table hm' !! i = Some b'
             ∨ table hm' !! (i + length (table hm))%nat = Some b').
Proof.
  intros Hr. destruct (MaskFacts.reachable_pow2 hm Hr) as [Hwf (n & Hn & Hl)].
  destruct (checkNewBasket_spec hm Hwf) as (hm' & E & Hwf' & Hp & Hb & _).
  exists hm'. split; [done|]. intros i b e Hi He.
  assert (He' : e ∈ entries hm').
  { rewrite Hp. apply elem_of_concat_lookup. eauto. }
  apply elem_of_concat_lookup in He' as (j & b' & Hj & Hej).
  exists b'. split; [done|].
  pose proof (wf_place hm Hwf i b Hi) as Hpl.
  rewrite Forall_forall in Hpl. destruct (Hpl e He) as [Hh Hidx].
  pose proof (wf_place hm' Hwf' j b' Hj) as Hpl'.
  rewrite Forall_forall in Hpl'. destruct (Hpl' e Hej) as [_ Hidx'].
  rewrite Hb, (wf_len hm Hwf), Hl in Hidx'.
  rewrite (wf_len hm Hwf), Hl in Hidx.
  pose proof (MaskFacts.HashString_range (seed hm) (Key e)) as Hrange.
  rewrite <- Hh in Hrange.
  assert (H2 : 0 < 2 ^ n) by (apply Z.pow_pos_nonneg; lia).
  replace (2 * 2 ^ n) with (2 ^ (n + 1)) in Hidx'
    by (rewrite Z.pow_add_r by lia; lia).
  rewrite MaskFacts.land_mask in Hidx, Hidx' by lia.
  replace (2 ^ (n + 1)) with (2 ^ n * 2) in Hidx'
    by (rewrite Z.pow_add_r by lia; lia).
  rewrite Z.rem_mul_r in Hidx' by lia.
  pose proof (Z.mod_pos_bound (Hash e) (2 ^ n) H2) as Hm.
  pose proof (Z.mod_pos_bound (Hash e / 2 ^ n) 2 ltac:(lia)) as Hbit.
  assert (Hcase : (Hash e / 2 ^ n) mod 2 = 0 ∨ (Hash e / 2 ^ n) mod 2 = 1)
    by lia.
  destruct Hcase as [H0|H1].
  - left. rewrite H0, Z.mul_0_r, Z.add_0_r in Hidx'. congruence.
  - right. rewrite H1, Z.mul_1_r in Hidx'.
    replace (i + length (table hm))%nat with j; [done|].
    rewrite <- Hidx', <- Hidx. lia.
Qed.

(** The theorem at the database that holds one counter. *)
Lemma resize_splits_witness :
  reachable counter_db
  ∧ ∃ hm', checkNewBasket counter_db = Some hm'
      ∧ ∀ i b e, table counter_db !! i = Some b → e ∈ b →
          ∃ b', e ∈ b'
            ∧ (table hm' !! i = Some b'
               ∨ table hm' !! (i + length (table counter_db))%nat = Some b').
Proof.
  split; [exact counter_db_reachable|].
  exact (resize_splits counter_db counter_db_reachable).
Defined.

(** X8. Opening a database never fails on the content of its log file:
    whatever bytes the file holds, [NewHashMap] returns a table. The replay
    is over, the log is open for appending behind those bytes, the bucket
    count is a power of two from 2048 on, no key occurs twice and the entry
    count is the number of keys. *)
Theorem open_any_file (now ncpu mult seed_ : Z) (sc : sched)
    (bytes : list ascii) :
  cpu_ok ncpu mult →
  ∃ hm, NewHashMap now ncpu mult seed_ sc (Some bytes) = Some hm
    ∧ reachable hm
    ∧ reset hm = false
    ∧ Aof hm = AOF.mkAOF [] bytes 0
    ∧ (∃ n, 11 <= n ∧ GetBasketNum hm = 2 ^ n)
    ∧ NoDup (keys hm)
    ∧ Entries hm = u64 (Z.of_nat (length (keys hm))).
Proof.
  intros Hc.
  destruct (Reach.NewHashMap_ok now ncpu mult seed_ sc (Some bytes) Hc)
    as (hm & E & _).
  assert (Hr : reachable hm) by (eapply reach_new; eauto).
  destruct (MaskFacts.reachable_pow2 hm Hr) as [Hwf (n & Hn & Hl)].
  exists hm. split; [done|]. split; [done|].
  unfold NewHashMap in E.
  destruct (ReplayAOF _ _ _) as [hm'|]; [|done]. injection E as <-.
  split_and!; try done.
  - exists n. done.
  - exact (wf_nodup _ Hwf).
  - rewrite (wf_count _ Hwf). unfold keys. by rewrite length_fmap.
Qed.

(** The theorem at a file of three bytes that are no frame. *)
Lemma open_any_file_witness :
  cpu_ok 8 16
  ∧ ∃ hm, NewHashMap 1000 8 16 0 quiet (Some ["a"; "b"; "c"]%char) = Some hm
      ∧ reachable hm
      ∧ reset hm = false
      ∧ Aof hm = AOF.mkAOF [] ["a"; "b"; "c"]%char 0
      ∧ (∃ n, 11 <= n ∧ GetBasketNum hm = 2 ^ n)
      ∧ NoDup (keys hm)
      ∧ Entries hm = u64 (Z.of_nat (length (keys hm))).
Proof.
  assert (Hc : cpu_ok 8 16) by (unfold cpu_ok; lia).
  split; [exact Hc|].
  exact (open_any_file 1000 8 16 0 quiet ["a"; "b"; "c"]%char Hc).
Defined.

(** X9. [LowerPowerOfTwo] on a [uint64]: up to 2 it returns 2; above 2 and
    up to 2^63 it returns the least power of two that is not below its
    argument; above 2^63 the shift leaves the 64 bits and it returns 0. *)
Theorem LowerPowerOfTwo_spec (shards : Z) :
  0 <= shards < 2 ^ 64 →
  (shards <= 2 → LowerPowerOfTwo shards = 2)
  ∧ (2 < shards <= 2 ^ 63 →
     ∃ k, LowerPowerOfTwo shards = 2 ^ k
          ∧ 2 ^ (k - 1) < shards <= 2 ^ k)
  ∧ (2 ^ 63 < shards → LowerPowerOfTwo shards = 0).
Proof.
  intros Hs. unfold LowerPowerOfTwo, Len64. split_and!.
  - intros H. by destruct (Z.leb_spec shards 2); [|lia].
  - intros [H2 H63]. destruct (Z.leb_spec shards 2); [lia|].
    destruct (Z.leb_spec (shards - 1) 0); [lia|].
    pose proof (Z.log2_spec (shards - 1) ltac:(lia)) as [Hlo Hhi].
    pose proof (Z.log2_nonneg (shards - 1)) as Hnn.
    set (L := Z.log2 (shards - 1)) in *.
    assert (HL : L < 63).
    { apply Z.log2_lt_pow2; lia. }
    exists (L + 1). rewrite Z.shiftl_1_l.
    replace (L + 1 - 1) with L by lia.
    replace (Z.succ L) with (L + 1) in Hhi by lia.
    assert (2 ^ (L + 1) <= 2 ^ 63) by (apply Z.pow_le_mono_r; lia).
    unfold u64. rewrite Z.mod_small by lia. lia.
  - intros H63. destruct (Z.leb_spec shards 2); [lia|].
    destruct (Z.leb_spec (shards - 1) 0); [lia|].
    assert (HL : Z.log2 (shards - 1) = 63).
    { apply Z.log2_unique; lia. }
    rewrite HL. reflexivity.
Qed.

(** The theorem at 100 shards, where the result is 128. *)
Lemma LowerPowerOfTwo_spec_witness :
  0 <= 100 < 2 ^ 64
  ∧ (100 <= 2 → LowerPowerOfTwo 100 = 2)
  ∧ (2 < 100 <= 2 ^ 63 →
     ∃ k, LowerPowerOfTwo 100 = 2 ^ k ∧ 2 ^ (k - 1) < 100 <= 2 ^ k)
  ∧ (2 ^ 63 < 100 → LowerPowerOfTwo 100 = 0).
Proof.
  assert (H : 0 <= 100 < 2 ^ 64) by lia.
  split; [exact H|]. exact (LowerPowerOfTwo_spec 100 H).
Defined.

Module TTLFacts.

Lemma member_set_List t l j s k :
  member (set_List t l) j s k
  ↔ ∃ em b, l !! j = Some em ∧ em !! s = Some b ∧ k ∈ b.
Proof. done. Qed.

(** The memberships after [delEntry]. *)
Lemma delEntry_member t e s :
  ttl_ok t →
  ∃ t', delEntry t e s = Some t' ∧ ttl_ok t'
    ∧ lastDeleted t' = lastDeleted t ∧ numShards t' = numShards t
    ∧ (∀ j s' k, member t' j s' k
                 ↔ member t j s' k
                   ∧ ¬ (j = shard_index t e ∧ s' = s ∧ k = Key e))
    ∧ (∀ em, List t' !! shard_index t e = Some em → em !! s ≠ Some ∅)
    ∧ (∀ j em, List t !! j = Some em → em !! s = None →
               List t' !! j = Some em).
Proof.
  intros Hok. unfold delEntry.
  pose proof (shard_index_lt t e Hok) as Hlt.
  destruct (lookup_lt_is_Some_2 _ _ Hlt) as [em Hem].
  rewrite Hem. cbn [mbind option_bind].
  destruct (em !! s) as [bucket|] eqn:Hb.
  - eexists. split; [reflexivity|].
    set (bucket' := bucket ∖ {[Key e]}).
    set (em' := if decide (size bucket' = 0%nat) then delete s em
                else <[s := bucket']> em).
    assert (Hem' : ∀ s' k,
               (∃ b, em' !! s' = Some b ∧ k ∈ b)
               ↔ (∃ b, em !! s' = Some b ∧ k ∈ b)
                 ∧ ¬ (s' = s ∧ k = Key e)).
    { intros s' k. unfold em'. destruct (decide (s' = s)) as [->|Hne].
      - case_decide as Hsz.
        + apply size_empty_inv in Hsz. apply leibniz_equiv in Hsz.
          rewrite lookup_delete_eq. split.
          * intros (b & ? & _). done.
          * intros [(b & Hb' & Hk) Hn]. rewrite Hb in Hb'.
            injection Hb' as <-. exfalso.
            assert (k ∈ bucket') by (unfold bucket'; set_solver).
            rewrite Hsz in H. set_solver.
        + rewrite lookup_insert_eq. split.
          * intros (b & [= <-] & Hk). unfold bucket' in Hk. split.
            -- exists bucket. split; [done|].
               by apply elem_of_difference in Hk as [Hk _].
            -- intros [_ ->]. apply elem_of_difference in Hk as [_ Hk].
               apply Hk. by apply elem_of_singleton.
          * intros [(b & Hb' & Hk) Hn]. rewrite Hb in Hb'.
            injection Hb' as <-. exists bucket'. split; [done|].
            unfold bucket'. apply elem_of_difference. split; [done|].
            intros Hin. apply elem_of_singleton in Hin. by apply Hn.
      - assert (em' !! s' = em !! s') as Heq.
        { unfold em'. case_decide.
          - by rewrite lookup_delete_ne.
          - by rewrite lookup_insert_ne. }
        unfold em' in Heq. rewrite Heq. split.
        + intros H. split; [done|]. by intros [? _].
        + by intros [H _]. }
    split_and!.
    + destruct Hok as [H1 H2]. split; [done|]. cbn. by rewrite length_insert.
    + done.
    + done.
    + intros j s' k. rewrite member_set_List.
      destruct (decide (j = shard_index t e)) as [->|Hj].
      * rewrite list_lookup_insert_eq by done. split.
        -- intros (em0 & b & [= <-] & Hb' & Hk).
           destruct (proj1 (Hem' s' k) (ex_intro _ b (conj Hb' Hk)))
             as [(b0 & Hb0 & Hk0) Hn].
           split; [by exists em, b0|]. intros (_ & -> & ->). by apply Hn.
        -- intros [(em0 & b & Hem0 & Hb' & Hk) Hn].
           rewrite Hem in Hem0. injection Hem0 as <-.
           destruct (proj2 (Hem' s' k)) as (b1 & Hb1 & Hk1).
           { split; [by exists b|]. intros [-> ->]. by apply Hn. }
           by exists em', b1.
      * rewrite list_lookup_insert_ne by done. split.
        -- intros H. split; [done|]. by intros [? _].
        -- by intros [H _].
    + intros em0. cbn. rewrite list_lookup_insert_eq by done.
      intros [= <-]. unfold em'. case_decide as Hsz.
      * by rewrite lookup_delete_eq.
      * rewrite lookup_insert_eq. intros [= Hempty].
        apply Hsz. rewrite Hempty. apply size_empty.
    + intros j em0 Hj Hn. cbn.
      destruct (decide (j = shard_index t e)) as [->|Hne].
      * rewrite Hem in Hj. injection Hj as <-. congruence.
      * by rewrite list_lookup_insert_ne.
  - exists t. split; [done|]. split_and!; try done.
    + intros j s' k. split.
      * intros H. split; [done|]. intros (-> & -> & ->).
        destruct H as (em0 & b & Hem0 & Hb0 & _). congruence.
      * by intros [H _].
    + intros em0 Hem0. congruence.
Qed.

(** The memberships after [addEntry] has admitted an entry. *)
Lemma addEntry_member t now e :
  ttl_ok t → 0 < Ttl e → lastDeleted t < i64 (now + Ttl e) →
  ∃ t', addEntry t now e = Some t' ∧ ttl_ok t'
    ∧ lastDeleted t' = lastDeleted t ∧ numShards t' = numShards t
    ∧ ∀ j s k, member t' j s k
               ↔ member t j s k
                 ∨ (j = shard_index t e ∧ s = i64 (now + Ttl e)
                    ∧ k = Key e).
Proof.
  intros Hok Hpos Hlt. unfold addEntry.
  destruct (Z.leb_spec (Ttl e) 0); [lia|].
  pose proof (shard_index_lt t e Hok) as Hi.
  destruct (lookup_lt_is_Some_2 _ _ Hi) as [em Hem].
  rewrite Hem. cbn [mbind option_bind].
  destruct (Z.leb_spec (i64 (now + Ttl e)) (lastDeleted t)); [lia|].
  eexists. split; [reflexivity|]. split_and!.
  - destruct Hok as [H1 H2]. split; [done|]. cbn. by rewrite length_insert.
  - done.
  - done.
  - intros j s k. rewrite member_set_List.
    set (future := i64 (now + Ttl e)).
    set (values := match em !! future with
                   | Some values => {[Key e]} ∪ values
                   | None => {[Key e]}
                   end).
    destruct (decide (j = shard_index t e)) as [->|Hj].
    + rewrite list_lookup_insert_eq by done. split.
      * intros (em0 & b & [= <-] & Hb & Hk).
        destruct (decide (s = future)) as [->|Hs].
        -- rewrite lookup_insert_eq in Hb. injection Hb as <-.
           unfold values in Hk. destruct (em !! future) as [b0|] eqn:Hb0.
           ++ apply elem_of_union in Hk as [Hk|Hk].
              ** right. apply elem_of_singleton in Hk. done.
              ** left. by exists em, b0.
           ++ right. apply elem_of_singleton in Hk. done.
        -- rewrite lookup_insert_ne in Hb by done. left. by exists em, b.
      * intros [(em0 & b & Hem0 & Hb & Hk)|(_ & -> & ->)].
        -- rewrite Hem in Hem0. injection Hem0 as <-.
           destruct (decide (s = future)) as [->|Hs].
           ++ eexists _, values. split; [done|].
              rewrite lookup_insert_eq. split; [done|].
              unfold values. rewrite Hb. set_solver.
           ++ eexists _, b. split; [done|].
              by rewrite lookup_insert_ne.
        -- eexists _, values. split; [done|].
           rewrite lookup_insert_eq. split; [done|].
           unfold values. destruct (em !! future); set_solver.
    + rewrite list_lookup_insert_ne by done. split.
      * intros Hm. by left.
      * intros [Hm|(? & _)]; done.
Qed.

Lemma shard_index_same t t' e :
  numShards t' = numShards t → shard_index t' e = shard_index t e.
Proof. unfold shard_index. by intros ->. Qed.

End TTLFacts.

(** X10. [delEntry] on a manager that has its shards returns; it removes the
    key of the entry from the bucket under the second it is given, in the
    shard of the entry's hash, and removes nothing else; it does not leave
    an empty bucket there; the watermark and the shard count stay. *)
Theorem delEntry_removes (t : TTLManager) (e : Entry) (s : Z) :
  ttl_ok t →
  ∃ t', delEntry t e s = Some t'
    ∧ (∀ j s' k, member t' j s' k
                 ↔ member t j s' k
                   ∧ ¬ (j = shard_index t e ∧ s' = s ∧ k = Key e))
    ∧ (∀ em, List t' !! shard_index t e = Some em → em !! s ≠ Some ∅)
    ∧ lastDeleted t' = lastDeleted t ∧ numShards t' = numShards t.
Proof.
  intros Hok.
  destruct (TTLFacts.delEntry_member t e s Hok)
    as (t' & E & _ & Hl & Hn & Hm & Hne & _).
  by exists t'.
Qed.

(** The theorem at a manager of 128 shards without memberships. *)
Lemma delEntry_removes_witness :
  let t := NewTTLManager 1000 8 16 in
  let e := NewEntry 60 "k" "v" (XXHash64.HashString 0 "k") in
  ttl_ok t
  ∧ ∃ t', delEntry t e 1060 = Some t'
      ∧ (∀ j s' k, member t' j s' k
                   ↔ member t j s' k
                     ∧ ¬ (j = shard_index t e ∧ s' = 1060 ∧ k = Key e))
      ∧ (∀ em, List t' !! shard_index t e = Some em → em !! 1060 ≠ Some ∅)
      ∧ lastDeleted t' = lastDeleted t ∧ numShards t' = numShards t.
Proof.
  intros t e.
  assert (H : ttl_ok t) by (split; [vm_compute; discriminate|reflexivity]).
  split; [exact H|]. exact (delEntry_removes t e 1060 H).
Defined.

(** X11. Admission and removal undo each other when [delEntry] is given the
    second under which [addEntry] stored the key: for an entry with a TTL
    above 0 whose expiry [now + ttl] is after the watermark, [addEntry]
    followed by [delEntry] with that expiry leaves the memberships the
    manager had, less the key under that second. *)
Theorem addEntry_delEntry (t : TTLManager) (now : Z) (e : Entry) :
  ttl_ok t → 0 < Ttl e → lastDeleted t < i64 (now + Ttl e) →
  ∃ t1 t2,
    addEntry t now e = Some t1
    ∧ member t1 (shard_index t e) (i64 (now + Ttl e)) (Key e)
    ∧ delEntry t1 e (i64 (now + Ttl e)) = Some t2
    ∧ ∀ j s k, member t2 j s k
               ↔ member t j s k
                 ∧ ¬ (j = shard_index t e ∧ s = i64 (now + Ttl e)
                      ∧ k = Key e).
Proof.
  intros Hok Hpos Hlt.
  destruct (TTLFacts.addEntry_member t now e Hok Hpos Hlt)
    as (t1 & E1 & Hok1 & _ & Hn1 & Hm1).
  destruct (TTLFacts.delEntry_member t1 e (i64 (now + Ttl e)) Hok1)
    as (t2 & E2 & _ & _ & _ & Hm2 & _).
  rewrite (TTLFacts.shard_index_same t t1 e Hn1) in Hm2.
  exists t1, t2. split; [done|]. split; [apply Hm1; by right|].
  split; [done|]. intros j s k. rewrite Hm2, Hm1. tauto.
Qed.

(** The theorem at a manager of 128 shards whose watermark is 1000. *)
Lemma addEntry_delEntry_witness :
  let t := NewTTLManager 1000 8 16 in
  let e := NewEntry 60 "k" "v" (XXHash64.HashString 0 "k") in
  ttl_ok t ∧ 0 < Ttl e ∧ lastDeleted t < i64 (1000 + Ttl e)
  ∧ ∃ t1 t2,
      addEntry t 1000 e = Some t1
      ∧ member t1 (shard_index t e) (i64 (1000 + Ttl e)) (Key e)
      ∧ delEntry t1 e (i64 (1000 + Ttl e)) = Some t2
      ∧ ∀ j s k, member t2 j s k
                 ↔ member t j s k
                   ∧ ¬ (j = shard_index t e ∧ s = i64 (1000 + Ttl e)
                        ∧ k = Key e).
Proof.
  intros t e.
  assert (H1 : ttl_ok t) by (split; [vm_compute; discriminate|reflexivity]).
  assert (H2 : 0 < Ttl e) by (cbn; lia).
  assert (H3 : lastDeleted t < i64 (1000 + Ttl e)) by (vm_compute; reflexivity).
  split; [exact H1|]. split; [exact H2|]. split; [exact H3|].
  exact (addEntry_delEntry t 1000 e H1 H2 H3).
Defined.

Module SweepFacts.

(** What [Del] does to the expiration manager. *)
Lemma Del_ttl hm key hm' ok :
  Del hm key = Some (hm', ok) →
  TTlManager hm' = TTlManager hm
  ∨ ∃ item, Key item = key
      ∧ delEntry (TTlManager hm) item (Ttl item) = Some (TTlManager hm').
Proof.
  unfold Del, getIndex. intros H.
  destruct (MoreFacts.log_record_rest hm (AOF.mkData "del" key "" 0))
    as (_ & _ & _ & Ht & _).
  destruct (table _ !! _) as [basket|]; [|done]. cbn in H.
  destruct (find_item key basket) as [[pos item]|] eqn:Hf.
  - destruct (delEntry _ _ _) as [t|] eqn:Ed; [|done]. cbn in H.
    injection H as <- <-. right. exists item.
    destruct (find_item_Some _ _ _ _ Hf) as (_ & _ & _ & _ & Hk & _).
    split; [done|]. cbn. by rewrite <- Ht.
  - injection H as <- <-. by left.
Qed.

Lemma Del_member hm key :
  wf hm →
  ∃ hm' ok, Del hm key = Some (hm', ok) ∧ wf hm'
    ∧ kv hm' = delete key (kv hm)
    ∧ numShards (TTlManager hm') = numShards (TTlManager hm)
    ∧ (∀ j s k, member (TTlManager hm') j s k →
                member (TTlManager hm) j s k)
    ∧ (∀ j s k, k ≠ key → member (TTlManager hm) j s k →
                member (TTlManager hm') j s k).
Proof.
  intros Hwf.
  destruct (Del_spec hm key Hwf) as (hm' & ok & E & Hwf' & Hkv & _).
  exists hm', ok. split; [done|]. split; [done|]. split; [done|].
  destruct (Del_ttl hm key hm' ok E) as [->|(item & Hk & Ed)]; [done|].
  destruct (TTLFacts.delEntry_member (TTlManager hm) item (Ttl item)
              (wf_ttl hm Hwf)) as (t' & Ed' & _ & _ & Hn & Hm & _).
  rewrite Ed in Ed'. injection Ed' as <-. split; [done|]. split.
  - intros j s k H. by apply Hm in H as [H _].
  - intros j s k Hne H. apply Hm. split; [done|].
    intros (_ & _ & ->). congruence.
Qed.

Section Sweep.

Variable hm0 : HashMap.
Variables lo hi : Z.

Lemma inv_weaken (Pd Pd' : Z → nat → Prop) pending D cur :
  (∀ s j, Pd' s j → Pd s j) →
  sweep_inv hm0 lo hi Pd pending D cur →
  sweep_inv hm0 lo hi Pd' pending D cur.
Proof. intros Hp [H1 H2 H3 H4 H5 H6 H7]. split; eauto. Qed.

Lemma inv_Del Pd k0 ks D cur :
  sweep_inv hm0 lo hi Pd (k0 :: ks) D cur →
  is_due (TTlManager hm0) lo hi k0 →
  ∃ cur' ok, Del cur k0 = Some (cur', ok)
    ∧ sweep_inv hm0 lo hi Pd ks (D ∪ {[k0]}) cur'.
Proof.
  intros [Hwf Hsh Hkv Hsub Hsup Hdue Hdone] Hk0.
  destruct (Del_member cur k0 Hwf)
    as (cur' & ok & E & Hwf' & Hkv' & Hn & Hshrink & Hkeep).
  exists cur', ok. split; [done|]. split.
  - done.
  - congruence.
  - intros k. rewrite Hkv'. destruct (decide (k = k0)) as [->|Hne].
    + rewrite lookup_delete_eq. case_decide as Hin; [done|].
      exfalso. apply Hin. set_solver.
    + rewrite lookup_delete_ne, Hkv by done.
      destruct (decide (k ∈ D)) as [Hd|Hd],
               (decide (k ∈ D ∪ {[k0]})) as [Hd'|Hd']; try done.
      * exfalso. apply Hd'. by apply elem_of_union_l.
      * exfalso. apply elem_of_union in Hd' as [?|Hs]; [done|].
        by apply elem_of_singleton in Hs.
  - intros j s k H. by apply Hsub, Hshrink.
  - intros j s k H. destruct (decide (k = k0)) as [->|Hne].
    + left. set_solver.
    + destruct (Hsup j s k H) as [Hd|[Hp|Hm]].
      * left. set_solver.
      * right. left. apply elem_of_cons in Hp as [?|?]; done.
      * right. right. by apply Hkeep.
  - intros k Hin. apply elem_of_union in Hin as [Hin|Hin]; [by apply Hdue|].
    apply elem_of_singleton in Hin. by subst.
  - intros s j k Hp H. by apply (Hdone s j k Hp), Hshrink.
Qed.

Lemma inv_keys Pd ks :
  ∀ D cur,
    sweep_inv hm0 lo hi Pd ks D cur →
    (∀ k, k ∈ ks → is_due (TTlManager hm0) lo hi k) →
    ∃ cur' D', delEntriesFromHashMap cur ks = Some cur'
      ∧ sweep_inv hm0 lo hi Pd [] D' cur'.
Proof.
  induction ks as [|k0 ks IH]; intros D cur Hinv Hks.
  - by exists cur, D.
  - cbn [delEntriesFromHashMap].
    destruct (inv_Del Pd k0 ks D cur Hinv) as (cur1 & ok & -> & Hinv1).
    { apply Hks. left. }
    cbn [mbind option_bind]. apply (IH _ _ Hinv1).
    intros k Hk. apply Hks. by right.
Qed.

Lemma inv_shard Pd D cur i j :
  sweep_inv hm0 lo hi Pd [] D cur → lo < i <= hi →
  (j < length (List (TTlManager cur)))%nat →
  ∃ cur' D', sweep_shard i (Some cur) j = Some cur'
    ∧ sweep_inv hm0 lo hi (λ s j', Pd s j' ∨ (s = i ∧ j' = j)) [] D' cur'.
Proof.
  intros Hinv Hi Hj. destruct Hinv as [Hwf Hsh Hkv Hsub Hsup Hdue Hdone].
  unfold sweep_shard. cbn [mbind option_bind].
  destruct (lookup_lt_is_Some_2 _ _ Hj) as [em_ Hem]. rewrite Hem.
  cbn [mbind option_bind]. destruct (em_ !! i) as [bucket|] eqn:Hb.
  - set (T1 := set_List (TTlManager cur)
                 (<[j := delete i em_]> (List (TTlManager cur)))).
    assert (Hm1 : ∀ j' s k, member T1 j' s k
                    ↔ member (TTlManager cur) j' s k
                      ∧ ¬ (j' = j ∧ s = i)).
    { intros j' s k. unfold T1. rewrite TTLFacts.member_set_List.
      destruct (decide (j' = j)) as [->|Hne].
      - rewrite list_lookup_insert_eq by done.
        destruct (decide (s = i)) as [->|Hs].
        + split.
          * intros (em0 & b & [= <-] & Hb0 & _).
            by rewrite lookup_delete_eq in Hb0.
          * intros [_ Hn]. exfalso. by apply Hn.
        + split.
          * intros (em0 & b & [= <-] & Hb0 & Hk).
            rewrite lookup_delete_ne in Hb0 by done.
            split; [by exists em_, b|]. by intros [_ ?].
          * intros [(em0 & b & Hem0 & Hb0 & Hk) _].
            rewrite Hem in Hem0. injection Hem0 as <-.
            eexists _, b. split; [done|].
            by rewrite lookup_delete_ne.
      - rewrite list_lookup_insert_ne by done. split.
        + intros H. split; [done|]. by intros [? _].
        + by intros [H _]. }
    destruct (inv_keys (λ s j', Pd s j' ∨ (s = i ∧ j' = j))
                (elements bucket) D (set_TTlManager cur T1))
      as (cur' & D' & E & Hinv'); [| |by exists cur', D'].
    + split.
      * split; cbn; try apply Hwf.
        destruct (wf_ttl _ Hwf) as [H1 H2]. split; cbn; [done|].
        by rewrite length_insert.
      * done.
      * done.
      * intros j' s k H. apply Hsub. by apply Hm1 in H as [H _].
      * intros j' s k H. destruct (Hsup j' s k H) as [Hd|[Hp|Hm]].
        -- by left.
        -- by apply elem_of_nil in Hp.
        -- destruct (decide (j' = j ∧ s = i)) as [[-> ->]|Hn].
           ++ right. left. destruct Hm as (em0 & b & Hem0 & Hb0 & Hk).
              rewrite Hem in Hem0. injection Hem0 as <-.
              rewrite Hb in Hb0. injection Hb0 as <-.
              by apply elem_of_elements.
           ++ right. right. cbn. apply Hm1. done.
      * done.
      * intros s j' k [Hp|[-> ->]] H; cbn in H; apply Hm1 in H as [H Hn].
        -- by apply (Hdone s j' k Hp).
        -- by apply Hn.
    + intros k Hk. apply elem_of_elements in Hk. exists j, i.
      split; [done|]. apply Hsub. by exists em_, bucket.
  - exists cur, D. split; [done|]. split; try done.
    intros s j' k [Hp|[-> ->]] H.
    + by apply (Hdone s j' k Hp).
    + destruct H as (em0 & b & Hem0 & Hb0 & _). congruence.
Qed.

Lemma inv_length D Pd cur :
  sweep_inv hm0 lo hi Pd [] D cur → wf hm0 →
  length (List (TTlManager cur)) = length (List (TTlManager hm0)).
Proof.
  intros Hinv Hwf0. destruct (wf_ttl _ (si_wf _ _ _ _ _ _ _ Hinv)) as [_ ->].
  destruct (wf_ttl _ Hwf0) as [_ ->].
  by rewrite (si_shards _ _ _ _ _ _ _ Hinv).
Qed.

Lemma inv_shards i js :
  wf hm0 → lo < i <= hi →
  Forall (λ j, (j < length (List (TTlManager hm0)))%nat) js →
  ∀ Pd D cur,
    sweep_inv hm0 lo hi Pd [] D cur →
    ∃ cur' D', fold_left (sweep_shard i) js (Some cur) = Some cur'
      ∧ sweep_inv hm0 lo hi (λ s j', Pd s j' ∨ (s = i ∧ j' ∈ js)) [] D' cur'.
Proof.
  intros Hwf0 Hi. induction 1 as [|j js Hj _ IH]; intros Pd D cur Hinv.
  - exists cur, D. split; [done|]. apply (inv_weaken Pd); [|done].
    intros s j' [?|[_ Hin]]; [done|]. by apply elem_of_nil in Hin.
  - cbn [fold_left].
    destruct (inv_shard Pd D cur i j Hinv Hi) as (cur1 & D1 & -> & Hinv1).
    { by rewrite (inv_length D Pd cur Hinv Hwf0). }
    destruct (IH _ _ _ Hinv1) as (cur2 & D2 & E2 & Hinv2).
    exists cur2, D2. split; [done|].
    eapply inv_weaken; [|exact Hinv2]. cbn.
    intros s j' [?|[-> Hin]]; [by left; left|].
    apply elem_of_cons in Hin as [->|Hin]; [left; by right|right; done].
Qed.

Lemma inv_second i Pd D cur :
  wf hm0 → lo < i <= hi →
  sweep_inv hm0 lo hi Pd [] D cur →
  ∃ cur' D', sweep_second (Some cur) i = Some cur'
    ∧ sweep_inv hm0 lo hi
        (λ s j, Pd s j
                ∨ (s = i ∧ (j < length (List (TTlManager hm0)))%nat))
        [] D' cur'.
Proof.
  intros Hwf0 Hi Hinv. unfold sweep_second. cbn [mbind option_bind].
  rewrite (inv_length D Pd cur Hinv Hwf0).
  destruct (inv_shards i (seq 0 (length (List (TTlManager hm0)))) Hwf0 Hi
              ltac:(apply Forall_forall; intros j Hj;
                    apply elem_of_seq in Hj; lia) Pd D cur Hinv)
    as (cur' & D' & E & Hinv').
  exists cur', D'. split; [done|]. eapply inv_weaken; [|exact Hinv']. cbn.
  intros s j [?|[-> Hj]]; [by left|]. right. split; [done|].
  apply elem_of_seq. lia.
Qed.

Lemma inv_seconds ss :
  wf hm0 → Forall (λ i, lo < i <= hi) ss →
  ∀ Pd D cur,
    sweep_inv hm0 lo hi Pd [] D cur →
    ∃ cur' D', fold_left sweep_second ss (Some cur) = Some cur'
      ∧ sweep_inv hm0 lo hi
          (λ s j, Pd s j
                  ∨ (s ∈ ss ∧ (j < length (List (TTlManager hm0)))%nat))
          [] D' cur'.
Proof.
  intros Hwf0. induction 1 as [|i ss Hi _ IH]; intros Pd D cur Hinv.
  - exists cur, D. split; [done|]. apply (inv_weaken Pd); [|done].
    intros s j [?|[Hin _]]; [done|]. by apply elem_of_nil in Hin.
  - cbn [fold_left].
    destruct (inv_second i Pd D cur Hwf0 Hi Hinv) as (cur1 & D1 & -> & Hinv1).
    destruct (IH _ _ _ Hinv1) as (cur2 & D2 & E2 & Hinv2).
    exists cur2, D2. split; [done|].
    eapply inv_weaken; [|exact Hinv2]. cbn.
    intros s j [?|[Hin Hj]]; [by left; left|].
    apply elem_of_cons in Hin as [->|Hin]; [left; by right|right; done].
Qed.

End Sweep.

End SweepFacts.

Lemma Set_default_reachable hm d now ttl key value :
  reachable hm → reachable (default d (fst <$> Set_ hm now ttl key value)).
Proof.
  intros Hr. destruct (Reach.reachable_ok hm Hr) as [Hwf _].
  destruct (Set_spec hm now ttl key value Hwf) as (hm' & E & _).
  rewrite E. cbn. eapply reach_step; [exact Hr|]. eapply step_Set, E.
Qed.

(** X12. The expiration sweep, [delEntries], on a reachable table up to
    second [now]: it returns and moves the watermark to [now]. Every key
    that some shard held under a second after the old watermark and up to
    [now] is gone from the table; every other key is found as before. No
    membership is left in that window, and none appears anywhere. *)
Theorem sweep_deletes_due (hm : HashMap) (now : Z) :
  reachable hm →
  let last := lastDeleted (TTlManager hm) in
  ∃ hm', delEntries hm now = Some hm'
    ∧ lastDeleted (TTlManager hm') = now
    ∧ (∀ k, is_due (TTlManager hm) last now k →
            Get hm' k = Some (false, ""))
    ∧ (∀ k, ¬ is_due (TTlManager hm) last now k → Get hm' k = Get hm k)
    ∧ (∀ j s k, last < s <= now → ¬ member (TTlManager hm') j s k)
    ∧ (∀ j s k, member (TTlManager hm') j s k →
                member (TTlManager hm) j s k).
Proof.
  intros Hr last. destruct (Reach.reachable_ok hm Hr) as [Hwf _].
  unfold delEntries. fold last.
  set (ss := map (λ n, last + 1 + Z.of_nat n) (seq 0 (Z.to_nat (now - last)))).
  assert (Hss : ∀ s, s ∈ ss ↔ last < s <= now).
  { intros s. unfold ss. rewrite list_elem_of_In, in_map_iff. split.
    - intros (n & <- & Hn). apply in_seq in Hn. lia.
    - intros Hs. exists (Z.to_nat (s - last - 1)). split; [lia|].
      apply in_seq. lia. }
  assert (Hinv0 : sweep_inv hm last now (λ _ _, False) [] ∅ hm).
  { split; try done. intros j s k H. by right; right. }
  destruct (SweepFacts.inv_seconds hm last now ss Hwf
              ltac:(apply Forall_forall; intros s Hs; by apply Hss)
              _ _ _ Hinv0)
    as (cur & D & -> & [Hwf' Hsh Hkv Hsub Hsup Hdue Hdone]).
  cbn [mbind option_bind]. eexists. split; [reflexivity|].
  set (hm' := set_TTlManager cur (set_lastDeleted (TTlManager cur) now)).
  assert (Hwf'' : wf hm') by (split; cbn; apply Hwf').
  assert (Hkv' : kv hm' = kv cur) by done.
  assert (Hnone : ∀ j s k, last < s <= now → ¬ member (TTlManager cur) j s k).
  { intros j s k Hs Hm. apply (Hdone s j k); [|done]. right.
    split; [by apply Hss|].
    destruct (Hsub j s k Hm) as (em0 & _ & Hl & _).
    by apply lookup_lt_Some in Hl. }
  split; [done|]. split_and!.
  - intros k (j & s & Hs & Hm).
    rewrite (Get_spec hm' k Hwf''), Hkv', Hkv.
    destruct (Hsup j s k Hm) as [Hd|[Hp|Hm']].
    + by destruct (decide (k ∈ D)).
    + by apply elem_of_nil in Hp.
    + by destruct (Hnone j s k Hs).
  - intros k Hk. rewrite (Get_spec hm' k Hwf''), (Get_spec hm k Hwf), Hkv', Hkv.
    destruct (decide (k ∈ D)) as [Hd|Hd]; [|done].
    exfalso. by apply Hk, Hdue.
  - intros j s k Hs Hm. by apply (Hnone j s k Hs).
  - intros j s k Hm. by apply Hsub.
Qed.

(** The theorem at the database whose key ["k"] expires at second 1010,
    swept up to second 2000. *)
Lemma sweep_deletes_due_witness :
  reachable ttl_set
  ∧ ∃ hm', delEntries ttl_set 2000 = Some hm'
      ∧ lastDeleted (TTlManager hm') = 2000
      ∧ (∀ k, is_due (TTlManager ttl_set)
                (lastDeleted (TTlManager ttl_set)) 2000 k →
              Get hm' k = Some (false, ""))
      ∧ (∀ k, ¬ is_due (TTlManager ttl_set)
                  (lastDeleted (TTlManager ttl_set)) 2000 k →
              Get hm' k = Get ttl_set k)
      ∧ (∀ j s k, lastDeleted (TTlManager ttl_set) < s <= 2000 →
                  ¬ member (TTlManager hm') j s k)
      ∧ (∀ j s k, member (TTlManager hm') j s k →
                  member (TTlManager ttl_set) j s k).
Proof.
  assert (Hr : reachable ttl_set)
    by (apply Set_default_reachable, empty_db_reachable).
  split; [exact Hr|]. exact (sweep_deletes_due ttl_set 2000 Hr).
Defined.

Module CompactionFacts.

Lemma compressed_entry_frame e :
  Compaction.compressed_entry e = AOF.writeFrame (set_record e).
Proof.
  unfold Compaction.compressed_entry, AOF.writeFrame, AOF.write_string.
  cbn [set_record AOF.Action AOF.Key AOF.Value AOF.Ttl].
  by rewrite <- !app_assoc.
Qed.

Lemma compressed_frames l :
  flat_map Compaction.compressed_entry l = frames (map set_record l).
Proof.
  unfold frames. induction l as [|e l IH]; [done|].
  cbn [flat_map map]. by rewrite IH, compressed_entry_frame.
Qed.

Lemma set_record_ok e : entry_fits e → frame_ok (set_record e).
Proof.
  intros (Hk & Hv & Ht). split; [|done]. unfold string_ok, len. cbn. lia.
Qed.

Lemma kv_vt hm : kv hm = fst <$> vt hm.
Proof.
  unfold kv, vt. rewrite <- map_fmap_compose. done.
Qed.

Lemma snapshot_map_cons e l :
  snapshot_map (e :: l)
  = <[ae_Key e := (ae_Value e, ae_Ttl e)]> (snapshot_map l).
Proof. done. Qed.

Lemma snapshot_map_fresh e l :
  ae_Key e ∉ ae_Key <$> l → snapshot_map l !! ae_Key e = None.
Proof.
  intros Hn. apply not_elem_of_list_to_map_1.
  by rewrite <- list_fmap_compose.
Qed.

(** The replay of the records of a snapshot sets every key of the snapshot
    to its value and TTL. *)
Lemma replay_snapshot sc (l : list AOFEntry) :
  NoDup (ae_Key <$> l) →
  ∀ i hm, wf hm →
    ∃ hm', apply_all sc i (map set_record l) hm = Some hm' ∧ wf hm'
      ∧ reset hm' = reset hm
      ∧ ∀ k, vt hm' !! k
             = match snapshot_map l !! k with
               | Some x => Some x
               | None => vt hm !! k
               end.
Proof.
  induction l as [|e l IH]; intros Hnd i hm Hwf.
  - exists hm. split; [done|]. split; [done|]. split; [done|]. intros k.
    change (snapshot_map []) with (∅ : gmap string (string * Z)).
    by rewrite lookup_empty.
  - apply NoDup_cons in Hnd as [Hne Hnd].
    cbn [map apply_all].
    assert (∃ hm1, (if resize_at sc i then CheckResize hm else Some hm)
                   = Some hm1 ∧ wf hm1 ∧ vt hm1 = vt hm
                   ∧ reset hm1 = reset hm)
      as (hm1 & -> & Hwf1 & Hvt1 & Hr1).
    { destruct (resize_at sc i); [|by exists hm].
      destruct (CheckResize_spec hm Hwf)
        as (hm1 & -> & Hwf1 & _ & Hp & _ & Hr1 & _).
      exists hm1. split; [done|]. split; [done|]. split; [|done].
      unfold vt. by rewrite (em_perm hm hm1 Hwf Hp). }
    cbn [mbind option_bind].
    destruct (Set_entry hm1 (clock sc i) (ae_Ttl e) (ae_Key e) (ae_Value e)
                Hwf1)
      as (hm2 & e2 & E2 & Hwf2 & Hem2 & Hv2 & Ht2 & _ & Hr2 & _).
    change (apply_record hm1 (clock sc i) (set_record e))
      with (fst <$> Set_ hm1 (clock sc i) (ae_Ttl e) (ae_Key e) (ae_Value e)).
    rewrite E2. cbn [fmap option_fmap option_map fst mbind option_bind].
    destruct (IH Hnd (S i) hm2 Hwf2) as (hm' & E' & Hwf' & Hr' & Hvt').
    exists hm'. split; [done|]. split; [done|]. split; [congruence|].
    intros k.
    rewrite Hvt', snapshot_map_cons.
    assert (Hvt2 : vt hm2 = <[ae_Key e := (ae_Value e, ae_Ttl e)]> (vt hm)).
    { rewrite <- Hvt1. unfold vt. by rewrite Hem2, fmap_insert, Hv2, Ht2. }
    rewrite Hvt2. destruct (decide (k = ae_Key e)) as [->|Hk].
    + by rewrite !lookup_insert_eq, snapshot_map_fresh.
    + by rewrite !lookup_insert_ne.
Qed.

(** The map a snapshot stands for is the content of the table. *)
Lemma snapshot_vt hm :
  wf hm → snapshot_map (GetAllEntriesAndCompress hm) = vt hm.
Proof.
  intros Hwf. apply map_eq. intros k. unfold vt, snapshot_map.
  rewrite lookup_fmap.
  assert (Hnd : NoDup (((λ e, (ae_Key e, (ae_Value e, ae_Ttl e)))
                          <$> GetAllEntriesAndCompress hm).*1)).
  { rewrite <- list_fmap_compose.
    change (fst ∘ _) with ae_Key.
    rewrite snapshot_keys. exact (wf_nodup hm Hwf). }
  destruct (em hm !! k) as [e|] eqn:He.
  - apply (em_elem hm k e Hwf) in He as [He <-]. cbn.
    apply elem_of_list_to_map; [done|].
    apply list_elem_of_fmap.
    exists (mkAOFEntry (Key e) (Value e) (Ttl e)). split; [done|].
    unfold GetAllEntriesAndCompress. apply list_elem_of_In, in_map_iff.
    exists e. split; [done|]. by apply list_elem_of_In.
  - cbn. apply not_elem_of_list_to_map_1.
    rewrite <- list_fmap_compose. change (fst ∘ _) with ae_Key.
    rewrite snapshot_keys. unfold keys. intros Hin.
    apply list_elem_of_fmap in Hin as (e & -> & Hin).
    by rewrite (proj2 (em_elem hm (Key e) e Hwf) (conj Hin eq_refl)) in He.
Qed.

Lemma snapshot_NoDup hm : wf hm → NoDup (GetAllEntriesAndCompress hm).
Proof.
  intros Hwf. apply (NoDup_fmap_1 ae_Key). rewrite snapshot_keys.
  exact (wf_nodup hm Hwf).
Qed.

Lemma snapshot_elem hm x :
  wf hm →
  x ∈ GetAllEntriesAndCompress hm
  ↔ vt hm !! ae_Key x = Some (ae_Value x, ae_Ttl x).
Proof.
  intros Hwf. unfold vt. rewrite lookup_fmap.
  unfold GetAllEntriesAndCompress. rewrite list_elem_of_In, in_map_iff.
  split.
  - intros (e & <- & He). apply list_elem_of_In in He. cbn.
    by rewrite (proj2 (em_elem hm (Key e) e Hwf) (conj He eq_refl)).
  - destruct (em hm !! ae_Key x) as [e|] eqn:He; [|done].
    cbn. intros [= Hv Ht].
    apply (em_elem hm _ e Hwf) in He as [He Hk].
    exists e. split; [by destruct x; cbn in *; subst|].
    by apply list_elem_of_In.
Qed.

Lemma snapshot_perm hm hm' :
  wf hm → wf hm' → vt hm' = vt hm →
  GetAllEntriesAndCompress hm' ≡ₚ GetAllEntriesAndCompress hm.
Proof.
  intros Hwf Hwf' Hvt. apply NoDup_Permutation.
  - by apply snapshot_NoDup.
  - by apply snapshot_NoDup.
  - intros x. by rewrite !snapshot_elem, Hvt.
Qed.

End CompactionFacts.

(** X13. Compaction keeps the state. On a reachable table whose keys and
    values fit the length fields of a frame, the file that
    [createCompressedAOF] leaves when it is given the snapshot of the table,
    as [Loop] does, is a log that opens and replays to the same table
    content: every
    [Get] answers as before the compaction, the entry count is the same, and
    the snapshot of the reopened table is the old one up to the order, TTL
    fields included. *)
Theorem compaction_keeps_state (hm : HashMap) (now ncpu mult seed_ : Z)
    (sc : sched) :
  reachable hm → cpu_ok ncpu mult →
  Forall entry_fits (GetAllEntriesAndCompress hm) →
  ∃ hm2,
    NewHashMap now ncpu mult seed_ sc
      (Some (AOF.file (Compaction.createCompressedAOF (Aof hm)
                         (GetAllEntriesAndCompress hm)))) = Some hm2
    ∧ (∀ key, Get hm2 key = Get hm key)
    ∧ GetEntries hm2 = GetEntries hm
    ∧ GetAllEntriesAndCompress hm2 ≡ₚ GetAllEntriesAndCompress hm.
Proof.
  intros Hr Hc Hfit. destruct (Reach.reachable_ok hm Hr) as [Hwf _].
  destruct (initial_ok now ncpu mult seed_ Hc) as [Hwfi Hkvi].
  set (snap := GetAllEntriesAndCompress hm) in *.
  assert (Hfile : AOF.file (Compaction.createCompressedAOF (Aof hm) snap)
                  = frames (map set_record snap) ++ []).
  { cbn. by rewrite CompactionFacts.compressed_frames, app_nil_r. }
  assert (Hok : Forall frame_ok (map set_record snap)).
  { apply Forall_forall. intros d Hd. apply list_elem_of_In, in_map_iff in Hd.
    destruct Hd as (e & <- & He). apply CompactionFacts.set_record_ok.
    rewrite Forall_forall in Hfit. by apply Hfit, list_elem_of_In. }
  assert (Hnd : NoDup (ae_Key <$> snap)).
  { unfold snap. rewrite snapshot_keys. exact (wf_nodup hm Hwf). }
  destruct (CompactionFacts.replay_snapshot sc snap Hnd O _ Hwfi)
    as (hm1 & E1 & Hwf1 & _ & Hvt1).
  assert (Hvt : vt hm1 = vt hm).
  { apply map_eq. intros k. rewrite Hvt1.
    unfold snap. rewrite (CompactionFacts.snapshot_vt hm Hwf).
    destruct (vt hm !! k) eqn:Hk; [done|].
    unfold vt. by rewrite em_initial, fmap_empty, lookup_empty. }
  set (hm2 := set_Aof (set_reset hm1 false)
                (AOF.mkAOF [] (frames (map set_record snap) ++ []) 0)).
  assert (Hwf2 : wf hm2) by (by apply wf_opened).
  assert (Hvt2 : vt hm2 = vt hm) by done.
  assert (Hkv2 : kv hm2 = kv hm)
    by (by rewrite !CompactionFacts.kv_vt, Hvt2).
  exists hm2. split_and!.
  - unfold NewHashMap. rewrite Hfile.
    rewrite (ReplayAOF_frames _ sc _ [] Hok at_end_nil), E1. done.
  - intros key. by rewrite (Get_spec hm2 key Hwf2), (Get_spec hm key Hwf), Hkv2.
  - unfold GetEntries. by rewrite (wf_size hm2 Hwf2), (wf_size hm Hwf), Hkv2.
  - by apply CompactionFacts.snapshot_perm.
Qed.

(** The theorem at the database that holds one counter. *)
Lemma compaction_keeps_state_witness :
  reachable counter_db ∧ cpu_ok 8 16
  ∧ Forall entry_fits (GetAllEntriesAndCompress counter_db)
  ∧ ∃ hm2,
      NewHashMap 2000 8 16 0 quiet
        (Some (AOF.file (Compaction.createCompressedAOF (Aof counter_db)
                           (GetAllEntriesAndCompress counter_db))))
      = Some hm2
      ∧ (∀ key, Get hm2 key = Get counter_db key)
      ∧ GetEntries hm2 = GetEntries counter_db
      ∧ GetAllEntriesAndCompress hm2
        ≡ₚ GetAllEntriesAndCompress counter_db.
Proof.
  assert (Hc : cpu_ok 8 16) by (unfold cpu_ok; lia).
  assert (Hs : GetAllEntriesAndCompress counter_db
               = [mkAOFEntry "counter" "100" 0]) by (vm_compute; reflexivity).
  assert (Hf : Forall entry_fits (GetAllEntriesAndCompress counter_db)).
  { rewrite Hs. constructor; [|constructor].
    unfold entry_fits, string_ok, len, is_int64, MinInt64, MaxInt64.
    simpl. lia. }
  split; [exact counter_db_reachable|]. split; [exact Hc|]. split; [exact Hf|].
  exact (compaction_keeps_state counter_db 2000 8 16 0 quiet
           counter_db_reachable Hc Hf).
Defined.

(** X14. The log is uniquely decodable: two sequences of records whose
    strings fit the length fields and that give the same bytes are the same
    sequence. *)
Theorem frames_injective (ds1 ds2 : list AOF.Data) :
  Forall frame_ok ds1 → Forall frame_ok ds2 →
  frames ds1 = frames ds2 → ds1 = ds2.
Proof.
  intros H1. revert ds2. induction H1 as [|d1 ds1 Hd1 _ IH];
    intros ds2 H2 Heq.
  - destruct ds2 as [|d2 ds2]; [done|]. exfalso.
    apply (f_equal length) in Heq. cbn in Heq. rewrite length_app in Heq.
    pose proof (length_writeFrame d2). lia.
  - destruct H2 as [|d2 ds2 Hd2 H2].
    + exfalso. apply (f_equal length) in Heq. cbn in Heq.
      rewrite length_app in Heq. pose proof (length_writeFrame d1). lia.
    + change (AOF.writeFrame d1 ++ frames ds1
              = AOF.writeFrame d2 ++ frames ds2) in Heq.
      apply (f_equal AOF.readFrame) in Heq.
      rewrite !readFrame_writeFrame in Heq by done.
      injection Heq as -> Heq. f_equal. by apply IH.
Qed.

(** The theorem at two records. *)
Lemma frames_injective_witness :
  let ds := [AOF.mkData "set" "k" "v" 0; AOF.mkData "del" "k" "" 0] in
  Forall frame_ok ds ∧ frames ds = frames ds ∧ ds = ds.
Proof.
  intros ds.
  assert (H : Forall frame_ok ds).
  { unfold ds. repeat constructor;
      unfold string_ok, len, is_int64, MinInt64, MaxInt64; simpl; lia. }
  split; [exact H|]. split; [reflexivity|].
  exact (frames_injective ds ds H H eq_refl).
Defined.

Module FileFacts.
Import Files.

Lemma Split_dot_nonempty s : Split_dot s ≠ [].
Proof.
  destruct s as [|c s]; cbn; [done|].
  destruct (Ascii.eqb c "."); [done|]. by destruct (Split_dot s).
Qed.

Lemma first_part_cons c s :
  first_part (String c s)
  = if Ascii.eqb c "."%char then "" else String c (first_part s).
Proof.
  unfold first_part. cbn. destruct (Ascii.eqb c "."); [done|].
  pose proof (Split_dot_nonempty s). by destruct (Split_dot s).
Qed.

Lemma first_part_no_dot s : no_dot s = true → first_part s = s.
Proof.
  induction s as [|c s IH]; [done|]. cbn [no_dot]. intros H.
  apply andb_prop in H as [Hc Hs]. rewrite first_part_cons.
  destruct (Ascii.eqb c "."); [done|]. by rewrite IH.
Qed.

Lemma append_cons c a b :
  String.append (String c a) b = String c (String.append a b).
Proof. done. Qed.

Lemma first_part_dot a b :
  no_dot a = true → first_part (String.append a (String "."%char b)) = a.
Proof.
  induction a as [|c a IH]; [done|]. cbn [no_dot]. intros H.
  apply andb_prop in H as [Hc Hs]. rewrite append_cons, first_part_cons.
  destruct (Ascii.eqb c "."); [done|]. by rewrite IH.
Qed.

Lemma first_part_prefix a b :
  no_dot a = false → first_part (String.append a b) = first_part a.
Proof.
  induction a as [|c a IH]; [done|]. cbn [no_dot]. intros H.
  rewrite append_cons, !first_part_cons. destruct (Ascii.eqb c "."); [done|].
  cbn in H. by rewrite IH.
Qed.

Lemma no_dot_first_part s : no_dot (first_part s) = true.
Proof.
  induction s as [|c s IH]; [done|]. rewrite first_part_cons.
  destruct (Ascii.eqb c ".") eqn:Hc; [done|]. cbn. by rewrite Hc, IH.
Qed.

Lemma no_dot_append a b :
  no_dot (String.append a b) = no_dot a && no_dot b.
Proof.
  induction a as [|c a IH]; [done|].
  rewrite append_cons. cbn [no_dot]. by rewrite IH, andb_assoc.
Qed.

Lemma append_assoc a b c :
  String.append (String.append a b) c = String.append a (String.append b c).
Proof.
  induction a as [|x a IH]; [done|]. rewrite !append_cons. by rewrite IH.
Qed.

Lemma length_append a b :
  String.length (String.append a b) = (String.length a + String.length b)%nat.
Proof.
  induction a as [|x a IH]; [done|].
  rewrite append_cons. cbn [String.length]. by rewrite IH.
Qed.

Lemma substring_all s : substring 0 (String.length s) s = s.
Proof.
  induction s as [|c s IH]; [done|].
  cbn [String.length substring]. by rewrite IH.
Qed.

Lemma substring_append a b :
  substring (String.length a) (String.length b) (String.append a b) = b.
Proof.
  induction a as [|x a IH]; [apply substring_all|].
  rewrite append_cons. cbn [String.length substring]. exact IH.
Qed.

Lemma HasSuffix_append a b : HasSuffix (String.append a b) b = true.
Proof.
  unfold HasSuffix. rewrite length_append.
  apply andb_true_intro. split; [apply Nat.leb_le; lia|].
  replace (String.length a + String.length b - String.length b)%nat
    with (String.length a) by lia.
  rewrite substring_append. apply String.eqb_refl.
Qed.

End FileFacts.

(** X15. The temporary file of the compaction. When neither the database
    folder nor the name holds a ['.'], [tmpName] is the sibling
    [folder/name.tmp.bin] of the log. When the folder holds a ['.'], the
    split at the first ['.'] cuts inside the folder: [tmpName] is the same
    for all names, and with the default folder ["./data"] it is [".tmp.bin"]
    for every database. *)
Theorem tmpName_spec (folder : string) :
  (no_dot folder = true →
   ∀ name, no_dot name = true →
     Files.tmpName (Files.FileName folder name)
     = String.append folder
         (String.append "/" (String.append name ".tmp.bin")))
  ∧ (no_dot folder = false →
     ∀ name1 name2,
       Files.tmpName (Files.FileName folder name1)
       = Files.tmpName (Files.FileName folder name2))
  ∧ ∀ name, Files.tmpName (Files.FileName "./data" name) = ".tmp.bin".
Proof.
  unfold Files.tmpName, Files.FileName. split_and!.
  - intros Hf name Hn.
    rewrite <- !FileFacts.append_assoc.
    change ".bin" with (String "."%char "bin").
    rewrite FileFacts.first_part_dot.
    + by rewrite !FileFacts.append_assoc.
    + rewrite !FileFacts.no_dot_append, Hf, Hn. done.
  - intros Hf name1 name2. by rewrite !FileFacts.first_part_prefix.
  - intros name. by rewrite (FileFacts.first_part_prefix "./data").
Qed.

(** X16. What [RestartCheck.Check] finds in the database folder. For every
    name without a ['.'], the file [name.bin], when it is there and no
    directory, gives back the name. Every name returned comes from an entry
    that is no directory and ends in [".bin"], as the part before its first
    ['.'], and so holds no ['.']. *)
Theorem Check_names (d : list (string * bool)) :
  (∀ name, no_dot name = true → (String.append name ".bin", false) ∈ d →
           name ∈ Files.Check d)
  ∧ (∀ n, n ∈ Files.Check d →
          no_dot n = true
          ∧ ∃ f, (f, false) ∈ d ∧ Files.HasSuffix f ".bin" = true
                 ∧ Files.first_part f = n).
Proof.
  split.
  - intros name Hn. induction d as [|[f isdir] d IH]; intros Hin.
    + by apply elem_of_nil in Hin.
    + cbn [Files.Check]. apply elem_of_cons in Hin as [[= <- <-]|Hin].
      * rewrite FileFacts.HasSuffix_append. cbn.
        change ".bin" with (String "."%char "bin").
        rewrite FileFacts.first_part_dot by done. left.
      * destruct (isdir || negb (Files.HasSuffix f ".bin")); [by apply IH|].
        right. by apply IH.
  - intros n. induction d as [|[f isdir] d IH]; intros Hin.
    + by apply elem_of_nil in Hin.
    + cbn [Files.Check] in Hin.
      destruct isdir; cbn [orb] in Hin.
      { destruct (IH Hin) as (H1 & f' & Hf & Hs & He).
        split; [done|]. exists f'. split; [by right|done]. }
      destruct (Files.HasSuffix f ".bin") eqn:Hsuf; cbn [negb] in Hin.
      * apply elem_of_cons in Hin as [->|Hin].
        -- split; [apply FileFacts.no_dot_first_part|].
           exists f. split; [left|done].
        -- destruct (IH Hin) as (H1 & f' & Hf & Hs & He).
           split; [done|]. exists f'. split; [by right|done].
      * destruct (IH Hin) as (H1 & f' & Hf & Hs & He).
        split; [done|]. exists f'. split; [by right|done].
Qed.

(** X17. Operations on a database that is not in the registry: [Server.Set],
    [Server.SetNX], [Server.Incr] and [Server.Del] answer [false],
    [Server.Get] answers not found with the empty string, [CheckEntries] is
    [false], and the registry is left as it is. *)
Theorem missing_database (ToUpper : string → string) (s : Server.Server)
    (now ttl : Z) (db key value amount : string) :
  Server.dbs s !! ToUpper db = None →
  Server.CheckEntries ToUpper s db = false
  ∧ Server.Set_ ToUpper s now db key value ttl = Some (s, false)
  ∧ Server.SetNX ToUpper s now db key value ttl = Some (s, false)
  ∧ Server.Incr ToUpper s now db key amount = Some (s, false)
  ∧ Server.Del ToUpper s db key = Some (s, false)
  ∧ Server.Get ToUpper s db key = Some (false, "").
Proof.
  intros H.
  assert (Hc : Server.CheckEntries ToUpper s db = false)
    by (unfold Server.CheckEntries; by rewrite H).
  unfold Server.Set_, Server.SetNX, Server.Incr, Server.Del, Server.Get.
  by rewrite Hc, H.
Qed.

(** The theorem at a registry that holds one database, asked for another. *)
Lemma missing_database_witness :
  let s := Server.mkServer {[id "DB" := empty_db]} 100000 in
  Server.dbs s !! id "OTHER" = None
  ∧ Server.CheckEntries id s "OTHER" = false
  ∧ Server.Set_ id s 1000 "OTHER" "k" "v" 0 = Some (s, false)
  ∧ Server.SetNX id s 1000 "OTHER" "k" "v" 0 = Some (s, false)
  ∧ Server.Incr id s 1000 "OTHER" "k" "1" = Some (s, false)
  ∧ Server.Del id s "OTHER" "k" = Some (s, false)
  ∧ Server.Get id s "OTHER" "k" = Some (false, "").
Proof.
  intros s.
  assert (H : Server.dbs s !! id "OTHER" = None)
    by (by apply lookup_singleton_ne).
  split; [exact H|].
  exact (missing_database id s 1000 0 "OTHER" "k" "v" "1" H).
Defined.

(** X18. When [Server.Set] and [Server.SetNX] write. For a database of the
    registry whose table is reachable, [Server.Set] returns [true] exactly
    when the entry count is below the cap, and [Server.SetNX] exactly when
    the count is below the cap and the key is absent. When they return
    [true] the key holds the value afterwards; when they return [false] the
    registry, the table and the log are as before. *)
Theorem write_admission (ToUpper : string → string) (s : Server.Server)
    (hm : HashMap) (now ttl : Z) (db key value : string) :
  Server.dbs s !! ToUpper db = Some hm → reachable hm →
  let below := GetEntries hm <? i64 (Server.MAX_ENTRIES s) in
  ∃ found cur,
    Get hm key = Some (found, cur)
    ∧ (∃ s', Server.Set_ ToUpper s now db key value ttl = Some (s', below)
         ∧ if below then Server.Get ToUpper s' db key = Some (true, value)
           else s' = s)
    ∧ (∃ s', Server.SetNX ToUpper s now db key value ttl
             = Some (s', below && negb found)
         ∧ if below && negb found
           then Server.Get ToUpper s' db key = Some (true, value)
           else s' = s).
Proof.
  intros Hdb Hr below. destruct (Reach.reachable_ok hm Hr) as [Hwf _].
  assert (Hce : Server.CheckEntries ToUpper s db = below)
    by (unfold Server.CheckEntries; by rewrite Hdb).
  destruct (Set_spec hm now ttl key value Hwf)
    as (hm' & E & Hwf' & Hkv & _).
  assert (Hget' : Server.Get ToUpper (Server.put ToUpper s db hm') db key
                  = Some (true, value)).
  { unfold Server.Get, Server.put. cbn [Server.dbs].
    rewrite lookup_insert_eq.
    by rewrite (Get_spec hm' key Hwf'), Hkv, lookup_insert_eq. }
  pose proof (Get_spec hm key Hwf) as Hget.
  exists (bool_decide (is_Some (kv hm !! key))), (default "" (kv hm !! key)).
  split; [rewrite Hget; by destruct (kv hm !! key)|]. split.
  - unfold Server.Set_. rewrite Hce. destruct below; cbn [negb].
    + rewrite Hdb, E. cbn. by eexists.
    + by exists s.
  - unfold Server.SetNX. rewrite Hce. destruct below; cbn [negb andb].
    + rewrite Hdb, Hget. cbn [mbind option_bind].
      destruct (kv hm !! key) as [v|]; cbn [bool_decide negb].
      * by exists s.
      * rewrite E. cbn [mbind option_bind]. by eexists.
    + by exists s.
Qed.

(** The theorem at an empty database with the default cap. *)
Lemma write_admission_witness :
  let s := Server.mkServer {[id "DB" := empty_db]} 100000 in
  Server.dbs s !! id "DB" = Some empty_db ∧ reachable empty_db
  ∧ ∃ found cur,
      Get empty_db "k" = Some (found, cur)
      ∧ (∃ s', Server.Set_ id s 1000 "DB" "k" "v" 0
               = Some (s', GetEntries empty_db <? i64 (Server.MAX_ENTRIES s))
           ∧ if GetEntries empty_db <? i64 (Server.MAX_ENTRIES s)
             then Server.Get id s' "DB" "k" = Some (true, "v")
             else s' = s)
      ∧ (∃ s', Server.SetNX id s 1000 "DB" "k" "v" 0
               = Some (s', (GetEntries empty_db <? i64 (Server.MAX_ENTRIES s))
                           && negb found)
           ∧ if (GetEntries empty_db <? i64 (Server.MAX_ENTRIES s))
                && negb found
             then Server.Get id s' "DB" "k" = Some (true, "v")
             else s' = s).
Proof.
  intros s.
  assert (H1 : Server.dbs s !! id "DB" = Some empty_db)
    by apply lookup_singleton_eq.
  split; [exact H1|]. split; [exact empty_db_reachable|].
  exact (write_admission id s empty_db 1000 0 "DB" "k" "v" H1
           empty_db_reachable).
Defined.

Module ReplayTTL.

Lemma addEntry_sub t now e t' :
  ttl_ok t → addEntry t now e = Some t' →
  ∀ j s k, member t' j s k → member t j s k ∨ k = Key e.
Proof.
  intros Hok E j s k Hm.
  destruct (Z.le_gt_cases (Ttl e) 0) as [Hle|Hgt].
  { unfold addEntry in E. destruct (Z.leb_spec (Ttl e) 0); [|lia].
    injection E as <-. by left. }
  destruct (Z.le_gt_cases (i64 (now + Ttl e)) (lastDeleted t)) as [Hl|Hl].
  { unfold addEntry in E. destruct (Z.leb_spec (Ttl e) 0); [lia|].
    destruct (List t !! shard_index t e); [|done]. cbn in E.
    destruct (Z.leb_spec (i64 (now + Ttl e)) (lastDeleted t)); [|lia].
    injection E as <-. by left. }
  destruct (TTLFacts.addEntry_member t now e Hok ltac:(lia) ltac:(lia))
    as (t'' & E' & _ & _ & _ & Hiff).
  rewrite E in E'. injection E' as <-.
  apply Hiff in Hm as [?|(_ & _ & ->)]; [by left|by right].
Qed.

Lemma retime_sub t now item ttl t' item' :
  ttl_ok t → retime t now item ttl = Some (t', item') →
  ∀ j s k, member t' j s k → member t j s k ∨ k = Key item.
Proof.
  intros Hok E j s k Hm. unfold retime in E.
  assert (∃ t1, (if Ttl item =? 0 then Some t
                 else delEntry t item (Ttl item)) = Some t1
                ∧ ttl_ok t1
                ∧ ∀ j s k, member t1 j s k → member t j s k)
    as (t1 & E1 & Hok1 & Hsub1).
  { destruct (Ttl item =? 0); [by exists t|].
    destruct (TTLFacts.delEntry_member t item (Ttl item) Hok)
      as (t1 & E1 & Hok1 & _ & _ & Hiff & _).
    exists t1. split; [done|]. split; [done|].
    intros j' s' k' H. by apply Hiff in H as [H _]. }
  rewrite E1 in E. cbn [mbind option_bind] in E.
  destruct (addEntry t1 now (set_Ttl item ttl)) as [t2|] eqn:E2; [|done].
  cbn in E. injection E as <- <-.
  destruct (addEntry_sub t1 now _ t2 Hok1 E2 j s k Hm) as [H|H].
  - left. by apply Hsub1.
  - by right.
Qed.

Lemma Set_members hm now ttl key value hm' ok :
  wf hm → Set_ hm now ttl key value = Some (hm', ok) →
  ∀ j s k, member (TTlManager hm') j s k →
           member (TTlManager hm) j s k ∨ k = key.
Proof.
  intros Hwf E. unfold Set_, getIndex in E.
  destruct (MoreFacts.log_record_rest hm (AOF.mkData "set" key value ttl))
    as (_ & _ & _ & Ht & _).
  destruct (MoreFacts.probe_rest
              (log_record hm (AOF.mkData "set" key value ttl)))
    as (_ & _ & _ & Ht' & _).
  rewrite Ht in Ht'.
  destruct (table _ !! _) as [basket|]; [|done]. cbn in E.
  destruct (find_item key basket) as [[pos item]|] eqn:Hf.
  - destruct (retime _ _ _ _) as [[t item']|] eqn:Er; [|done]. cbn in E.
    injection E as <- <-. cbn [TTlManager set_TTlManager].
    rewrite Ht' in Er. intros j s k Hm.
    destruct (retime_sub _ _ _ _ _ _ (wf_ttl hm Hwf) Er j s k Hm) as [?| ->];
      [by left|right].
    by destruct (find_item_Some _ _ _ _ Hf) as (_ & _ & _ & _ & Hk & _).
  - destruct (addEntry _ _ _) as [t|] eqn:Ea; [|done]. cbn in E.
    injection E as <- <-. cbn [TTlManager set_Entries set_TTlManager].
    rewrite Ht' in Ea. intros j s k Hm.
    by destruct (addEntry_sub _ _ _ _ (wf_ttl hm Hwf) Ea j s k Hm) as [?| ->];
      [left|right].
Qed.

Lemma Incr_members hm now ttl key amount hm' ok :
  wf hm → Incr hm now ttl key amount = Some (hm', ok) →
  ∀ j s k, member (TTlManager hm') j s k →
           member (TTlManager hm) j s k ∨ k = key.
Proof.
  intros Hwf E. unfold Incr, getIndex in E.
  destruct (MoreFacts.log_record_rest hm (AOF.mkData "incr" key amount 0))
    as (_ & _ & _ & Ht & _).
  destruct (table _ !! _) as [basket|]; [|done]. cbn in E.
  destruct (find_item key basket) as [[pos item]|] eqn:Hf.
  - unfold checkIsNumber in E.
    destruct (Strconv.ParseInt (Value item)) as [v|]; cbn in E;
      [|injection E as <- <-; rewrite Ht; by left].
    destruct (Strconv.ParseInt amount) as [a|]; cbn in E;
      [|injection E as <- <-; rewrite Ht; by left].
    destruct (retime _ _ _ _) as [[t item']|] eqn:Er; [|done]. cbn in E.
    injection E as <- <-. cbn [TTlManager set_TTlManager].
    rewrite Ht in Er. intros j s k Hm.
    destruct (retime_sub _ _ _ _ _ _ (wf_ttl hm Hwf) Er j s k Hm) as [?| ->];
      [by left|right].
    by destruct (find_item_Some _ _ _ _ Hf) as (_ & _ & _ & _ & Hk & _).
  - destruct (addEntry _ _ _) as [t|] eqn:Ea; [|done]. cbn in E.
    injection E as <- <-. cbn [TTlManager set_Entries set_TTlManager].
    rewrite Ht in Ea. intros j s k Hm.
    by destruct (addEntry_sub _ _ _ _ (wf_ttl hm Hwf) Ea j s k Hm) as [?| ->];
      [left|right].
Qed.

End ReplayTTL.

Module ReplaysFacts.

Lemma fmt_digits_length fuel :
  ∀ n acc, (String.length (Strconv.fmt_digits fuel n acc)
            <= fuel + String.length acc)%nat.
Proof.
  induction fuel as [|fuel IH]; intros n acc; cbn [Strconv.fmt_digits];
    [lia|].
  destruct (n / 10 =? 0); [cbn [String.length]; lia|].
  etrans; [apply IH|]. cbn [String.length]. lia.
Qed.

Lemma FormatInt_ok i : string_ok (Strconv.FormatInt i).
Proof.
  unfold string_ok, len, Strconv.FormatInt.
  assert (2 ^ 32 = 4294967296) as -> by reflexivity.
  destruct (i <? 0); cbn [String.length].
  - pose proof (fmt_digits_length 20 (- i) ""). cbn [String.length] in H. lia.
  - pose proof (fmt_digits_length 20 i ""). cbn [String.length] in H. lia.
Qed.

Lemma fits_insert hm hm' key e :
  fits hm → em hm' = <[key := e]> (em hm) →
  string_ok key → string_ok (Value e) → is_int64 (Ttl e) → fits hm'.
Proof.
  intros Hf Hem Hk Hv Ht k e' He. rewrite Hem in He.
  destruct (decide (k = key)) as [->|Hne].
  - rewrite lookup_insert_eq in He. by injection He as <-.
  - rewrite lookup_insert_ne in He by done. by apply Hf.
Qed.

Lemma fits_delete hm hm' key :
  fits hm → em hm' = delete key (em hm) → fits hm'.
Proof.
  intros Hf Hem k e He. rewrite Hem in He.
  apply lookup_delete_Some in He as [_ He]. by apply Hf.
Qed.

Lemma fits_snapshot hm :
  wf hm → fits hm → Forall entry_fits (GetAllEntriesAndCompress hm).
Proof.
  intros Hwf Hf. apply Forall_forall. intros x Hx.
  unfold GetAllEntriesAndCompress in Hx.
  apply list_elem_of_In, in_map_iff in Hx as (e & <- & He).
  apply list_elem_of_In in He.
  exact (Hf (Key e) e (proj2 (em_elem hm (Key e) e Hwf) (conj He eq_refl))).
Qed.

Lemma frames_app ds1 ds2 : frames (ds1 ++ ds2) = frames ds1 ++ frames ds2.
Proof. unfold frames. by rewrite flat_map_app. Qed.

Section Replays.

Variable sc : sched.
Variable hmi : HashMap.
Hypothesis Hwfi : wf hmi.
Hypothesis Hemi : em hmi = ∅.
Hypothesis Hri : reset hmi = true.

(** A step that sends one record to the log keeps the invariant when the
    record does to any replayed table what the step did to the live one. *)
Lemma replays_record hm1 hm1' d :
  replays sc hmi hm1 → wf hm1' → reset hm1' = false →
  Aof hm1' = Aof (log_record hm1 d) → frame_ok d →
  (∀ j s k, member (TTlManager hm1') j s k → string_ok k) →
  fits hm1' →
  (∀ hm2 now, wf hm2 → reset hm2 = true → kv hm2 = kv hm1 →
     ∃ hm2', apply_record hm2 now d = Some hm2' ∧ wf hm2'
             ∧ reset hm2' = true ∧ kv hm2' = kv hm1') →
  replays sc hmi hm1'.
Proof.
  intros [Hwf Hl Hk Hfit (dsf & hm2 & Hf & Hfr & E2 & Hwf2 & Hr2 & Hkv2)]
    Hwf' Hl' Ha Hd Hk' Hfit' Hrec.
  destruct (logged hm1 d Hl) as [Hc Hfile]. rewrite <- Ha in Hc, Hfile.
  split; try done.
  set (ds := dsf ++ AOF.com (Aof hm1)) in *.
  assert (∃ hm2a, (if resize_at sc (0 + length ds)
                   then CheckResize hm2 else Some hm2) = Some hm2a
                  ∧ wf hm2a ∧ reset hm2a = true ∧ kv hm2a = kv hm1)
    as (hm2a & Era & Hwfa & Hra & Hkva).
  { destruct (resize_at sc _); [|by exists hm2].
    destruct (CheckResize_spec hm2 Hwf2)
      as (hm2a & -> & Hwfa & Hkva & _ & _ & Hra & _).
    exists hm2a. split; [done|]. split; [done|]. split; congruence. }
  destruct (Hrec hm2a (clock sc (0 + length ds)) Hwfa Hra Hkva)
    as (hm2' & Erec & Hwf2' & Hr2' & Hkv2').
  exists dsf, hm2'. rewrite Hc, Hfile, app_assoc. fold ds.
  split; [done|]. split.
  { apply Forall_app. split; [done|]. by constructor. }
  split; [|done].
  rewrite apply_all_app, E2. cbn [mbind option_bind apply_all].
  rewrite Era. cbn [mbind option_bind]. rewrite Erec. done.
Qed.

(** A step that sends nothing to the log and changes no [Get]. *)
Lemma replays_quiet hm1 hm1' :
  replays sc hmi hm1 → wf hm1' → reset hm1' = false →
  Aof hm1' = Aof hm1 ∨ (AOF.com (Aof hm1') = AOF.com (Aof hm1)
                        ∧ AOF.file (Aof hm1') = AOF.file (Aof hm1)) →
  kv hm1' = kv hm1 → fits hm1' →
  (∀ j s k, member (TTlManager hm1') j s k →
            member (TTlManager hm1) j s k) →
  replays sc hmi hm1'.
Proof.
  intros [Hwf Hl Hk Hfit (dsf & hm2 & Hf & Hfr & E2 & Hwf2 & Hr2 & Hkv2)]
    Hwf' Hl' Ha Hkv Hfit' Hsub.
  assert (AOF.com (Aof hm1') = AOF.com (Aof hm1)
          ∧ AOF.file (Aof hm1') = AOF.file (Aof hm1)) as [Hc Hfile]
    by (destruct Ha as [->|?]; done).
  split; try done.
  - intros j s k H. by apply (Hk j s k), Hsub.
  - rewrite Hc, Hfile. exists dsf, hm2. split_and!; try done. congruence.
Qed.

Lemma set_record_frame ttl key value :
  is_int64 ttl → string_ok key → string_ok value →
  frame_ok (AOF.mkData "set" key value ttl).
Proof. intros. split_and!; auto using action_ok_set. Qed.

Lemma replays_Set hm1 now ttl key value :
  replays sc hmi hm1 → is_int64 ttl → string_ok key → string_ok value →
  ∃ hm1' ok, Set_ hm1 now ttl key value = Some (hm1', ok)
             ∧ replays sc hmi hm1'.
Proof.
  intros Hrp Ht Hk Hv. pose proof (rp_wf _ _ _ Hrp) as Hwf.
  destruct (Set_entry hm1 now ttl key value Hwf)
    as (hm1' & e & E & Hwf' & Hem & Hve & Hte & _ & Hr & Ha & _).
  assert (Hkv : kv hm1' = <[key := value]> (kv hm1)).
  { unfold kv. by rewrite Hem, fmap_insert, Hve. }
  exists hm1', true. split; [done|].
  apply (replays_record hm1 hm1' (AOF.mkData "set" key value ttl));
    [exact Hrp|exact Hwf'| |exact Ha| | | |].
  - rewrite Hr. exact (rp_live _ _ _ Hrp).
  - by apply set_record_frame.
  - intros j s k Hm.
    destruct (ReplayTTL.Set_members _ _ _ _ _ _ _ Hwf E j s k Hm) as [?| ->];
      [|done]. by apply (rp_keys _ _ _ Hrp j s k).
  - apply (fits_insert hm1 hm1' key e (rp_fits _ _ _ Hrp) Hem); congruence.
  - intros hm2 now2 Hwf2 Hr2 Hkv2.
    destruct (Set_spec hm2 now2 ttl key value Hwf2)
      as (hm2' & E2 & Hwf2' & Hkv2' & _ & Hr2' & _).
    change (apply_record hm2 now2 (AOF.mkData "set" key value ttl))
      with (fst <$> Set_ hm2 now2 ttl key value).
    rewrite E2. exists hm2'. split; [done|]. split; [done|].
    split; congruence.
Qed.

Lemma replays_Incr hm1 now ttl key amount :
  replays sc hmi hm1 → is_int64 ttl → string_ok key → string_ok amount →
  ∃ hm1' ok, Incr hm1 now ttl key amount = Some (hm1', ok)
             ∧ replays sc hmi hm1'.
Proof.
  intros Hrp Ht Hk Hv. pose proof (rp_wf _ _ _ Hrp) as Hwf.
  destruct (Incr_spec hm1 now ttl key amount Hwf)
    as (hm1' & ok & E & Hwf' & Hkv & _ & Hr & Ha & _).
  destruct (Incr_entry hm1 now ttl key amount Hwf)
    as (hm1'' & ok' & E' & _ & Heff & _).
  rewrite E in E'. injection E' as <- <-.
  exists hm1', ok. split; [done|].
  apply (replays_record hm1 hm1' (AOF.mkData "incr" key amount 0));
    [exact Hrp|exact Hwf'| |exact Ha| | | |].
  - rewrite Hr. exact (rp_live _ _ _ Hrp).
  - by apply incr_record_ok.
  - intros j s k Hm.
    destruct (ReplayTTL.Incr_members _ _ _ _ _ _ _ Hwf E j s k Hm)
      as [?| ->]; [|done]. by apply (rp_keys _ _ _ Hrp j s k).
  - pose proof (rp_fits _ _ _ Hrp) as Hfit. unfold incr_effect in Heff.
    destruct (em hm1 !! key) as [cur|].
    + destruct (Strconv.ParseInt (Value cur)) as [v|].
      * destruct (Strconv.ParseInt amount) as [a|].
        -- destruct Heff as (_ & e & Hem & Hve & Hte).
           apply (fits_insert hm1 hm1' key e Hfit Hem); [done| |congruence].
           rewrite Hve. apply FormatInt_ok.
        -- destruct Heff as [_ Hem]. intros k e He. rewrite Hem in He.
           by apply Hfit.
      * destruct Heff as [_ Hem]. intros k e He. rewrite Hem in He.
        by apply Hfit.
    + destruct Heff as (_ & e & Hem & Hve & Hte).
      apply (fits_insert hm1 hm1' key e Hfit Hem); congruence.
  - intros hm2 now2 Hwf2 Hr2 Hkv2.
    destruct (Incr_spec hm2 now2 0 key amount Hwf2)
      as (hm2' & ok2 & E2 & Hwf2' & Hkv2' & _ & Hr2' & _).
    rewrite apply_record_incr, E2. exists hm2'. split; [done|].
    split; [done|]. split; [congruence|].
    rewrite Hkv2 in Hkv2'. congruence.
Qed.

Lemma replays_Del hm1 key :
  replays sc hmi hm1 → string_ok key →
  ∃ hm1' ok, Del hm1 key = Some (hm1', ok) ∧ replays sc hmi hm1'
    ∧ numShards (TTlManager hm1') = numShards (TTlManager hm1).
Proof.
  intros Hrp Hk. pose proof (rp_wf _ _ _ Hrp) as Hwf.
  destruct (SweepFacts.Del_member hm1 key Hwf)
    as (hm1' & ok & E & Hwf' & Hkv & Hn & Hsub & _).
  destruct (Del_entry hm1 key Hwf)
    as (hm1'' & ok' & E' & _ & Hem & _ & _ & Hr & Ha & _).
  rewrite E in E'. injection E' as <- <-.
  exists hm1', ok. split; [done|]. split; [|done].
  apply (replays_record hm1 hm1' (AOF.mkData "del" key "" 0));
    [exact Hrp|exact Hwf'| |exact Ha| | | |].
  - rewrite Hr. exact (rp_live _ _ _ Hrp).
  - split_and!; auto using action_ok_del, empty_ok, zero_int64.
  - intros j s k Hm. by apply (rp_keys _ _ _ Hrp j s k), Hsub.
  - exact (fits_delete hm1 hm1' key (rp_fits _ _ _ Hrp) Hem).
  - intros hm2 now2 Hwf2 Hr2 Hkv2.
    destruct (Del_spec hm2 key Hwf2)
      as (hm2' & ok2 & E2 & Hwf2' & Hkv2' & _ & _ & Hr2' & _).
    rewrite apply_record_del, E2. exists hm2'. split; [done|].
    split; [done|]. split; congruence.
Qed.

Lemma replays_CheckResize hm1 :
  replays sc hmi hm1 →
  ∃ hm1', CheckResize hm1 = Some hm1' ∧ replays sc hmi hm1'.
Proof.
  intros Hrp. pose proof (rp_wf _ _ _ Hrp) as Hwf.
  destruct (CheckResize_spec hm1 Hwf)
    as (hm1' & E & Hwf' & Hkv & Hp & _ & Hr & Ha & _).
  destruct (CheckResize_fields hm1 hm1' E) as (_ & _ & Ht & _).
  exists hm1'. split; [done|].
  apply (replays_quiet hm1 hm1');
    [exact Hrp|exact Hwf'| |by left|exact Hkv| |].
  - rewrite Hr. exact (rp_live _ _ _ Hrp).
  - intros k e He. rewrite (em_perm hm1 hm1' Hwf Hp) in He.
    by apply (rp_fits _ _ _ Hrp).
  - by rewrite Ht.
Qed.

Lemma replays_Checker hm1 inputs ev :
  replays sc hmi hm1 →
  ∃ inputs' hm1' go,
    ResizeChecker_step (inputs, hm1) ev = Some (inputs', hm1', go)
    ∧ replays sc hmi hm1'.
Proof.
  intros Hrp. pose proof (rp_wf _ _ _ Hrp) as Hwf.
  pose proof (rp_live _ _ _ Hrp) as Hl.
  pose proof (rp_fits _ _ _ Hrp) as Hfit.
  destruct ev; cbn [ResizeChecker_step].
  - assert (Hrp1 : replays sc hmi
                     (set_resizeCheck hm1 (Nat.pred (resizeCheck hm1)))).
    { apply (replays_quiet hm1);
        [exact Hrp| |exact Hl|by left|done|exact Hfit|done].
      split; cbn; apply Hwf. }
    destruct (Z.rem (inputs + 1) 1000 =? 0).
    + destruct (replays_CheckResize _ Hrp1) as (hm1' & -> & Hrp').
      cbn [mbind option_bind]. by eexists _, _, _.
    + by eexists _, _, _.
  - destruct (compaction_due (Entries hm1) (deletedEntries hm1)).
    + eexists _, _, _. split; [reflexivity|].
      apply (replays_quiet hm1);
        [exact Hrp| |exact Hl|by right|done|exact Hfit|done].
      split; cbn; apply Hwf.
    + by eexists _, _, _.
  - by eexists _, _, _.
Qed.

Lemma swept_Del n hm key :
  swept sc hmi n hm → string_ok key →
  ∃ hm' ok, Del hm key = Some (hm', ok) ∧ swept sc hmi n hm'.
Proof.
  intros [Hrp Hn] Hk.
  destruct (replays_Del hm key Hrp Hk) as (hm' & ok & E & Hrp' & Hs).
  exists hm', ok. split; [done|]. split; [done|].
  destruct (wf_ttl _ (rp_wf _ _ _ Hrp')) as [_ ->].
  destruct (wf_ttl _ (rp_wf _ _ _ Hrp)) as [_ H]. by rewrite Hs, <- H.
Qed.

Lemma swept_keys n ks :
  Forall string_ok ks →
  ∀ hm, swept sc hmi n hm →
    ∃ hm', delEntriesFromHashMap hm ks = Some hm' ∧ swept sc hmi n hm'.
Proof.
  induction 1 as [|k ks Hk _ IH]; intros hm Hs; [by exists hm|].
  cbn [delEntriesFromHashMap].
  destruct (swept_Del n hm k Hs Hk) as (hm1 & ok & -> & Hs1).
  cbn [mbind option_bind]. by apply IH.
Qed.

Lemma swept_shard n i hm j :
  swept sc hmi n hm → (j < n)%nat →
  ∃ hm', sweep_shard i (Some hm) j = Some hm' ∧ swept sc hmi n hm'.
Proof.
  intros [Hrp Hn] Hj. pose proof (rp_wf _ _ _ Hrp) as Hwf.
  unfold sweep_shard. cbn [mbind option_bind].
  destruct (lookup_lt_is_Some_2 (List (TTlManager hm)) j ltac:(lia))
    as [em_ Hem]. rewrite Hem. cbn [mbind option_bind].
  destruct (em_ !! i) as [bucket|] eqn:Hb; [|by exists hm].
  apply swept_keys.
  - apply Forall_forall. intros k Hk. apply elem_of_elements in Hk.
    apply (rp_keys _ _ _ Hrp j i k). by exists em_, bucket.
  - split; [|cbn; by rewrite length_insert].
    apply (replays_quiet hm);
      [exact Hrp| |exact (rp_live _ _ _ Hrp)|by left|done
      |exact (rp_fits _ _ _ Hrp)|].
    + split; cbn; try apply Hwf.
      destruct (wf_ttl _ Hwf) as [H1 H2]. split; cbn; [done|].
      by rewrite length_insert.
    + intros j' s k (em0 & b & Hl & Hb0 & Hk). cbn in Hl.
      destruct (decide (j' = j)) as [->|Hne].
      * rewrite list_lookup_insert_eq in Hl by lia. injection Hl as <-.
        destruct (decide (s = i)) as [->|Hs].
        -- by rewrite lookup_delete_eq in Hb0.
        -- rewrite lookup_delete_ne in Hb0 by done. by exists em_, b.
      * rewrite list_lookup_insert_ne in Hl by done. by exists em0, b.
Qed.

Lemma swept_second n hm i :
  swept sc hmi n hm →
  ∃ hm', sweep_second (Some hm) i = Some hm' ∧ swept sc hmi n hm'.
Proof.
  intros Hs. unfold sweep_second. cbn [mbind option_bind].
  apply (Reach.fold_kept (sweep_shard i) (swept sc hmi n)
           (λ j, (j < n)%nat)); [| |done].
  - intros hm1 j Hs1 Hj. by apply swept_shard.
  - apply Forall_forall. intros j Hj. apply elem_of_seq in Hj.
    destruct Hs as [_ <-]. lia.
Qed.

Lemma replays_Sweep hm1 now :
  replays sc hmi hm1 →
  ∃ hm1', delEntries hm1 now = Some hm1' ∧ replays sc hmi hm1'.
Proof.
  intros Hrp. unfold delEntries.
  destruct (Reach.fold_kept sweep_second
              (swept sc hmi (length (List (TTlManager hm1)))) (λ _, True)
              (map (λ n, lastDeleted (TTlManager hm1) + 1 + Z.of_nat n)
                 (seq 0 (Z.to_nat (now - lastDeleted (TTlManager hm1)))))
              ltac:(intros; by apply swept_second)
              ltac:(by apply Forall_forall) hm1 ltac:(by split))
    as (hm' & -> & Hrp' & _).
  cbn [mbind option_bind]. eexists. split; [reflexivity|].
  pose proof (rp_wf _ _ _ Hrp') as Hwf'.
  apply (replays_quiet hm');
    [exact Hrp'| |exact (rp_live _ _ _ Hrp')|by left|done
    |exact (rp_fits _ _ _ Hrp')|done].
  split; cbn; apply Hwf'.
Qed.

(** The log writer writes the oldest pending record. *)
Lemma replays_Write hm1 :
  replays sc hmi hm1 →
  replays sc hmi (set_Aof hm1 (Compaction.Loop_write (Aof hm1))).
Proof.
  intros [Hwf Hl Hk Hfit (dsf & hm2 & Hf & Hfr & E2 & Hwf2 & Hr2 & Hkv2)].
  unfold Compaction.Loop_write.
  destruct (AOF.com (Aof hm1)) as [|d rest] eqn:Hcom.
  - split; try done.
    + split; cbn; apply Hwf.
    + exists dsf, hm2. cbn [Aof set_Aof]. rewrite Hcom.
      split_and!; [exact Hf|exact Hfr|exact E2|exact Hwf2|exact Hr2
                  |exact Hkv2].
  - split; try done.
    + split; cbn; apply Hwf.
    + exists (dsf ++ [d]), hm2. cbn [Aof set_Aof AOF.com AOF.file].
      rewrite <- app_assoc. cbn [app]. split_and!; try done.
      rewrite Hf, frames_app. unfold frames at 3. cbn [flat_map].
      by rewrite app_nil_r.
Qed.

(** The log writer compacts the log when nothing is pending. *)
Lemma replays_Compress hm1 :
  replays sc hmi hm1 →
  (AOF.compressing (Aof hm1) ≠ O → AOF.com (Aof hm1) = []) →
  replays sc hmi (Compaction.Loop_compress hm1).
Proof.
  intros Hrp Hcom. unfold Compaction.Loop_compress.
  destruct (AOF.compressing (Aof hm1)) as [|n]; [done|].
  specialize (Hcom ltac:(done)).
  destruct Hrp as [Hwf Hl Hk Hfit _].
  split; try done.
  - split; cbn; apply Hwf.
  - set (snap := GetAllEntriesAndCompress hm1).
    assert (Hnd : NoDup (ae_Key <$> snap)).
    { unfold snap. rewrite snapshot_keys. exact (wf_nodup hm1 Hwf). }
    destruct (CompactionFacts.replay_snapshot sc snap Hnd O hmi Hwfi)
      as (hm2 & E2 & Hwf2 & Hr2 & Hvt2).
    exists (map set_record snap), hm2.
    cbn [Aof set_Aof Compaction.createCompressedAOF AOF.com AOF.file].
    rewrite Hcom, app_nil_r. split_and!; try done.
    + apply CompactionFacts.compressed_frames.
    + apply Forall_forall. intros d Hd.
      apply list_elem_of_In, in_map_iff in Hd as (e & <- & He).
      apply CompactionFacts.set_record_ok.
      pose proof (fits_snapshot hm1 Hwf Hfit) as Hs.
      rewrite Forall_forall in Hs. by apply Hs, list_elem_of_In.
    + by rewrite Hr2.
    + rewrite !CompactionFacts.kv_vt. f_equal.
      apply map_eq. intros k. rewrite Hvt2.
      unfold snap. rewrite (CompactionFacts.snapshot_vt hm1 Hwf).
      match goal with
      | |- _ = vt ?h !! k => change (vt h) with (vt hm1)
      end.
      destruct (vt hm1 !! k) eqn:Hvk; [done|].
      unfold vt. by rewrite Hemi, fmap_empty, lookup_empty.
Qed.

Lemma exec_op_replays inputs hm1 now o :
  replays sc hmi hm1 → op_ok o →
  (o = OpCompress → AOF.compressing (Aof hm1) ≠ O →
   AOF.com (Aof hm1) = []) →
  ∃ inputs' hm1', exec_op (inputs, hm1) now o = Some (inputs', hm1')
                  ∧ replays sc hmi hm1'.
Proof.
  intros Hrp Hok Hdr. destruct o; cbn [exec_op op_ok] in *.
  - destruct Hok as (Ht & Hk & Hv).
    destruct (replays_Set hm1 now ttl key value Hrp Ht Hk Hv)
      as (hm1' & ok & -> & Hrp'). by eexists _, _.
  - destruct Hok as (Ht & Hk & Hv).
    destruct (replays_Incr hm1 now ttl key amount Hrp Ht Hk Hv)
      as (hm1' & ok & -> & Hrp'). by eexists _, _.
  - destruct (replays_Del hm1 key Hrp Hok) as (hm1' & ok & -> & Hrp' & _).
    by eexists _, _.
  - destruct (replays_CheckResize hm1 Hrp) as (hm1' & -> & Hrp').
    by eexists _, _.
  - destruct (replays_Checker hm1 inputs ev Hrp)
      as (inputs' & hm1' & go & -> & Hrp'). by eexists _, _.
  - destruct (replays_Sweep hm1 now Hrp) as (hm1' & -> & Hrp').
    by eexists _, _.
  - eexists _, _. split; [reflexivity|]. by apply replays_Write.
  - eexists _, _. split; [reflexivity|]. apply replays_Compress; auto.
Qed.

Lemma run_ops_replays ops :
  Forall (λ r, op_ok r.2) ops →
  ∀ inputs hm1, replays sc hmi hm1 →
    compress_drained (inputs, hm1) ops = true →
    ∃ inputs' hm1', run_ops (inputs, hm1) ops = Some (inputs', hm1')
                    ∧ replays sc hmi hm1'.
Proof.
  induction 1 as [|[now o] ops Hok _ IH]; intros inputs hm1 Hrp Hdr.
  - by exists inputs, hm1.
  - cbn [run_ops compress_drained] in *.
    apply andb_prop in Hdr as [Hd1 Hd2].
    destruct (exec_op_replays inputs hm1 now o Hrp Hok)
      as (inputs1 & hm1a & E & Hrp1).
    { intros -> Hs. cbn [snd] in Hd1.
      destruct (AOF.compressing (Aof hm1)); [done|].
      by destruct (AOF.com (Aof hm1)). }
    rewrite E in Hd2 |- *. cbn [mbind option_bind]. by apply IH.
Qed.

End Replays.

End ReplaysFacts.

(** X19. Replay equivalence with TTLs, expiration and compaction. A database
    is created empty and goes through any sequence of [Set] and [Incr] with
    any TTL, [Del], resize checks, turns of the resize checker, expiration
    sweeps, and turns of the log writer, which writes pending records and
    compacts the log when the resize checker has asked for it; the strings
    fit the frame format, and the log writer compacts only when it has
    written every record sent to it. The database
    is closed and opened again, under any configuration and schedule. Then
    every step returns, and the reopened table answers every [Get] as the
    table did before it was closed and counts the same entries. What the
    sweep deleted stays deleted, because the sweep deletes through [Del],
    which logs. *)
Theorem replay_with_ttl (now ncpu mult seed_ now' ncpu' mult' seed' : Z)
    (sc sc' : sched) (ops : list (Z * op)) :
  cpu_ok ncpu mult → cpu_ok ncpu' mult' →
  Forall (λ r, op_ok r.2) ops →
  compress_drained (0, fresh_db now ncpu mult seed_) ops = true →
  ∃ inputs hm1 hm2,
    NewHashMap now ncpu mult seed_ sc None
    = Some (fresh_db now ncpu mult seed_)
    ∧ run_ops (0, fresh_db now ncpu mult seed_) ops = Some (inputs, hm1)
    ∧ NewHashMap now' ncpu' mult' seed' sc' (Some (Close hm1)) = Some hm2
    ∧ (∀ key, Get hm2 key = Get hm1 key)
    ∧ GetEntries hm2 = GetEntries hm1.
Proof.
  intros Hc Hc' Hops Hdr.
  destruct (initial_ok now ncpu mult seed_ Hc) as [Hwf0 Hkv0].
  destruct (initial_ok now' ncpu' mult' seed' Hc') as [Hwfi Hkvi].
  set (hmi := initial now' ncpu' mult' seed').
  set (hm0 := fresh_db now ncpu mult seed_) in *.
  assert (Hrp0 : replays sc' hmi hm0).
  { split.
    - by apply wf_opened.
    - done.
    - intros j s k (em0 & b & Hl & Hb & _). cbn in Hl.
      apply lookup_replicate in Hl as [-> _]. by rewrite lookup_empty in Hb.
    - intros k e He. unfold hm0, fresh_db in He.
      change (em (set_Aof _ _)) with (em (initial now ncpu mult seed_)) in He.
      by rewrite em_initial, lookup_empty in He.
    - exists [], hmi. split; [done|]. split; [constructor|].
      split; [done|]. split; [done|]. split; [done|].
      unfold hmi. by rewrite Hkvi. }
  destruct (ReplaysFacts.run_ops_replays sc' hmi Hwfi
              (em_initial now' ncpu' mult' seed') eq_refl ops Hops 0 hm0
              Hrp0 Hdr)
    as (inputs & hm1 & Erun
        & [Hwf1 Hl1 _ _ (dsf & hm2 & Hfile & Hfr & E2 & Hwf2 & _ & Hkv)]).
  set (hm2' := set_Aof (set_reset hm2 false) (AOF.mkAOF [] (Close hm1) 0)).
  assert (Hclose : Close hm1 = frames (dsf ++ AOF.com (Aof hm1)) ++ []).
  { unfold Close, AOF.Loop. cbn.
    by rewrite Hfile, app_nil_r, ReplaysFacts.frames_app. }
  assert (Hwf2' : wf hm2') by (by apply wf_opened).
  assert (Hkv' : kv hm2' = kv hm1) by done.
  exists inputs, hm1, hm2'. split_and!.
  - done.
  - done.
  - unfold NewHashMap. rewrite Hclose at 1.
    rewrite (ReplayAOF_frames _ sc' _ [] Hfr at_end_nil).
    unfold hmi in E2. by rewrite E2.
  - intros key.
    by rewrite (Get_spec hm2' key Hwf2'), (Get_spec hm1 key Hwf1), Hkv'.
  - unfold GetEntries.
    by rewrite (wf_size hm2' Hwf2'), (wf_size hm1 Hwf1), Hkv'.
Qed.

(** The theorem at a run in which three keys expire and are swept, and the
    log is compacted after the writer has caught up. *)
Lemma replay_with_ttl_witness :
  cpu_ok 8 16 ∧ Forall (λ r, op_ok r.2) ttl_run
  ∧ compress_drained (0, fresh_db 1000 8 16 0) ttl_run = true
  ∧ ∃ inputs hm1 hm2,
      NewHashMap 1000 8 16 0 quiet None = Some (fresh_db 1000 8 16 0)
      ∧ run_ops (0, fresh_db 1000 8 16 0) ttl_run = Some (inputs, hm1)
      ∧ NewHashMap 2000 8 16 0 quiet (Some (Close hm1)) = Some hm2
      ∧ (∀ key, Get hm2 key = Get hm1 key)
      ∧ GetEntries hm2 = GetEntries hm1.
Proof.
  assert (Hc : cpu_ok 8 16) by (unfold cpu_ok; lia).
  assert (Hops : Forall (λ r, op_ok r.2) ttl_run).
  { unfold ttl_run. repeat constructor;
      unfold string_ok, len, is_int64, MinInt64, MaxInt64; simpl; lia. }
  assert (Hdr : compress_drained (0, fresh_db 1000 8 16 0) ttl_run = true)
    by (vm_compute; reflexivity).
  split; [exact Hc|]. split; [exact Hops|]. split; [exact Hdr|].
  exact (replay_with_ttl 1000 8 16 0 2000 8 16 0 quiet quiet ttl_run
           Hc Hc Hops Hdr).
Defined.

(** The run of the witness: the keys with the TTL are gone after the sweep,
    the counter holds 50, and the file left at the close is the snapshot of
    the compaction and the two records that came after it. *)
Example ttl_run_result :
  ('(_, hm) ← run_ops (0, fresh_db 1000 8 16 0) ttl_run;
   k ← Get hm "a"; n ← Get hm "n";
   Some (k, n, GetEntries hm, Close hm))
  = Some ((false, ""), (true, "50"), 1,
          frames [AOF.mkData "set" "n" "42" 0;
                  AOF.mkData "del" "missing" "" 0;
                  AOF.mkData "incr" "n" "8" 0]).
Proof. vm_compute. reflexivity. Qed.

(** Why the log writer must have caught up: compaction with an increment
    still pending puts the incremented value in the snapshot and the
    increment behind it, and the reopened table counts it twice. *)
Example racy_run_result :
  compress_drained (0, fresh_db 1000 8 16 0) racy_run = false
  ∧ ('(_, hm1) ← run_ops (0, fresh_db 1000 8 16 0) racy_run;
     hm2 ← NewHashMap 2000 8 16 0 quiet (Some (Close hm1));
     live ← Get hm1 "n"; reopened ← Get hm2 "n";
     Some (live, reopened))
    = Some ((true, "10"), (true, "15")).
Proof. split; vm_compute; reflexivity. Qed.

(** A run from the empty database, during which the log writer compacts
    only when it has caught up, leaves a table that the replay of its log
    gives. *)
Lemma run_replays (now ncpu mult seed_ now' ncpu' mult' seed' : Z)
    (sc' : sched) (ops : list (Z * op)) (inputs : Z) (hm : HashMap) :
  cpu_ok ncpu mult → cpu_ok ncpu' mult' →
  Forall (λ r, op_ok r.2) ops →
  compress_drained (0, fresh_db now ncpu mult seed_) ops = true →
  run_ops (0, fresh_db now ncpu mult seed_) ops = Some (inputs, hm) →
  replays sc' (initial now' ncpu' mult' seed') hm.
Proof.
  intros Hc Hc' Hops Hdr Hrun.
  destruct (initial_ok now ncpu mult seed_ Hc) as [Hwf0 Hkv0].
  destruct (initial_ok now' ncpu' mult' seed' Hc') as [Hwfi Hkvi].
  set (hmi := initial now' ncpu' mult' seed').
  set (hm0 := fresh_db now ncpu mult seed_) in *.
  assert (Hrp0 : replays sc' hmi hm0).
  { split.
    - by apply wf_opened.
    - done.
    - intros j s k (em0 & b & Hl & Hb & _). cbn in Hl.
      apply lookup_replicate in Hl as [-> _]. by rewrite lookup_empty in Hb.
    - intros k e He. unfold hm0, fresh_db in He.
      change (em (set_Aof _ _)) with (em (initial now ncpu mult seed_)) in He.
      by rewrite em_initial, lookup_empty in He.
    - exists [], hmi. split; [done|]. split; [constructor|].
      split; [done|]. split; [done|]. split; [done|].
      unfold hmi. by rewrite Hkvi. }
  destruct (ReplaysFacts.run_ops_replays sc' hmi Hwfi
              (em_initial now' ncpu' mult' seed') eq_refl ops Hops 0 hm0
              Hrp0 Hdr)
    as (inputs1 & hm1 & Erun & Hrp).
  rewrite Erun in Hrun. by injection Hrun as -> ->.
Qed.

(** X20. An increment that is pending when the log is compacted is counted
    twice. After any run from the empty database, the log writer has written
    every record and the resize checker has asked for a compaction. A key
    holds a number and [Incr] adds to it; before the log writer takes the
    record of the increment from the channel, it takes the signal and
    compacts. The snapshot holds the incremented value and the record of the
    increment is written behind it: when the database is closed and opened
    again, the key holds the amount twice over; the other keys are as they
    were. *)
Theorem pending_incr_counted_twice
    (now ncpu mult seed_ now' ncpu' mult' seed' t ttl : Z) (sc' : sched)
    (ops : list (Z * op)) (inputs : Z) (hm : HashMap)
    (key amount cur : string) (v x : Z) :
  cpu_ok ncpu mult → cpu_ok ncpu' mult' →
  Forall (λ r, op_ok r.2) ops →
  compress_drained (0, fresh_db now ncpu mult seed_) ops = true →
  run_ops (0, fresh_db now ncpu mult seed_) ops = Some (inputs, hm) →
  AOF.com (Aof hm) = [] → AOF.compressing (Aof hm) ≠ O →
  is_int64 ttl → string_ok key → string_ok amount →
  Get hm key = Some (true, cur) →
  Strconv.ParseInt cur = Some v → Strconv.ParseInt amount = Some x →
  ∃ hm1 hm2,
    Incr hm t ttl key amount = Some (hm1, true)
    ∧ Get hm1 key = Some (true, Strconv.FormatInt (i64 (v + x)))
    ∧ NewHashMap now' ncpu' mult' seed' sc'
        (Some (Close (Compaction.Loop_compress hm1))) = Some hm2
    ∧ Get hm2 key = Some (true, Strconv.FormatInt (i64 (v + x + x)))
    ∧ ∀ k, k ≠ key → Get hm2 k = Get hm1 k.
Proof.
  intros Hc Hc' Hops Hdr Hrun Hcom Hsig Ht Hk Ha Hget Hcur Hamt.
  pose proof (run_replays now ncpu mult seed_ now' ncpu' mult' seed' sc'
                ops inputs hm Hc Hc' Hops Hdr Hrun) as Hrp.
  destruct (initial_ok now' ncpu' mult' seed' Hc') as [Hwfi Hkvi].
  set (hmi := initial now' ncpu' mult' seed') in *.
  destruct (ReplaysFacts.replays_Incr sc' hmi hm t ttl key amount Hrp Ht Hk
              Ha) as (hm1 & ok & EI & Hrp1).
  destruct Hrp as [Hwf Hl _ _ _].
  set (d := AOF.mkData "incr" key amount 0).
  destruct (Incr_spec hm t ttl key amount Hwf)
    as (hm1' & ok' & EI' & Hwf1 & Hkv1 & _ & _ & Haof1 & _).
  rewrite EI in EI'. injection EI' as <- <-.
  assert (Hlk : kv hm !! key = Some cur).
  { rewrite (Get_spec hm key Hwf) in Hget.
    destruct (kv hm !! key); by inversion Hget. }
  unfold incr_kv in Hkv1. rewrite Hlk, Hcur, Hamt in Hkv1.
  injection Hkv1 as Hkv1 ->.
  destruct (ReplayEquiv.logged hm d Hl) as [Hc1 Hf1].
  fold d in Haof1. rewrite <- Haof1, Hcom in Hc1. cbn [app] in Hc1.
  assert (Hs1 : AOF.compressing (Aof hm1) = AOF.compressing (Aof hm)).
  { rewrite Haof1. unfold log_record. by rewrite Hl. }
  destruct Hrp1 as [_ _ _ Hfit1 _].
  set (snap := GetAllEntriesAndCompress hm1).
  assert (Hclose : Close (Compaction.Loop_compress hm1)
                   = frames (map set_record snap ++ [d]) ++ []).
  { unfold Close, Compaction.Loop_compress, AOF.Loop. rewrite Hs1.
    destruct (AOF.compressing (Aof hm)) as [|n]; [done|].
    cbn [Aof set_Aof Compaction.createCompressedAOF AOF.com AOF.file].
    rewrite Hc1, app_nil_r, ReplaysFacts.frames_app.
    by rewrite CompactionFacts.compressed_frames. }
  assert (Hok : Forall frame_ok (map set_record snap ++ [d])).
  { apply Forall_app. split.
    - apply Forall_forall. intros r Hr.
      apply list_elem_of_In, in_map_iff in Hr as (e & <- & He).
      apply CompactionFacts.set_record_ok.
      pose proof (ReplaysFacts.fits_snapshot hm1 Hwf1 Hfit1) as Hs.
      rewrite Forall_forall in Hs. by apply Hs, list_elem_of_In.
    - constructor; [|constructor]. by apply ReplayEquiv.incr_record_ok. }
  assert (Hnd : NoDup (ae_Key <$> snap)).
  { unfold snap. rewrite snapshot_keys. exact (wf_nodup hm1 Hwf1). }
  destruct (CompactionFacts.replay_snapshot sc' snap Hnd O hmi Hwfi)
    as (hmA & EA & HwfA & _ & HvtA).
  assert (HkvA : kv hmA = kv hm1).
  { rewrite !CompactionFacts.kv_vt. f_equal. apply map_eq. intros k.
    rewrite HvtA. unfold snap.
    rewrite (CompactionFacts.snapshot_vt hm1 Hwf1).
    destruct (vt hm1 !! k) eqn:Hvk; [done|].
    unfold vt, hmi. by rewrite em_initial, fmap_empty, lookup_empty. }
  set (i := (0 + length (map set_record snap))%nat).
  assert (∃ hmB, (if resize_at sc' i then CheckResize hmA else Some hmA)
                 = Some hmB ∧ wf hmB ∧ kv hmB = kv hmA)
    as (hmB & EB & HwfB & HkvB).
  { destruct (resize_at sc' i); [|by exists hmA].
    destruct (CheckResize_spec hmA HwfA) as (hmB & -> & HwfB & HkvB & _).
    by exists hmB. }
  destruct (Incr_spec hmB (clock sc' i) 0 key amount HwfB)
    as (hmC & okC & EC & HwfC & HkvC & _).
  unfold incr_kv in HkvC.
  rewrite HkvB, HkvA, Hkv1, lookup_insert_eq in HkvC.
  rewrite (StrconvFacts.ParseInt_FormatInt _ (StrconvFacts.i64_range _)),
    Hamt in HkvC.
  injection HkvC as HkvC ->.
  rewrite insert_insert_eq, i64_add_l in HkvC.
  set (hm2 := set_Aof (set_reset hmC false)
                (AOF.mkAOF [] (Close (Compaction.Loop_compress hm1)) 0)).
  assert (Hwf2 : wf hm2) by (by apply wf_opened).
  assert (Hkv2 : kv hm2 = kv hmC) by done.
  exists hm1, hm2. split_and!.
  - done.
  - by rewrite (Get_spec hm1 key Hwf1), Hkv1, lookup_insert_eq.
  - unfold NewHashMap. rewrite Hclose at 1.
    rewrite (ReplayAOF_frames _ sc' _ [] Hok at_end_nil).
    rewrite apply_all_app. fold hmi. rewrite EA.
    cbn [mbind option_bind apply_all]. fold i. rewrite EB.
    cbn [mbind option_bind].
    change (apply_record hmB (clock sc' i) d)
      with (fst <$> Incr hmB (clock sc' i) 0 key amount).
    by rewrite EC.
  - by rewrite (Get_spec hm2 key Hwf2), Hkv2, HkvC, lookup_insert_eq.
  - intros k Hne.
    rewrite (Get_spec hm2 k Hwf2), (Get_spec hm1 k Hwf1), Hkv2, HkvC, Hkv1.
    by rewrite !lookup_insert_ne.
Qed.

(** The theorem at a database in which three keys were set and deleted and a
    counter holds 5, incremented by 5. *)
Lemma pending_incr_counted_twice_witness :
  cpu_ok 8 16
  ∧ Forall (λ r, op_ok r.2) signalled_run
  ∧ compress_drained (0, fresh_db 1000 8 16 0) signalled_run = true
  ∧ run_ops (0, fresh_db 1000 8 16 0) signalled_run
    = Some (signalled_db.1, signalled_db.2)
  ∧ AOF.com (Aof signalled_db.2) = []
  ∧ AOF.compressing (Aof signalled_db.2) ≠ O
  ∧ is_int64 0 ∧ string_ok "n" ∧ string_ok "5"
  ∧ Get signalled_db.2 "n" = Some (true, "5")
  ∧ Strconv.ParseInt "5" = Some 5
  ∧ ∃ hm1 hm2,
      Incr signalled_db.2 1005 0 "n" "5" = Some (hm1, true)
      ∧ Get hm1 "n" = Some (true, Strconv.FormatInt (i64 (5 + 5)))
      ∧ NewHashMap 2000 8 16 0 quiet
          (Some (Close (Compaction.Loop_compress hm1))) = Some hm2
      ∧ Get hm2 "n" = Some (true, Strconv.FormatInt (i64 (5 + 5 + 5)))
      ∧ ∀ k, k ≠ "n" → Get hm2 k = Get hm1 k.
Proof.
  assert (Hc : cpu_ok 8 16) by (unfold cpu_ok; lia).
  assert (Hops : Forall (λ r, op_ok r.2) signalled_run).
  { unfold signalled_run. repeat constructor;
      unfold string_ok, len, is_int64, MinInt64, MaxInt64; simpl; lia. }
  assert (Hdr : compress_drained (0, fresh_db 1000 8 16 0) signalled_run
                = true) by (vm_compute; reflexivity).
  assert (Hrun : run_ops (0, fresh_db 1000 8 16 0) signalled_run
                 = Some (signalled_db.1, signalled_db.2))
    by (vm_compute; reflexivity).
  assert (Hcom : AOF.com (Aof signalled_db.2) = [])
    by (vm_compute; reflexivity).
  assert (Hsig : AOF.compressing (Aof signalled_db.2) ≠ O)
    by (vm_compute; discriminate).
  assert (Ht : is_int64 0) by (unfold is_int64, MinInt64, MaxInt64; lia).
  assert (Hk : string_ok "n") by (unfold string_ok, len; simpl; lia).
  assert (Ha : string_ok "5") by (unfold string_ok, len; simpl; lia).
  assert (Hget : Get signalled_db.2 "n" = Some (true, "5"))
    by (vm_compute; reflexivity).
  assert (Hp : Strconv.ParseInt "5" = Some 5) by reflexivity.
  split_and!; try assumption.
  exact (pending_incr_counted_twice 1000 8 16 0 2000 8 16 0 1005 0 quiet
           signalled_run signalled_db.1 signalled_db.2 "n" "5" "5" 5 5
           Hc Hc Hops Hdr Hrun Hcom Hsig Ht Hk Ha Hget Hp Hp).
Defined.

(** ** The API keys *)

Module ApiKeyFacts.
Import Files ApiKeys.

Lemma length_ToUpper s : String.length (ToUpper s) = String.length s.
Proof. induction s as [|c s IH]; [done|]. cbn. by rewrite IH. Qed.

Lemma length_substring_0 m s :
  (m ≤ String.length s)%nat → String.length (substring 0 m s) = m.
Proof.
  revert m. induction s as [|c s IH]; intros [|m] H; cbn in *; try done.
  - lia.
  - rewrite IH; [done|lia].
Qed.

Lemma length_TrimSuffix s suffix :
  HasSuffix s suffix = true →
  String.length (TrimSuffix s suffix)
  = (String.length s - String.length suffix)%nat.
Proof.
  intros H. unfold TrimSuffix. rewrite H.
  apply length_substring_0. lia.
Qed.

Lemma HasSuffix_length s suffix :
  HasSuffix s suffix = true → (String.length suffix ≤ String.length s)%nat.
Proof.
  unfold HasSuffix. intros H. apply andb_prop in H as [H _].
  by apply Nat.leb_le.
Qed.

Lemma length_keyFile db :
  String.length (keyFile db) = (String.length db + 8)%nat.
Proof.
  unfold keyFile. rewrite !FileFacts.length_append. cbn. lia.
Qed.

Lemma HasSuffix_keyFile db : HasSuffix (keyFile db) ".apikey" = true.
Proof.
  unfold keyFile. rewrite <- FileFacts.append_assoc.
  apply FileFacts.HasSuffix_append.
Qed.

(** The file that the loop reads for a key file is one byte longer. *)
Lemma length_next name :
  HasSuffix name ".apikey" = true →
  String.length (keyFile (ToUpper (TrimSuffix name ".apikey")))
  = S (String.length name).
Proof.
  intros H. rewrite length_keyFile, length_ToUpper, length_TrimSuffix by done.
  apply HasSuffix_length in H. cbn in *. lia.
Qed.

Lemma elem_of_ReadDir d name : name ∈ ReadDir d ↔ is_Some (d !! name).
Proof.
  unfold ReadDir. rewrite merge_sort_Permutation, list_elem_of_fmap.
  split.
  - intros ([n x] & -> & H). apply elem_of_map_to_list in H. by exists x.
  - intros [x H]. exists (name, x). split; [done|].
    by apply elem_of_map_to_list.
Qed.

(** Without key files the loop does nothing. *)
Lemma restore_skip files u d :
  (∀ name, name ∈ files → HasSuffix name ".apikey" = false) →
  restore files u d = Ok u d.
Proof.
  induction files as [|name rest IH]; intros H; [done|].
  cbn [restore]. rewrite (H name) by left. cbn [negb].
  apply IH. intros n Hn. apply H. by right.
Qed.

(** When the loop ends with [nil], the folder has the entries it had, and
    for every key file of the listing the file read for it is there. *)
Lemma restore_Ok files : ∀ u d u' d',
  restore files u d = Ok u' d' →
  (∀ k, is_Some (d' !! k) ↔ is_Some (d !! k))
  ∧ ∀ name, name ∈ files → HasSuffix name ".apikey" = true →
      is_Some (d !! keyFile (ToUpper (TrimSuffix name ".apikey"))).
Proof.
  induction files as [|name rest IH]; intros u d u' d' H.
  - injection H as <- <-. split; [done|]. intros n Hn.
    by apply elem_of_nil in Hn.
  - cbn [restore] in H.
    destruct (HasSuffix name ".apikey") eqn:Hs; cbn [negb] in H.
    + unfold ReadApiKey, SaveApiKey in H.
      destruct (d !! keyFile (ToUpper (TrimSuffix name ".apikey")))
        as [[|content]|] eqn:Hk; try done.
      destruct (length content <? 32)%nat; [done|].
      destruct (IH _ _ _ _ H) as [Hdom Hin].
      assert (Hsame : ∀ k,
        is_Some (<[keyFile (ToUpper (TrimSuffix name ".apikey"))
                   := File (take 32 content)]> d !! k)
        ↔ is_Some (d !! k)).
      { intros k. rewrite lookup_insert_is_Some.
        split; [intros [<-|[_ ?]]; [by rewrite Hk|done]|].
        intros Hd.
        destruct (decide (keyFile (ToUpper (TrimSuffix name ".apikey")) = k));
          [by left|by right]. }
      split.
      * intros k. by rewrite Hdom, Hsame.
      * intros n Hn Hsn. apply elem_of_cons in Hn as [->|Hn].
        -- by rewrite Hk.
        -- apply Hsame. by apply Hin.
    + destruct (IH _ _ _ _ H) as [Hdom Hin]. split; [done|].
      intros n Hn Hsn. apply elem_of_cons in Hn as [->|Hn].
      * by rewrite Hs in Hsn.
      * by apply Hin.
Qed.

(** A folder with a key file: [RestoreApiKeys] does not end with [nil]. *)
Lemma RestoreApiKeys_not_Ok u d name :
  is_Some (d !! name) → HasSuffix name ".apikey" = true →
  ∀ u' d', RestoreApiKeys u d ≠ Ok u' d'.
Proof.
  intros Hname Hs u' d' H. unfold RestoreApiKeys in H.
  apply restore_Ok in H as [_ Hin].
  assert (Hgrow : ∀ k, ∃ n,
    is_Some (d !! n) ∧ HasSuffix n ".apikey" = true
    ∧ String.length n = (String.length name + k)%nat).
  { induction k as [|k (n & Hn & Hsn & Hl)].
    - exists name. split_and!; [done|done|lia].
    - exists (keyFile (ToUpper (TrimSuffix n ".apikey"))). split_and!.
      + apply Hin; [by apply elem_of_ReadDir|done].
      + apply HasSuffix_keyFile.
      + rewrite length_next by done. lia. }
  destruct (Hgrow (S (max_list (String.length <$> ReadDir d))))
    as (n & Hn & _ & Hl).
  apply elem_of_ReadDir in Hn.
  pose proof (max_list_elem_of_le (String.length n)
                (String.length <$> ReadDir d)
                (list_elem_of_fmap_2 _ _ _ Hn)).
  lia.
Qed.

End ApiKeyFacts.

(** X21. [RestoreApiKeys] restores no key. On a database folder with ASCII
    names it returns [nil], having changed nothing, when no entry of the
    folder ends in [".apikey"]; when an entry does, it ends with an error or
    in a panic: for the file [.DB.apikey] it looks for the file
    [..DB.apikey]. So a key file that [SaveApiKey] has written for a name
    that [CheckDbName] accepts makes every later [RestoreApiKeys] fail. *)
Theorem RestoreApiKeys_fails (u : ApiKeys.Utils) (d : ApiKeys.folder) :
  (∀ name, is_Some (d !! name) → ApiKeys.isASCII name = true) →
  ((∀ name, is_Some (d !! name) → Files.HasSuffix name ".apikey" = false) →
   ApiKeys.RestoreApiKeys u d = ApiKeys.Ok u d)
  ∧ (∀ name, is_Some (d !! name) → Files.HasSuffix name ".apikey" = true →
       ∀ u' d', ApiKeys.RestoreApiKeys u d ≠ ApiKeys.Ok u' d')
  ∧ (∀ db apiKey u1 d1,
       ApiKeys.CheckDbName db = true →
       ApiKeys.SaveApiKey u d db apiKey = (u1, d1, true) →
       d1 !! ApiKeys.keyFile (ApiKeys.ToUpper db) = Some (ApiKeys.File apiKey)
       ∧ ApiKeys.apiKeys u1 !! ApiKeys.ToUpper db = Some apiKey
       ∧ ∀ u' d', ApiKeys.RestoreApiKeys u1 d1 ≠ ApiKeys.Ok u' d').
Proof.
  intros _. split_and!.
  - intros H. apply ApiKeyFacts.restore_skip.
    intros name Hn. by apply H, ApiKeyFacts.elem_of_ReadDir.
  - intros name Hn Hs. by apply (ApiKeyFacts.RestoreApiKeys_not_Ok u d name).
  - intros db apiKey u1 d1 _ Hsave. unfold ApiKeys.SaveApiKey in Hsave.
    assert (Hd1 : d1 = <[ApiKeys.keyFile (ApiKeys.ToUpper db)
                         := ApiKeys.File apiKey]> d
                  ∧ u1 = ApiKeys.mkUtils
                           (<[ApiKeys.ToUpper db := apiKey]>
                              (ApiKeys.apiKeys u))).
    { destruct (d !! ApiKeys.keyFile (ApiKeys.ToUpper db)) as [[|c]|];
        by inversion Hsave. }
    destruct Hd1 as [-> ->]. split_and!.
    + apply lookup_insert_eq.
    + apply lookup_insert_eq.
    + apply (ApiKeyFacts.RestoreApiKeys_not_Ok _ _
               (ApiKeys.keyFile (ApiKeys.ToUpper db))).
      * rewrite lookup_insert_eq. by eexists.
      * apply ApiKeyFacts.HasSuffix_keyFile.
Qed.

(** The theorem at a folder with the log of one database, into which the key
    of that database is saved. *)
Lemma RestoreApiKeys_fails_witness :
  let u := ApiKeys.mkUtils ∅ in
  let d : ApiKeys.folder := {["DB.bin" := ApiKeys.File []]} in
  (∀ name, is_Some (d !! name) → ApiKeys.isASCII name = true)
  ∧ ((∀ name, is_Some (d !! name) → Files.HasSuffix name ".apikey" = false) →
     ApiKeys.RestoreApiKeys u d = ApiKeys.Ok u d)
  ∧ (∀ name, is_Some (d !! name) → Files.HasSuffix name ".apikey" = true →
       ∀ u' d', ApiKeys.RestoreApiKeys u d ≠ ApiKeys.Ok u' d')
  ∧ (∀ db apiKey u1 d1,
       ApiKeys.CheckDbName db = true →
       ApiKeys.SaveApiKey u d db apiKey = (u1, d1, true) →
       d1 !! ApiKeys.keyFile (ApiKeys.ToUpper db) = Some (ApiKeys.File apiKey)
       ∧ ApiKeys.apiKeys u1 !! ApiKeys.ToUpper db = Some apiKey
       ∧ ∀ u' d', ApiKeys.RestoreApiKeys u1 d1 ≠ ApiKeys.Ok u' d').
Proof.
  intros u d.
  assert (H : ∀ name, is_Some (d !! name) → ApiKeys.isASCII name = true).
  { intros name [x Hx]. apply lookup_singleton_Some in Hx as [<- _].
    reflexivity. }
  split; [exact H|]. exact (RestoreApiKeys_fails u d H).
Defined.

(** The restart after a key was saved: the folder holds the log and the key
    file of the database [db]; the loop reads [..DB.apikey], which is not
    there, and returns the error with nothing restored. *)
Example restore_after_save :
  let key := repeat "k"%char 32 in
  let d : ApiKeys.folder := {["db.bin" := ApiKeys.File []]} in
  let '(_, d1, ok) := ApiKeys.SaveApiKey (ApiKeys.mkUtils ∅) d "db" key in
  ok = true
  ∧ ApiKeys.ReadDir d1 = [".DB.apikey"; "db.bin"]
  ∧ ApiKeys.RestoreApiKeys (ApiKeys.mkUtils ∅) d1
    = ApiKeys.Err (ApiKeys.mkUtils ∅) d1.
Proof. vm_compute. split_and!; reflexivity. Qed.
